(** * DingTalk Stream monitor (extensions/dingtalk/src/monitor.ts)

    A shallow embedding of the stream-connection monitor: the message
    de-duplication cache, the single-connection lifecycle controller and the
    inbound event callback, followed by the properties of the specification
    that concern them.

    Conventions of the embedding.
    - A JavaScript [Set<string>] is the list of its elements in insertion
      order, a [Map<string, number>] the list of its entries in insertion
      order (the order is observable through [keys().next()]).
    - A JavaScript string is the Rocq string of its UTF-8 encoding, as a
      string literal of this file is read; [slice] counts UTF-16 code units
      on it, as the source does.
    - [Date.now()] is an input: every function that reads the clock takes the
      value read as an argument.  Timestamps are integers (milliseconds), far
      below 2^53, so the double arithmetic of the source is exact on them.
    - Objects compared by identity (clients, promises, abort signals) are
      numbered; the number is the identity.
    - JavaScript runs every call, callback and listener to completion before
      the next one starts, so each of them is one function from world to
      world.
    - Calls to collaborators (the transport client, the client factory, the
      downstream handler, the logging callbacks) are recorded in a trace.
      The logging callbacks are taken to return, and the downstream handler
      to report failure through the promise it returns. *)

From stdpp Require Import base list strings pretty.
From Stdlib Require Import ZArith Lia.

Local Open Scope string_scope.
Local Open Scope Z_scope.

(** JavaScript truthiness of a string: only the empty string is falsy. *)
Definition truthy (s : string) : bool := negb (bool_decide (s = "")).

(** ** Insertion-ordered [Set<string>] *)
Module JsSet.
Abbreviation t := (list string).
Definition has (k : string) (s : t) : bool := bool_decide (k ∈ s).
Definition add (k : string) (s : t) : t := if has k s then s else s ++ [k].
Definition delete (k : string) (s : t) : t := filter (λ x, x ≠ k) s.
Definition size (s : t) : Z := Z.of_nat (length s).
Definition clear (s : t) : t := [].
End JsSet.

(** ** Insertion-ordered [Map<string, number>] *)
Module JsMap.
Abbreviation t := (list (string * Z)).
Definition keys (m : t) : list string := m.*1.
Definition has (k : string) (m : t) : bool := bool_decide (k ∈ keys m).
Fixpoint get (k : string) (m : t) : option Z :=
  match m with
  | [] => None
  | (k', v) :: m' => if decide (k' = k) then Some v else get k m'
  end.
(** [set] on a key already present overwrites the value and keeps the
    position of the entry; a new key is appended. *)
Definition set (k : string) (v : Z) (m : t) : t :=
  if has k m
  then (λ p : string * Z, if decide (p.1 = k) then (k, v) else p) <$> m
  else m ++ [(k, v)].
Definition delete (k : string) (m : t) : t := filter (λ p, p.1 ≠ k) m.
(** [m.keys().next().value]: the oldest key, [None] for [undefined]. *)
Definition first_key (m : t) : option string := head (keys m).
Definition clear (m : t) : t := [].
End JsMap.

(** ** The de-duplication cache (monitor.ts, lines 48-106 and 319-322) *)

Record DedupCache := mkCache {
  processedMessageIds : JsSet.t;
  processedMessageTimestamps : JsMap.t
}.

Definition DEDUP_CACHE_MAX_SIZE : Z := 10000.
Definition DEDUP_CACHE_TTL : Z := 5 * 60 * 1000.

Definition emptyCache : DedupCache := mkCache [] [].

(** The two [delete] calls that the source always issues together. *)
Definition deleteEntry (messageId : string) (c : DedupCache) : DedupCache :=
  mkCache (JsSet.delete messageId (processedMessageIds c))
          (JsMap.delete messageId (processedMessageTimestamps c)).

(** [cleanupDedupCache]: one pass over the entries of the timestamp map;
    an entry deleted during the pass is the one being visited, so the pass
    visits exactly the entries present when it starts. *)
Definition cleanupDedupCache (now : Z) (c : DedupCache) : DedupCache :=
  foldl (λ acc '(messageId, timestamp),
           if now - timestamp >? DEDUP_CACHE_TTL
           then deleteEntry messageId acc else acc)
        c (processedMessageTimestamps c).

Definition isMessageProcessed (messageId : string) (c : DedupCache) : bool :=
  JsSet.has messageId (processedMessageIds c).

(** [markMessageProcessed]: [now_gc] is the clock read by the cleanup pass
    (when one runs), [now] the clock read for the new timestamp. *)
Definition markMessageProcessed (now_gc now : Z) (messageId : string)
    (c : DedupCache) : DedupCache :=
  let c1 :=
    if JsSet.size (processedMessageIds c) >=? DEDUP_CACHE_MAX_SIZE then
      let c' := cleanupDedupCache now_gc c in
      if JsSet.size (processedMessageIds c') >=? DEDUP_CACHE_MAX_SIZE then
        match JsMap.first_key (processedMessageTimestamps c') with
        | Some oldestId =>
            if truthy oldestId then deleteEntry oldestId c' else c'
        | None => c'
        end
      else c'
    else c in
  mkCache (JsSet.add messageId (processedMessageIds c1))
          (JsMap.set messageId now (processedMessageTimestamps c1)).

Definition clearDedupCache (c : DedupCache) : DedupCache :=
  mkCache (JsSet.clear (processedMessageIds c))
          (JsMap.clear (processedMessageTimestamps c)).

(** Operations on the cache, for statements about sequences of them. *)
Inductive CacheOp :=
  | OpMark (now_gc now : Z) (messageId : string)
  | OpCleanup (now : Z)
  | OpClear
  | OpQuery (messageId : string).

Definition cacheStep (op : CacheOp) (c : DedupCache) : DedupCache :=
  match op with
  | OpMark now_gc now k => markMessageProcessed now_gc now k c
  | OpCleanup now => cleanupDedupCache now c
  | OpClear => clearDedupCache c
  | OpQuery _ => c
  end.

Definition cacheRun (ops : list CacheOp) (c : DedupCache) : DedupCache :=
  foldl (λ acc op, cacheStep op acc) c ops.

Definition cacheSize (c : DedupCache) : Z :=
  JsSet.size (processedMessageIds c).

(** The entry of [k] is older than the TTL at time [now]. *)
Definition ttlExpired (now : Z) (k : string) (c : DedupCache) : bool :=
  match JsMap.get k (processedMessageTimestamps c) with
  | Some timestamp => now - timestamp >? DEDUP_CACHE_TTL
  | None => false
  end.

Definition atCapacity (c : DedupCache) : bool :=
  cacheSize c >=? DEDUP_CACHE_MAX_SIZE.

(** The three ways an entry leaves the cache: an explicit clear, a cleanup
    pass that finds it older than the TTL (a pass runs on its own or inside
    an insert at capacity), and the eviction of the oldest entry by an insert
    that is still at capacity after its cleanup pass. *)
Definition removalEvent (k : string) (c : DedupCache) (op : CacheOp) : bool :=
  match op with
  | OpClear => true
  | OpCleanup now => ttlExpired now k c
  | OpMark now_gc _ _ =>
      atCapacity c &&
      (ttlExpired now_gc k c
       || (atCapacity (cleanupDedupCache now_gc c)
           && bool_decide (JsMap.first_key
                 (processedMessageTimestamps (cleanupDedupCache now_gc c))
               = Some k)))
  | OpQuery _ => false
  end.

Fixpoint noRemoval (k : string) (c : DedupCache) (ops : list CacheOp) : bool :=
  match ops with
  | [] => true
  | op :: ops' => negb (removalEvent k c op) && noRemoval k (cacheStep op c) ops'
  end.

(** Invariant of the cache: the set and the map list the same keys in the
    same order, without repetition. *)
Definition cacheOk (c : DedupCache) : Prop :=
  processedMessageIds c = JsMap.keys (processedMessageTimestamps c)
  ∧ NoDup (processedMessageIds c).


(** ** Collaborators of the monitor

    The transport client ([DWClient] of the dingtalk-stream SDK), the client
    factory ([createDingtalkClientFromConfig], client.ts), the downstream
    handler ([handleDingtalkMessage], bot.ts) and the logging callbacks are
    not part of the monitor.  Calls to them are recorded in a trace of
    effects; what they answer is an input. *)

(** A thrown value, by its rendering [String(err)]. *)
Abbreviation Thrown := string.

(** [new Error(msg)], rendered. *)
Definition mkError (msg : string) : Thrown := "Error: " +:+ msg.

(** How one client answers the three calls the monitor makes on it:
    [None] when the call returns, [Some e] when it throws [e]. *)
Record ClientBehaviour := mkClient {
  registerThrows : option Thrown;
  connectThrows : option Thrown;
  disconnectThrows : option Thrown
}.

Abbreviation ClientId := nat.
Abbreviation PromiseId := nat.
Abbreviation SignalId := nat.

(** [DingtalkRawMessage] (types.ts), the fields the monitor reads; [None]
    is [undefined]. [textContent] is [text?.content]. *)
Record DingtalkRawMessage := mkRaw {
  streamMessageId : option string;
  conversationId : option string;
  senderId : option string;
  textContent : option string;
  msgtype : option string
}.

(** The value of [JSON.parse(res.data)]. *)
Inductive Parsed :=
  | ParseThrows (e : Thrown)
  | ParsedNull
  | ParsedPrimitive
  | ParsedObject (m : DingtalkRawMessage).

(** The message handed on after decoding: an object, or a primitive (on
    which every property read gives [undefined]). *)
Inductive RawValue :=
  | RawPrimitive
  | RawObject (m : DingtalkRawMessage).

(** One event delivered by the transport: [res.data] parsed, and
    [res?.headers?.messageId]. *)
Record StreamEvent := mkEvent {
  resData : Parsed;
  resHeaderMessageId : option string
}.

Inductive EventAck := SUCCESS | LATER.

Inductive Effect :=
  | ELog (msg : string)
  | EError (msg : string)
  | ECreateClient (result : option ClientId)
  | ERegisterCallback (c : ClientId)
  | EConnect (c : ClientId)
  | EDisconnect (c : ClientId)
  | EAddAbortListener (sg : SignalId) (c : ClientId)
  | ERemoveAbortListener (sg : SignalId) (c : ClientId)
  | EResolve (p : PromiseId)
  | EReject (p : PromiseId) (e : Thrown)
  | EHandle (accountId : string) (raw : RawValue).

(** ** State of the monitor *)

(** A promise: pending, settled, or (the promise of an [async] call that
    returned promise [p]) following [p]. *)
Inductive PromiseCell :=
  | Pending
  | Fulfilled
  | Rejected (e : Thrown)
  | Following (p : PromiseId).

(** The four module variables of lines 36-46.  A client is identified with
    the session built around it, and the stop hook with the session whose
    closure it is. *)
Record Slot := mkSlot {
  currentClient : option ClientId;
  currentAccountId : option string;
  currentPromise : option PromiseId;
  currentStop : option ClientId
}.

Definition idleSlot : Slot := mkSlot None None None None.

(** The closure environment of one call that got as far as building a
    client: the client, the captured [accountId] and [abortSignal], the
    promise whose [resolve]/[reject] it holds, and the flag [stopped]. *)
Record Session := mkSession {
  sClient : ClientBehaviour;
  sAccountId : string;
  sAbortSignal : option SignalId;
  sPromise : PromiseId;
  sStopped : bool
}.

Record World := mkWorld {
  slot : Slot;
  dedup : DedupCache;
  sessions : list Session;
  promises : list PromiseCell;
  abortedSignals : list SignalId;
  abortListeners : list (SignalId * ClientId);
  trace : list Effect
}.

Definition initialWorld : World :=
  mkWorld idleSlot emptyCache [] [] [] [] [].

Definition setSlot (x : Slot) (w : World) : World :=
  mkWorld x (dedup w) (sessions w) (promises w) (abortedSignals w)
          (abortListeners w) (trace w).
Definition setDedup (x : DedupCache) (w : World) : World :=
  mkWorld (slot w) x (sessions w) (promises w) (abortedSignals w)
          (abortListeners w) (trace w).
Definition setSessions (x : list Session) (w : World) : World :=
  mkWorld (slot w) (dedup w) x (promises w) (abortedSignals w)
          (abortListeners w) (trace w).
Definition setPromises (x : list PromiseCell) (w : World) : World :=
  mkWorld (slot w) (dedup w) (sessions w) x (abortedSignals w)
          (abortListeners w) (trace w).
Definition setAborted (x : list SignalId) (w : World) : World :=
  mkWorld (slot w) (dedup w) (sessions w) (promises w) x
          (abortListeners w) (trace w).
Definition setListeners (x : list (SignalId * ClientId)) (w : World) : World :=
  mkWorld (slot w) (dedup w) (sessions w) (promises w) (abortedSignals w)
          x (trace w).
Definition emit (e : Effect) (w : World) : World :=
  mkWorld (slot w) (dedup w) (sessions w) (promises w) (abortedSignals w)
          (abortListeners w) (trace w ++ [e]).

Definition log (msg : string) (w : World) : World := emit (ELog msg) w.
Definition error (msg : string) (w : World) : World := emit (EError msg) w.

(** ** Status queries (lines 299-312) *)

Definition isMonitorActive (w : World) : bool :=
  bool_decide (currentClient (slot w) ≠ None).

Definition getCurrentAccountId (w : World) : option string :=
  currentAccountId (slot w).

(** ** Promises *)

(** [resolve()] / [reject(e)] of a promise: only a pending promise
    changes; every call is recorded. *)
Definition settle (p : PromiseId) (v : PromiseCell) (ps : list PromiseCell)
    : list PromiseCell :=
  match ps !! p with
  | Some Pending => <[p := v]> ps
  | _ => ps
  end.

Definition resolvePromise (p : PromiseId) (w : World) : World :=
  emit (EResolve p) (setPromises (settle p Fulfilled (promises w)) w).

Definition rejectPromise (p : PromiseId) (e : Thrown) (w : World) : World :=
  emit (EReject p e) (setPromises (settle p (Rejected e) (promises w)) w).

(** The state a promise is in, looking through [Following]. *)
Fixpoint promiseStateFuel (fuel : nat) (ps : list PromiseCell) (p : PromiseId)
    : option PromiseCell :=
  match ps !! p with
  | Some (Following q) =>
      match fuel with
      | O => None
      | S fuel' => promiseStateFuel fuel' ps q
      end
  | other => other
  end.

Definition promiseState (w : World) (p : PromiseId) : option PromiseCell :=
  promiseStateFuel (length (promises w)) (promises w) p.

(** ** Abort signals *)

Definition addEventListener (sg : SignalId) (c : ClientId) (w : World)
    : World :=
  emit (EAddAbortListener sg c)
    (setListeners
       (if bool_decide ((sg, c) ∈ abortListeners w) then abortListeners w
        else abortListeners w ++ [(sg, c)]) w).

Definition removeEventListener (sg : SignalId) (c : ClientId) (w : World)
    : World :=
  emit (ERemoveAbortListener sg c)
    (setListeners (filter (λ l, l ≠ (sg, c)) (abortListeners w)) w).

(** ** Teardown (lines 159-202) *)

(** [cleanup], for the closure of session [c] with client [cl]. *)
Definition cleanup (c : ClientId) (cl : ClientBehaviour) (w : World) : World :=
  let w1 :=
    if bool_decide (currentClient (slot w) = Some c)
    then setSlot idleSlot w else w in
  let w2 := emit (EDisconnect c) w1 in
  match disconnectThrows cl with
  | Some e => error ("[dingtalk] failed to disconnect client: " +:+ e) w2
  | None => w2
  end.

Definition markStopped (s : Session) : Session :=
  mkSession (sClient s) (sAccountId s) (sAbortSignal s) (sPromise s) true.

(** [resolve()] for [None], [reject(err)] for [Some err]. *)
Definition settlePromise (p : PromiseId) (outcome : option Thrown) (w : World)
    : World :=
  match outcome with
  | None => resolvePromise p w
  | Some err => rejectPromise p err w
  end.

(** [finalizeResolve] and [finalizeReject] differ in their last statement
    only; [finalize] is their common text: the guard on [stopped], the
    removal of the abort listener, [cleanup], and the settlement. *)
Definition finalize (c : ClientId) (outcome : option Thrown) (w : World)
    : World :=
  match sessions w !! c with
  | None => w
  | Some s =>
      if sStopped s then w
      else
        let w1 := setSessions (<[c := markStopped s]> (sessions w)) w in
        let w2 :=
          match sAbortSignal s with
          | Some sg => removeEventListener sg c w1
          | None => w1
          end in
        let w3 := cleanup c (sClient s) w2 in
        settlePromise (sPromise s) outcome w3
  end.

Definition finalizeResolve (c : ClientId) (w : World) : World :=
  finalize c None w.

Definition finalizeReject (c : ClientId) (err : Thrown) (w : World) : World :=
  finalize c (Some err) w.

Definition handleAbort (c : ClientId) (w : World) : World :=
  finalizeResolve c
    (log "[dingtalk] abort signal received, stopping Stream client" w).

(** The closure stored in [currentStop]. *)
Definition stopHook (c : ClientId) (w : World) : World :=
  finalizeResolve c
    (log "[dingtalk] stop requested, stopping Stream client" w).

(** [stopDingtalkMonitor] (lines 273-290). *)
Definition stopDingtalkMonitor (w : World) : World :=
  match currentStop (slot w) with
  | Some c => stopHook c w
  | None =>
      match currentClient (slot w) with
      | Some c =>
          let w1 := emit (EDisconnect c) w in
          let w2 :=
            match sessions w !! c with
            | Some s =>
                match disconnectThrows (sClient s) with
                | Some e =>
                    error ("[dingtalk] failed to disconnect client: " +:+ e) w1
                | None => w1
                end
            | None => w1
            end in
          setSlot idleSlot w2
      | None => w
      end
  end.

(** The abort signal [sg] fires: it becomes aborted and its listeners are
    called in registration order.  The listeners are registered with
    [once: true], so each is removed before it is called; a listener removed
    while the event is dispatched is not called. A signal fires once. *)
Fixpoint dispatchAbort (sg : SignalId) (snapshot : list (SignalId * ClientId))
    (w : World) : World :=
  match snapshot with
  | [] => w
  | (sg', c) :: rest =>
      if bool_decide (sg' = sg) && bool_decide ((sg', c) ∈ abortListeners w)
      then
        dispatchAbort sg rest
          (handleAbort c
             (setListeners
                (filter (λ l, l ≠ (sg', c)) (abortListeners w)) w))
      else dispatchAbort sg rest w
  end.

Definition fireAbort (sg : SignalId) (w : World) : World :=
  if bool_decide (sg ∈ abortedSignals w) then w
  else dispatchAbort sg (abortListeners w)
         (setAborted (abortedSignals w ++ [sg]) w).

(** ** The inbound event callback (lines 215-255) *)

(** ** Strings

    A JavaScript string is a sequence of UTF-16 code units.  It is modelled
    by the Rocq string of its UTF-8 encoding, the encoding in which a string
    literal of this file is read: a code point below U+0080 is one byte,
    below U+0800 two, below U+10000 three (a surrogate that is not half of a
    pair included), and a code point from U+10000 on, two code units in
    JavaScript, is four bytes.  Equality of strings and emptiness are the
    same on both sides.  Concatenation is the same wherever the source
    concatenates: every template of the source separates its parts by ASCII
    text, so no two surrogate halves meet.  [slice] counts code units, not
    bytes. *)

Definition byteOf (a : Ascii.ascii) : Z := Z.of_N (Ascii.N_of_ascii a).

(** The number of bytes of the encoded character that starts with byte
    [b]. *)
Definition utf8Bytes (b : Z) : nat :=
  if b <? 0xC0 then 1%nat
  else if b <? 0xE0 then 2%nat
  else if b <? 0xF0 then 3%nat
  else 4%nat.

(** The number of UTF-16 code units of the character that starts with byte
    [b]: two for a character of four bytes, one otherwise. *)
Definition utf16Units (b : Z) : nat := if b <? 0xF0 then 1%nat else 2%nat.

(** The first code unit (the high surrogate) of the character encoded in
    four bytes that start with [b1 b2 b3], as a string: with [cp] the code
    point, the surrogate is [0xD800 + ((cp - 0x10000) >> 10)], and
    [cp >> 10] does not depend on the fourth byte. *)
Definition highSurrogate (b1 b2 b3 : Z) : string :=
  let top :=
    Z.lor (Z.shiftl (Z.land b1 0x07) 8)
      (Z.lor (Z.shiftl (Z.land b2 0x3F) 2) (Z.shiftr (Z.land b3 0x3F) 4)) in
  let hi := 0xD800 + (top - 0x40) in
  let byte (z : Z) := Ascii.ascii_of_N (Z.to_N z) in
  String (byte 0xED)
    (String (byte (Z.lor 0x80 (Z.land (Z.shiftr hi 6) 0x3F)))
       (String (byte (Z.lor 0x80 (Z.land hi 0x3F))) EmptyString)).

(** The first [n] code units of [s]; [pending] counts the bytes still to
    copy of a character already taken.  When one code unit is left and the
    next character has two, the slice ends with the first of them. *)
Fixpoint sliceUnits (n pending : nat) (s : string) : string :=
  match s with
  | EmptyString => EmptyString
  | String a rest =>
      match pending with
      | S k => String a (sliceUnits n k rest)
      | O =>
          match n with
          | O => EmptyString
          | S n' =>
              if byteOf a <? 0xF0
              then String a (sliceUnits n' (utf8Bytes (byteOf a) - 1) rest)
              else
                match n' with
                | S n'' => String a (sliceUnits n'' 3 rest)
                | O =>
                    match rest with
                    | String a2 (String a3 _) =>
                        highSurrogate (byteOf a) (byteOf a2) (byteOf a3)
                    | String a2 EmptyString =>
                        highSurrogate (byteOf a) (byteOf a2) 0x80
                    | EmptyString => highSurrogate (byteOf a) 0x80 0x80
                    end
                end
          end
      end
  end.

(** [s.slice(0, n)] *)
Definition jsSlice (n : nat) (s : string) : string := sliceUnits n 0 s.

(** [s.length]: the number of code units of [s]. *)
Fixpoint countUnits (pending : nat) (s : string) : nat :=
  match s with
  | EmptyString => 0%nat
  | String a rest =>
      match pending with
      | S k => countUnits k rest
      | O =>
          (utf16Units (byteOf a)
           + countUnits (utf8Bytes (byteOf a) - 1) rest)%nat
      end
  end.

Definition jsLength (s : string) : nat := countUnits 0 s.

Definition jsString (o : option string) : string := default "undefined" o.

Definition fieldsOf (raw : RawValue) : DingtalkRawMessage :=
  match raw with
  | RawPrimitive => mkRaw None None None None None
  | RawObject m => m
  end.

Definition withStreamMessageId (id : string) (m : DingtalkRawMessage)
    : DingtalkRawMessage :=
  mkRaw (Some id) (conversationId m) (senderId m) (textContent m) (msgtype m).

(** Lines 218-221: parse, then attach the delivery id of the headers when
    that id is truthy.  A property read on [null] throws, and so does a
    property write on [null] or (the module is strict code) on a primitive. *)
Definition decode (res : StreamEvent) : Thrown + RawValue :=
  match resData res with
  | ParseThrows e => inl e
  | ParsedNull => inl "TypeError"
  | ParsedPrimitive =>
      match resHeaderMessageId res with
      | Some id => if truthy id then inl "TypeError" else inr RawPrimitive
      | None => inr RawPrimitive
      end
  | ParsedObject m =>
      match resHeaderMessageId res with
      | Some id =>
          inr (RawObject (if truthy id then withStreamMessageId id m else m))
      | None => inr (RawObject m)
      end
  end.

(** Lines 224-226. *)
Definition dedupeKey (accountId : string) (raw : RawValue) : string :=
  let m := fieldsOf raw in
  let fallback :=
    accountId +:+ ":" +:+ jsString (conversationId m) +:+ "_"
    +:+ jsString (senderId m) +:+ "_"
    +:+ match textContent m with
        | Some content => jsSlice 50 content
        | None => jsString (msgtype m)
        end in
  match streamMessageId m with
  | Some id => if truthy id then accountId +:+ ":" +:+ id else fallback
  | None => fallback
  end.

(** The callback registered for [TOPIC_ROBOT] by a call with account
    [accountId].  [now_gc] and [now] are the clock values read by
    [markMessageProcessed] if it is reached. *)
Definition callback (accountId : string) (res : StreamEvent) (now_gc now : Z)
    (w : World) : World * EventAck :=
  match decode res with
  | inl e => (error ("[dingtalk] error handling message: " +:+ e) w, SUCCESS)
  | inr raw =>
      let dedupeId := dedupeKey accountId raw in
      if isMessageProcessed dedupeId (dedup w) then
        (log ("[dingtalk] duplicate message detected, skipping (id="
              +:+ jsSlice 30 dedupeId +:+ "...)") w, SUCCESS)
      else
        let w1 := setDedup (markMessageProcessed now_gc now dedupeId (dedup w)) w in
        let w2 := log ("[dingtalk] received message from "
                       +:+ jsString (senderId (fieldsOf raw)) +:+ " (type="
                       +:+ jsString (msgtype (fieldsOf raw)) +:+ ")") w1 in
        let w3 := emit (EHandle accountId raw) w2 in
        (w3, SUCCESS)
  end.

(** The [.catch] continuation of line 246: the promise returned by the
    downstream handler was rejected with [e]. *)
Definition handlerRejected (e : Thrown) (w : World) : World :=
  error ("[dingtalk] error handling message: " +:+ e) w.

(** ** Counting calls in the trace *)

Fixpoint countIf (f : Effect → bool) (tr : list Effect) : nat :=
  match tr with
  | [] => O
  | e :: tr' => if f e then S (countIf f tr') else countIf f tr'
  end.

Definition isHandle (e : Effect) : bool :=
  match e with EHandle _ _ => true | _ => false end.
Definition isDisconnectOf (c : ClientId) (e : Effect) : bool :=
  match e with EDisconnect c' => bool_decide (c' = c) | _ => false end.
Definition isSettleOf (p : PromiseId) (e : Effect) : bool :=
  match e with
  | EResolve p' => bool_decide (p' = p)
  | EReject p' _ => bool_decide (p' = p)
  | _ => false
  end.
Definition isResolveOf (p : PromiseId) (e : Effect) : bool :=
  match e with EResolve p' => bool_decide (p' = p) | _ => false end.
Definition isListenerRemovalOf (c : ClientId) (e : Effect) : bool :=
  match e with ERemoveAbortListener _ c' => bool_decide (c' = c) | _ => false end.
Definition isTransportSetup (e : Effect) : bool :=
  match e with
  | ECreateClient _ | ERegisterCallback _ | EConnect _ => true
  | _ => false
  end.

Definition handlerCalls (w : World) : nat := countIf isHandle (trace w).
Definition disconnectCalls (c : ClientId) (w : World) : nat :=
  countIf (isDisconnectOf c) (trace w).
Definition settleCalls (p : PromiseId) (w : World) : nat :=
  countIf (isSettleOf p) (trace w).
Definition resolveCalls (p : PromiseId) (w : World) : nat :=
  countIf (isResolveOf p) (trace w).
Definition listenerRemovals (c : ClientId) (w : World) : nat :=
  countIf (isListenerRemovalOf c) (trace w).

(** ** Starting the monitor (lines 120-268) *)

(** Lines 147-202, for a factory that returned the client [cl]: the call
    of the factory is recorded, the client is stored with the account, the
    promise and the session closure are made, and the stop hook is stored.
    The new client (and session) and the new promise get the next free
    numbers. *)
Definition sessionOpened (cl : ClientBehaviour) (accountId : string)
    (sg : option SignalId) (w : World) : World :=
  let c := length (sessions w) in
  let p := length (promises w) in
  let w1 := emit (ECreateClient (Some c)) w in
  let w2 :=
    setSlot (mkSlot (Some c) (Some accountId) (currentPromise (slot w1))
               (currentStop (slot w1))) w1 in
  let w3 :=
    log ("[dingtalk] starting Stream connection for account "
         +:+ accountId +:+ "...") w2 in
  let w4 := setPromises (promises w3 ++ [Pending]) w3 in
  let w5 :=
    setSessions (sessions w4 ++ [mkSession cl accountId sg p false]) w4 in
  setSlot (mkSlot (currentClient (slot w5)) (currentAccountId (slot w5))
             (currentPromise (slot w5)) (Some c)) w5.

(** Line 158, the assignment: it happens after the executor has run. *)
Definition storePromise (p : PromiseId) (w : World) : World :=
  setSlot (mkSlot (currentClient (slot w)) (currentAccountId (slot w))
                  (Some p) (currentStop (slot w))) w.

Section Monitor.
(** [DingtalkConfig] (config.ts) is opaque to the monitor, and the client
    factory (client.ts) is a collaborator: it throws, or it returns a
    client. *)
Context {DingtalkConfig : Type}.
Context (createDingtalkClientFromConfig :
           DingtalkConfig → Thrown + ClientBehaviour).

Record Channels := mkChannels { dingtalk : option DingtalkConfig }.
Record Config := mkConfig { channels : option Channels }.

Record MonitorDingtalkOpts := mkOpts {
  config : option Config;
  abortSignal : option SignalId;
  accountId : option string
}.

(** [config?.channels?.dingtalk] *)
Definition dingtalkCfgOf (opts : MonitorDingtalkOpts)
    : option DingtalkConfig :=
  cfg ← config opts; ch ← channels cfg; dingtalk ch.

(** [abortSignal?.aborted] *)
Definition alreadyAborted (sg : option SignalId) (w : World) : bool :=
  match sg with
  | Some sg => bool_decide (sg ∈ abortedSignals w)
  | None => false
  end.

(** The executor of the promise, from line 204 on; [c] is the new
    client, already stored in [currentStop]. *)
Definition connectStream (c : ClientId) (cl : ClientBehaviour)
    (sg : option SignalId) (w : World) : World :=
  if alreadyAborted sg w then finalizeResolve c w
  else
    let w1 :=
      match sg with
      | Some sg => addEventListener sg c w
      | None => w
      end in
    let w2 := emit (ERegisterCallback c) w1 in
    match registerThrows cl with
    | Some e =>
        finalizeReject c e
          (error ("[dingtalk] failed to start Stream connection: " +:+ e) w2)
    | None =>
        let w3 := emit (EConnect c) w2 in
        match connectThrows cl with
        | Some e =>
            finalizeReject c e
              (error ("[dingtalk] failed to start Stream connection: "
                      +:+ e) w3)
        | None => log "[dingtalk] Stream client connected" w3
        end
    end.

(** The body of [monitorDingtalkProvider]: the world it leaves and what
    it does last, [throw] ([inl]) or [return] of a promise ([inr]). *)
Definition monitorBody (opts : MonitorDingtalkOpts) (w : World)
    : World * (Thrown + PromiseId) :=
  let accountId := default "default" (accountId opts) in
  match currentClient (slot w) with
  | Some _ =>
      let busy :=
        match currentAccountId (slot w) with
        | Some cur =>
            if truthy cur && negb (bool_decide (cur = accountId))
            then Some cur else None
        | None => None
        end in
      match busy with
      | Some cur =>
          (w, inl (mkError ("DingTalk already running for account " +:+ cur)))
      | None =>
          let w1 :=
            log ("[dingtalk] existing connection for account " +:+ accountId
                 +:+ " is active, reusing monitor") w in
          match currentPromise (slot w1) with
          | Some p => (w1, inr p)
          | None =>
              (w1, inl (mkError
                 "DingTalk monitor state invalid: active client without promise"))
          end
      end
  | None =>
      match dingtalkCfgOf opts with
      | None => (w, inl (mkError "DingTalk configuration not found"))
      | Some dingtalkCfg =>
          match createDingtalkClientFromConfig dingtalkCfg with
          | inl e =>
              (error ("[dingtalk] failed to create client: " +:+ e)
                 (emit (ECreateClient None) w), inl e)
          | inr cl =>
              let c := length (sessions w) in
              let p := length (promises w) in
              let w6 := sessionOpened cl accountId (abortSignal opts) w in
              let w7 := connectStream c cl (abortSignal opts) w6 in
              let w8 := storePromise p w7 in
              (w8, inr p)
          end
      end
  end.

(** [monitorDingtalkProvider] is an [async] function: every call
    returns a promise of its own, rejected with what the body throws or
    resolved with (hence following) the promise the body returns. *)
Definition monitorDingtalkProvider (opts : MonitorDingtalkOpts) (w : World)
    : World * PromiseId :=
  let '(w', outcome) := monitorBody opts w in
  let cell :=
    match outcome with
    | inl e => Rejected e
    | inr p => Following p
    end in
  (setPromises (promises w' ++ [cell]) w', length (promises w')).

(** ** Everything that can happen to the monitor *)

Inductive Event :=
  | EvStart (opts : MonitorDingtalkOpts)
  | EvStop
  | EvAbort (sg : SignalId)
  | EvDeliver (c : ClientId) (res : StreamEvent) (now_gc now : Z)
  | EvHandlerRejected (e : Thrown)
  | EvClearCache.

Definition step (ev : Event) (w : World) : World :=
  match ev with
  | EvStart opts => (monitorDingtalkProvider opts w).1
  | EvStop => stopDingtalkMonitor w
  | EvAbort sg => fireAbort sg w
  | EvDeliver c res now_gc now =>
      match sessions w !! c with
      | Some s => (callback (sAccountId s) res now_gc now w).1
      | None => w
      end
  | EvHandlerRejected e => handlerRejected e w
  | EvClearCache => setDedup (clearDedupCache (dedup w)) w
  end.

Definition run (evs : list Event) (w : World) : World :=
  foldl (λ acc ev, step ev acc) w evs.

Definition reachable (w : World) : Prop :=
  ∃ evs, w = run evs initialWorld.

(** A trigger of the teardown of a session with abort signal [sg]. *)
Definition isTrigger (sg : option SignalId) (ev : Event) : bool :=
  match ev with
  | EvStop => true
  | EvAbort sg' => bool_decide (sg = Some sg')
  | _ => false
  end.
End Monitor.

Arguments Channels : clear implicits.
Arguments Config : clear implicits.
Arguments MonitorDingtalkOpts : clear implicits.
Arguments Event : clear implicits.


(** ** Invariant of the lifecycle controller *)

Definition removalsExpected (s : Session) : nat :=
  match sAbortSignal s with Some _ => 1%nat | None => 0%nat end.

(** What holds of every world the monitor can be in, also in the middle of
    a start: at most one session is not stopped, it is the current one, and
    the teardown of a session has run once if the session is stopped and not
    at all otherwise. *)
Record Inv0 (w : World) : Prop := mkInv0 {
  inv_live_current : ∀ c s,
    sessions w !! c = Some s → sStopped s = false →
    currentClient (slot w) = Some c;
  inv_current : ∀ c,
    currentClient (slot w) = Some c →
    currentStop (slot w) = Some c
    ∧ ∃ s, sessions w !! c = Some s ∧ sStopped s = false
           ∧ currentAccountId (slot w) = Some (sAccountId s);
  inv_stop : ∀ c,
    currentStop (slot w) = Some c → currentClient (slot w) = Some c;
  inv_counts : ∀ c s,
    sessions w !! c = Some s →
    disconnectCalls c w = (if sStopped s then 1 else 0)%nat
    ∧ settleCalls (sPromise s) w = (if sStopped s then 1 else 0)%nat
    ∧ listenerRemovals c w
      = (if sStopped s then removalsExpected s else 0)%nat
    ∧ (sPromise s < length (promises w))%nat
    ∧ (sStopped s = false → promises w !! sPromise s = Some Pending);
  inv_fresh_client : ∀ c,
    (length (sessions w) ≤ c)%nat →
    disconnectCalls c w = 0%nat ∧ listenerRemovals c w = 0%nat;
  inv_fresh_promise : ∀ p,
    (length (promises w) ≤ p)%nat → settleCalls p w = 0%nat;
  inv_promise_inj : ∀ c c' s s',
    sessions w !! c = Some s → sessions w !! c' = Some s' →
    sPromise s = sPromise s' → c = c';
  inv_listeners : ∀ sg c,
    (sg, c) ∈ abortListeners w →
    ∃ s, sessions w !! c = Some s ∧ sStopped s = false
         ∧ sAbortSignal s = Some sg
}.

(** What holds in addition between two events: the current promise is
    the one of the current session, and a live session with an abort signal
    is listening to it, the signal not having fired. *)
Record Inv (w : World) : Prop := mkInv {
  inv_base : Inv0 w;
  inv_current_promise : ∀ c s,
    currentClient (slot w) = Some c → sessions w !! c = Some s →
    currentPromise (slot w) = Some (sPromise s);
  inv_live_listening : ∀ c s sg,
    sessions w !! c = Some s → sStopped s = false →
    sAbortSignal s = Some sg →
    (sg, c) ∈ abortListeners w ∧ sg ∉ abortedSignals w
}.


(** ** Vocabulary of the statements *)

(** The lifecycle controller is untouched between two worlds: the module
    variables, the sessions, the promises and the abort signals are the
    same, and no disconnect or settlement was added to the trace. *)
Definition lifecycleUnchanged (w w' : World) : Prop :=
  slot w' = slot w ∧ sessions w' = sessions w ∧ promises w' = promises w
  ∧ abortedSignals w' = abortedSignals w
  ∧ abortListeners w' = abortListeners w
  ∧ (∀ c, disconnectCalls c w' = disconnectCalls c w)
  ∧ (∀ p, settleCalls p w' = settleCalls p w)
  ∧ (∀ c, listenerRemovals c w' = listenerRemovals c w).

(** The cell a promise settles to on [resolve()] or [reject(err)]. *)
Definition settledAs (outcome : option Thrown) : PromiseCell :=
  match outcome with None => Fulfilled | Some e => Rejected e end.

(** The effects of one teardown of session [c], in order: the abort
    listener is removed (if there is a signal), the client disconnected (a
    throw of [disconnect] is reported), the promise settled. *)
Definition teardownTrace (c : ClientId) (s : Session)
    (outcome : option Thrown) : list Effect :=
  (match sAbortSignal s with
   | Some sg => [ERemoveAbortListener sg c]
   | None => []
   end
   ++ [EDisconnect c]
   ++ match disconnectThrows (sClient s) with
      | Some e => [EError ("[dingtalk] failed to disconnect client: " +:+ e)]
      | None => []
      end
   ++ [match outcome with
       | None => EResolve (sPromise s)
       | Some err => EReject (sPromise s) err
       end])%list.

(** Effects by which a session becomes active. *)
Definition isActivation (e : Effect) : bool :=
  match e with
  | ERegisterCallback _ | EConnect _ | EAddAbortListener _ _ => true
  | _ => false
  end.

(** The cache operations an event performs. *)
Definition cacheOpsOf {DingtalkConfig : Type}
    (ev : Event DingtalkConfig) (w : World)
    : list CacheOp :=
  match ev with
  | EvDeliver c res now_gc now =>
      match sessions w !! c with
      | Some s =>
          match decode res with
          | inl _ => []
          | inr raw =>
              let dedupeId := dedupeKey (sAccountId s) raw in
              if isMessageProcessed dedupeId (dedup w)
              then [OpQuery dedupeId]
              else [OpQuery dedupeId; OpMark now_gc now dedupeId]
          end
      | None => []
      end
  | EvClearCache => [OpClear]
  | _ => []
  end.

(** No event of [evs], run from [w], expires, evicts or clears key [k]. *)
Fixpoint keptAlong {DingtalkConfig : Type}
    (factory : DingtalkConfig → Thrown + ClientBehaviour)
    (k : string) (w : World) (evs : list (Event DingtalkConfig)) : bool :=
  match evs with
  | [] => true
  | ev :: evs' =>
      noRemoval k (dedup w) (cacheOpsOf ev w)
      && keptAlong factory k (step factory ev w) evs'
  end.

(** What no operation of the monitor undoes: the trace only grows, a
    settled promise stays settled as it is, a stopped session stays as it
    is. *)
Definition extendsWorld (w w' : World) : Prop :=
  (∃ extra, trace w' = (trace w ++ extra)%list)
  ∧ (∀ p v, promises w !! p = Some v → v ≠ Pending → promises w' !! p = Some v)
  ∧ (∀ c s, sessions w !! c = Some s → sStopped s = true →
            sessions w' !! c = Some s).

(** Session [c], with closure [s], is live: its teardown has not run. *)
Definition liveSession (c : ClientId) (s : Session) (w : World) : Prop :=
  sessions w !! c = Some s ∧ sStopped s = false.

(** Session [c] has been torn down by [finalizeResolve], once. *)
Definition tornDown (c : ClientId) (s : Session) (w : World) : Prop :=
  sessions w !! c = Some (markStopped s)
  ∧ resolveCalls (sPromise s) w = 1%nat
  ∧ promises w !! sPromise s = Some Fulfilled.

(** ** Insertions as the monitor makes them

    [markMessageProcessed] is private to the module.  Its one call (line
    235) passes the key the callback has built from the account of the
    session and the decoded payload; the account, the payload and the clock
    values are arbitrary. *)
Record Insertion := mkInsertion {
  insCleanupClock : Z;
  insClock : Z;
  insAccountId : string;
  insMessage : RawValue
}.

Definition insertionKey (i : Insertion) : string :=
  dedupeKey (insAccountId i) (insMessage i).

Definition insertionOp (i : Insertion) : CacheOp :=
  OpMark (insCleanupClock i) (insClock i) (insertionKey i).

(** The cache after the insertions [ins], made in this order from the
    empty cache. *)
Definition insertAll (ins : list Insertion) : DedupCache :=
  cacheRun (insertionOp <$> ins) emptyCache.

(** Lines 104-105: the key is added to the set and its timestamp set in
    the map. *)
Definition addEntry (messageId : string) (now : Z) (c : DedupCache)
    : DedupCache :=
  mkCache (JsSet.add messageId (processedMessageIds c))
          (JsMap.set messageId now (processedMessageTimestamps c)).

(** Insertions whose keys are all non-empty strings (the keys built by the
    event callback always contain a colon). *)
Definition keysNonEmpty (ops : list CacheOp) : Prop :=
  ∀ now_gc now k, OpMark now_gc now k ∈ ops → k ≠ "".

(** A run of 10,001 insertions at one instant: the empty key first, then
    the keys "m1", "m2", ..., "m10000". *)
Definition keyOf (i : nat) : string := "m" +:+ pretty i.

Definition overflowOps : list CacheOp :=
  OpMark 0 0 "" ::
  ((λ i, OpMark 0 0 (keyOf i)) <$> seq 1 (Z.to_nat DEDUP_CACHE_MAX_SIZE)).

(** A client factory that always succeeds with a well-behaved client, and
    options over it; used for the concrete runs below. *)
Definition wellBehaved : ClientBehaviour := mkClient None None None.

Definition simpleFactory (_ : unit) : Thrown + ClientBehaviour :=
  inr wellBehaved.

Definition optsFor (account : option string) (sg : option SignalId)
    : MonitorDingtalkOpts unit :=
  mkOpts (Some (mkConfig (Some (mkChannels (Some tt))))) sg account.

Definition optsNoConfig : MonitorDingtalkOpts unit :=
  mkOpts (Some (mkConfig (Some (mkChannels None)))) None None.

Definition eventWithId (id : string) : StreamEvent :=
  mkEvent (ParsedObject (mkRaw None (Some "cid") (Some "u1")
                           (Some "hello") (Some "text")))
          (Some id).

(** The world after one successful start for account [account]. *)
Definition startedFor (account : string) (sg : option SignalId) : World :=
  run simpleFactory [EvStart (optsFor (Some account) sg)] initialWorld.

(** ** Vocabulary of the further properties *)

(** An insertion or a lookup (neither a cleanup pass nor a clear). *)
Definition isInsertOrLookup (op : CacheOp) : bool :=
  match op with
  | OpMark _ _ _ | OpQuery _ => true
  | _ => false
  end.

(** A cache at capacity: the keys "m1", ..., "m10000", inserted in this
    order at time 0. *)
Definition fullCache : DedupCache :=
  mkCache
    (keyOf 1 :: (keyOf <$> seq 2 (Z.to_nat (DEDUP_CACHE_MAX_SIZE - 1))))
    ((keyOf 1, 0)
     :: ((λ i, (keyOf i, 0)) <$> seq 2 (Z.to_nat (DEDUP_CACHE_MAX_SIZE - 1)))).

(** The event is decodable and its key is not in the cache: the callback
    passes it to the downstream handler. *)
Definition isNovel (accountId : string) (res : StreamEvent) (w : World)
    : bool :=
  match decode res with
  | inl _ => false
  | inr raw => negb (isMessageProcessed (dedupeKey accountId raw) (dedup w))
  end.

(** The last component of the fallback key (line 226). *)
Definition fallbackPart (m : DingtalkRawMessage) : string :=
  match textContent m with
  | Some content => jsSlice 50 content
  | None => jsString (msgtype m)
  end.

(** An event without delivery id in its headers, carrying object [m]. *)
Definition eventWithoutId (m : DingtalkRawMessage) : StreamEvent :=
  mkEvent (ParsedObject m) None.

(** An event with delivery id [id] in its headers, carrying object [m]. *)
Definition eventOf (id : string) (m : DingtalkRawMessage) : StreamEvent :=
  mkEvent (ParsedObject m) (Some id).

(** A text message of user "u1" in conversation "cid". *)
Definition textMessage (content : string) : DingtalkRawMessage :=
  mkRaw None (Some "cid") (Some "u1") (Some content) (Some "text").

(** A client whose [connect] throws, and a factory that builds it. *)
Definition failingConnect : ClientBehaviour :=
  mkClient None (Some "Error: connect failed") None.

Definition failingFactory (_ : unit) : Thrown + ClientBehaviour :=
  inr failingConnect.

(** A factory that throws. *)
Definition throwingFactory (_ : unit) : Thrown + ClientBehaviour :=
  inl "Error: clientId missing".

(** [rawMessage.streamMessageId] is truthy (line 224). *)
Definition hasStreamId (m : DingtalkRawMessage) : bool :=
  match streamMessageId m with
  | Some id => truthy id
  | None => false
  end.

(** The first failure of the two setup calls on a client, if any. *)
Definition setupFailure (cl : ClientBehaviour) : option Thrown :=
  match registerThrows cl with
  | Some e => Some e
  | None => connectThrows cl
  end.

(** With no current client there is no current account either. *)
Definition idleAccountOk (s : Slot) : Prop :=
  currentClient s = None → currentAccountId s = None.

(** The effect of registering the abort listener, if there is a signal. *)
Definition listenerTrace (sg : option SignalId) (c : ClientId) : list Effect :=
  match sg with
  | Some sg => [EAddAbortListener sg c]
  | None => []
  end.

(** The listeners after registering the one of client [c], if there is a
    signal. *)
Definition listenersWith (sg : option SignalId) (c : ClientId)
    (l : list (SignalId * ClientId)) : list (SignalId * ClientId) :=
  match sg with
  | Some sg => if bool_decide ((sg, c) ∈ l) then l else l ++ [(sg, c)]
  | None => l
  end.

(** Events of the lifecycle: starts, stops, aborts, and the late
    rejection of a handler's promise; not deliveries, not a cache reset. *)
Definition isLifecycleEvent {DingtalkConfig : Type}
    (ev : Event DingtalkConfig) : bool :=
  match ev with
  | EvStart _ | EvStop | EvAbort _ | EvHandlerRejected _ => true
  | EvDeliver _ _ _ _ | EvClearCache => false
  end.

(** The payload of the event parses to an object: not to a primitive, not
    to [null], and the parse does not throw. *)
Definition payloadIsObject (res : StreamEvent) : bool :=
  match resData res with
  | ParsedObject _ => true
  | _ => false
  end.

(** Events with delivery id [id] whose payload is the JSON text of a
    primitive, or no JSON text at all. *)
Definition primitiveEvent (id : string) : StreamEvent :=
  mkEvent ParsedPrimitive (Some id).

Definition unparsableEvent (id : string) : StreamEvent :=
  mkEvent (ParseThrows "SyntaxError") (Some id).

(** * Properties of the de-duplication cache *)

Section CacheFacts.
Implicit Types (c : DedupCache) (k : string) (m : list (string * Z))
  (s : list string).

Lemma keys_delete k m :
  JsMap.keys (JsMap.delete k m) = JsSet.delete k (JsMap.keys m).
Proof.
  unfold JsMap.keys, JsMap.delete, JsSet.delete.
  induction m as [|[k' v] m IH]; [done|].
  rewrite fmap_cons, !filter_cons; cbn [fst].
  destruct (decide (k' ≠ k)); rewrite ?fmap_cons; cbn [fst]; by rewrite IH.
Qed.

Lemma keys_set k v m :
  JsMap.keys (JsMap.set k v m) = JsSet.add k (JsMap.keys m).
Proof.
  unfold JsMap.set, JsSet.add, JsMap.has, JsSet.has, JsMap.keys.
  case_bool_decide as Hk.
  - clear Hk. induction m as [|[k' v'] m IH]; [done|].
    rewrite !fmap_cons; simpl. rewrite IH.
    by destruct (decide (k' = k)) as [->|].
  - by rewrite fmap_app.
Qed.

Lemma has_true k s : JsSet.has k s = true ↔ k ∈ s.
Proof. unfold JsSet.has. by rewrite bool_decide_eq_true. Qed.

Lemma elem_of_add k k' s : k ∈ JsSet.add k' s ↔ k = k' ∨ k ∈ s.
Proof.
  unfold JsSet.add, JsSet.has. case_bool_decide.
  - split; [auto|]. by intros [->|].
  - rewrite elem_of_app, list_elem_of_singleton. tauto.
Qed.

Lemma elem_of_delete k k' s : k ∈ JsSet.delete k' s ↔ k ≠ k' ∧ k ∈ s.
Proof. unfold JsSet.delete. by rewrite list_elem_of_filter. Qed.

Lemma NoDup_add k s : NoDup s → NoDup (JsSet.add k s).
Proof.
  intros Hs. unfold JsSet.add, JsSet.has. case_bool_decide; [done|].
  apply NoDup_app. split_and!; [done| |apply NoDup_singleton].
  intros x Hx ->%list_elem_of_singleton. done.
Qed.

Lemma size_delete_le k s : JsSet.size (JsSet.delete k s) ≤ JsSet.size s.
Proof.
  unfold JsSet.size, JsSet.delete.
  pose proof (length_filter (λ x, x ≠ k) s). lia.
Qed.

Lemma size_delete_head k s :
  JsSet.size (JsSet.delete k (k :: s)) ≤ JsSet.size (k :: s) - 1.
Proof.
  unfold JsSet.size, JsSet.delete. rewrite filter_cons.
  destruct (decide (k ≠ k)); [done|].
  pose proof (length_filter (λ x, x ≠ k) s). simpl length. lia.
Qed.

Lemma size_add_le k s : JsSet.size (JsSet.add k s) ≤ JsSet.size s + 1.
Proof.
  unfold JsSet.size, JsSet.add. destruct (JsSet.has k s); [lia|].
  rewrite length_app. simpl. lia.
Qed.

Lemma deleteEntry_ok k c : cacheOk c → cacheOk (deleteEntry k c).
Proof.
  intros [Hsync Hnd]. split; simpl.
  - by rewrite keys_delete, Hsync.
  - by apply NoDup_filter.
Qed.

(** A property kept by every deletion is kept by a cleanup pass. *)
Lemma cleanup_preserves (P : DedupCache → Prop) now c :
  (∀ k c', P c' → P (deleteEntry k c')) → P c → P (cleanupDedupCache now c).
Proof.
  intros Hdel. unfold cleanupDedupCache.
  generalize (processedMessageTimestamps c) as snapshot.
  intros snapshot. revert c.
  induction snapshot as [|[k t] snapshot IH]; intros c Hc; simpl; [done|].
  apply IH. destruct (now - t >? DEDUP_CACHE_TTL); auto.
Qed.

Lemma cleanup_ok now c : cacheOk c → cacheOk (cleanupDedupCache now c).
Proof. apply cleanup_preserves. intros; by apply deleteEntry_ok. Qed.

Lemma cleanup_size_le now c :
  cacheSize (cleanupDedupCache now c) ≤ cacheSize c.
Proof.
  apply (cleanup_preserves (λ c', cacheSize c' ≤ cacheSize c)); [|lia].
  intros k c' Hc'. unfold cacheSize in *. simpl.
  pose proof (size_delete_le k (processedMessageIds c')). lia.
Qed.

Lemma mark_ok now_gc now k c :
  cacheOk c → cacheOk (markMessageProcessed now_gc now k c).
Proof.
  intros Hc. unfold markMessageProcessed.
  set (c1 := if _ >=? _ then _ else c).
  assert (cacheOk c1) as [Hsync Hnd].
  { subst c1. destruct (_ >=? _); [|done].
    pose proof (cleanup_ok now_gc c Hc) as Hc'.
    destruct (_ >=? _); [|done].
    destruct (JsMap.first_key _) as [oldest|]; [|done].
    destruct (truthy oldest); [by apply deleteEntry_ok|done]. }
  split; simpl.
  - by rewrite keys_set, Hsync.
  - by apply NoDup_add.
Qed.

Lemma clear_ok c : cacheOk (clearDedupCache c).
Proof. split; simpl; [done|apply NoDup_nil_2]. Qed.

Lemma emptyCache_ok : cacheOk emptyCache.
Proof. split; simpl; [done|apply NoDup_nil_2]. Qed.

Lemma cacheStep_ok op c : cacheOk c → cacheOk (cacheStep op c).
Proof.
  destruct op; simpl; auto using mark_ok, cleanup_ok, clear_ok.
Qed.

Lemma cacheRun_ok ops c : cacheOk c → cacheOk (cacheRun ops c).
Proof.
  revert c. induction ops as [|op ops IH]; intros c Hc; simpl; [done|].
  apply IH. by apply cacheStep_ok.
Qed.

Lemma cacheRun_cons op ops c :
  cacheRun (op :: ops) c = cacheRun ops (cacheStep op c).
Proof. reflexivity. Qed.

Lemma cacheRun_app ops1 ops2 c :
  cacheRun (ops1 ++ ops2) c = cacheRun ops2 (cacheRun ops1 c).
Proof. unfold cacheRun. apply foldl_app. Qed.
End CacheFacts.

(** ** Set and map stay in step *)

(** C10: after every sequence of cache operations that starts from the empty
    cache, the set of processed ids and the timestamp map hold exactly the
    same keys (in the same insertion order, each once), so membership in one
    is membership in the other. *)
Theorem C10_set_and_map_same_keys (ops : list CacheOp) :
  let c := cacheRun ops emptyCache in
  processedMessageIds c = JsMap.keys (processedMessageTimestamps c)
  ∧ NoDup (JsMap.keys (processedMessageTimestamps c))
  ∧ ∀ k, JsSet.has k (processedMessageIds c)
         = JsMap.has k (processedMessageTimestamps c).
Proof.
  intros c. destruct (cacheRun_ok ops emptyCache emptyCache_ok) as [Hsync Hnd].
  fold c in Hsync, Hnd. split_and!; [done|by rewrite <-Hsync|].
  intros k. unfold JsSet.has, JsMap.has. by rewrite Hsync.
Qed.

(** ** Membership until removal *)

Section Membership.
Implicit Types (c : DedupCache) (k : string) (m : list (string * Z)).

Lemma get_of_elem k t m :
  NoDup (JsMap.keys m) → (k, t) ∈ m → JsMap.get k m = Some t.
Proof.
  unfold JsMap.keys.
  induction m as [|[k' v] m IH]; intros Hnd Hin; [by inversion Hin|].
  rewrite fmap_cons in Hnd. apply NoDup_cons in Hnd as [Hk' Hnd]. simpl.
  apply elem_of_cons in Hin as [Heq|Hin].
  - inversion Heq; subst. by rewrite decide_True.
  - destruct (decide (k' = k)) as [->|]; [|by apply IH].
    exfalso. apply Hk'. simpl. apply list_elem_of_fmap. by exists (k, t).
Qed.

Lemma mark_processed now_gc now k c :
  isMessageProcessed k (markMessageProcessed now_gc now k c) = true.
Proof.
  unfold isMessageProcessed, markMessageProcessed. simpl.
  apply has_true, elem_of_add. by left.
Qed.

Lemma deleteEntry_keeps k k' c :
  k ≠ k' → k ∈ processedMessageIds c →
  k ∈ processedMessageIds (deleteEntry k' c).
Proof. intros. simpl. by apply elem_of_delete. Qed.

Lemma cleanup_keeps now k c :
  cacheOk c → k ∈ processedMessageIds c → ttlExpired now k c = false →
  k ∈ processedMessageIds (cleanupDedupCache now c).
Proof.
  intros [Hsync Hnd] Hk Hexp. rewrite Hsync in Hnd.
  assert (∀ t, (k, t) ∈ processedMessageTimestamps c →
               (now - t >? DEDUP_CACHE_TTL) = false) as Hfresh.
  { intros t Ht. unfold ttlExpired in Hexp.
    by rewrite (get_of_elem k t _ Hnd Ht) in Hexp. }
  clear Hexp Hsync Hnd. unfold cleanupDedupCache.
  revert Hfresh. generalize (processedMessageTimestamps c) as snapshot.
  intros snapshot. revert c Hk.
  induction snapshot as [|[k' t] snapshot IH]; intros c Hk Hfresh; [done|].
  simpl. apply IH.
  - destruct (now - t >? DEDUP_CACHE_TTL) eqn:Ht; [|done].
    apply deleteEntry_keeps; [|done]. intros ->.
    rewrite Hfresh in Ht; [done|]. by left.
  - intros t' Ht'. apply Hfresh. by right.
Qed.

Lemma cacheStep_keeps k op c :
  cacheOk c → isMessageProcessed k c = true →
  removalEvent k c op = false →
  isMessageProcessed k (cacheStep op c) = true.
Proof.
  unfold isMessageProcessed. rewrite !has_true.
  intros Hok Hk Hev. destruct op as [now_gc now k'|now| |k']; simpl in *.
  - apply elem_of_add. right.
    unfold atCapacity, cacheSize in Hev.
    destruct (JsSet.size (processedMessageIds c) >=? _); [|done].
    simpl in Hev. apply orb_false_iff in Hev as [Hexp Hev].
    pose proof (cleanup_keeps now_gc k c Hok Hk Hexp) as Hk'.
    destruct (JsSet.size (processedMessageIds (cleanupDedupCache _ _)) >=? _);
      [|done].
    simpl in Hev. apply bool_decide_eq_false in Hev.
    destruct (JsMap.first_key _) as [oldest|]; [|done].
    destruct (truthy oldest); [|done].
    apply deleteEntry_keeps; [congruence|done].
  - by apply cleanup_keeps.
  - done.
  - done.
Qed.

Lemma cacheRun_keeps k ops c :
  cacheOk c → isMessageProcessed k c = true → noRemoval k c ops = true →
  isMessageProcessed k (cacheRun ops c) = true.
Proof.
  revert c. induction ops as [|op ops IH]; intros c Hok Hk Hno; [done|].
  simpl in Hno. apply andb_true_iff in Hno as [Hev Hno].
  apply negb_true_iff in Hev. simpl. apply IH; [|by apply cacheStep_keeps|];
    [by apply cacheStep_ok|done].
Qed.
End Membership.

(** C7: once a key has been marked, the lookup answers true, and it keeps
    answering true along every continuation in which none of the three
    removal events (TTL expiry seen by a cleanup pass, eviction by an insert
    at capacity, explicit clear) happens to that key. *)
Theorem C7_processed_until_removed
    (pre post : list CacheOp) (now_gc now : Z) (k : string) :
  let c0 := cacheRun (pre ++ [OpMark now_gc now k]) emptyCache in
  isMessageProcessed k c0 = true
  ∧ (noRemoval k c0 post = true →
     isMessageProcessed k (cacheRun post c0) = true).
Proof.
  intros c0. assert (isMessageProcessed k c0 = true) as Hk.
  { subst c0. rewrite cacheRun_app. simpl. apply mark_processed. }
  split; [done|]. intros Hno. apply cacheRun_keeps; [|done..].
  apply cacheRun_ok, emptyCache_ok.
Qed.

Lemma C7_processed_until_removed_witness :
  let post := [OpMark 0 1 "acct:m2"; OpCleanup 1000; OpQuery "acct:m1"] in
  let c0 := cacheRun ([] ++ [OpMark 0 0 "acct:m1"]) emptyCache in
  noRemoval "acct:m1" c0 post = true
  ∧ isMessageProcessed "acct:m1" (cacheRun post c0) = true.
Proof.
  split; [reflexivity|].
  apply (C7_processed_until_removed [] _ 0 0 "acct:m1"). reflexivity.
Defined.

(** ** Capacity *)

Section Capacity.
Implicit Types (c : DedupCache) (k : string).

Lemma cleanup_nothing_expired now c :
  (∀ k t, (k, t) ∈ processedMessageTimestamps c →
          (now - t >? DEDUP_CACHE_TTL) = false) →
  cleanupDedupCache now c = c.
Proof.
  unfold cleanupDedupCache.
  generalize (processedMessageTimestamps c) as snapshot.
  intros snapshot. generalize c as acc.
  induction snapshot as [|[k t] snapshot IH]; intros acc Hfresh; [done|].
  simpl. rewrite (Hfresh k t) by by left.
  apply IH. intros k' t' Hin. apply (Hfresh k' t'). by right.
Qed.

(** With the empty key as the oldest entry and nothing older than the
    TTL, an insert of a new key only appends: neither the cleanup pass nor
    the eviction branch removes anything. *)
Lemma mark_appends now_gc now k c ids ts :
  c = mkCache ("" :: ids) (("", 0) :: ts) →
  "" :: ids = JsMap.keys (("", 0) :: ts) →
  (∀ k' t, (k', t) ∈ ("", 0) :: ts → (now_gc - t >? DEDUP_CACHE_TTL) = false) →
  k ∉ "" :: ids →
  markMessageProcessed now_gc now k c
  = mkCache (("" :: ids) ++ [k]) ((("", 0) :: ts) ++ [(k, now)]).
Proof.
  intros -> Hsync Hfresh Hk. unfold markMessageProcessed.
  rewrite (cleanup_nothing_expired now_gc) by done.
  cbn [processedMessageIds processedMessageTimestamps].
  assert ((if JsSet.size ("" :: ids) >=? DEDUP_CACHE_MAX_SIZE
           then if JsSet.size ("" :: ids) >=? DEDUP_CACHE_MAX_SIZE
                then match JsMap.first_key (("", 0) :: ts) with
                     | Some oldestId =>
                         if truthy oldestId
                         then deleteEntry oldestId
                                (mkCache ("" :: ids) (("", 0) :: ts))
                         else mkCache ("" :: ids) (("", 0) :: ts)
                     | None => mkCache ("" :: ids) (("", 0) :: ts)
                     end
                else mkCache ("" :: ids) (("", 0) :: ts)
           else mkCache ("" :: ids) (("", 0) :: ts))
          = mkCache ("" :: ids) (("", 0) :: ts)) as ->.
  { by destruct (_ >=? _). }
  cbn [processedMessageIds processedMessageTimestamps].
  unfold JsSet.add, JsMap.set, JsSet.has, JsMap.has.
  rewrite <-Hsync. by rewrite !bool_decide_eq_false_2.
Qed.

Lemma keyOf_inj i j : keyOf i = keyOf j → i = j.
Proof.
  unfold keyOf. intros H. cbn [String.append] in H. injection H as H.
  by apply pretty_nat_inj.
Qed.

Lemma overflow_run n :
  cacheRun ((λ i, OpMark 0 0 (keyOf i)) <$> seq 1 n)
           (mkCache [""] [("", 0)])
  = mkCache ("" :: (keyOf <$> seq 1 n))
            (("", 0) :: ((λ i, (keyOf i, 0)) <$> seq 1 n)).
Proof.
  induction n as [|n IH]; [done|].
  rewrite seq_S, !fmap_app, cacheRun_app, IH. simpl.
  erewrite mark_appends; [done|done| | |].
  - unfold JsMap.keys. rewrite fmap_cons, <-list_fmap_compose. done.
  - intros k' t [Heq|Hin]%elem_of_cons.
    + by inversion Heq.
    + apply list_elem_of_fmap in Hin as (i & Heq & _). by inversion Heq.
  - intros [Heq|Hin]%elem_of_cons; [done|].
    apply list_elem_of_fmap in Hin as (i & Heq & Hi).
    apply keyOf_inj in Heq as <-. apply elem_of_seq in Hi. lia.
Qed.

Lemma mark_bounded now_gc now k c :
  cacheOk c → "" ∉ processedMessageIds c → k ≠ "" →
  cacheSize c ≤ DEDUP_CACHE_MAX_SIZE →
  cacheSize (markMessageProcessed now_gc now k c) ≤ DEDUP_CACHE_MAX_SIZE
  ∧ "" ∉ processedMessageIds (markMessageProcessed now_gc now k c).
Proof.
  intros Hok Hne Hk Hsz. unfold markMessageProcessed.
  set (c1 := if _ >=? _ then _ else c).
  assert (cacheSize c1 < DEDUP_CACHE_MAX_SIZE
          ∧ "" ∉ processedMessageIds c1) as [Hlt Hne1].
  { subst c1. fold (cacheSize c).
    destruct (Z.geb_spec (cacheSize c) DEDUP_CACHE_MAX_SIZE) as [Hge|Hlt];
      [|split; [lia|done]].
    pose proof (cleanup_size_le now_gc c) as Hle.
    pose proof (cleanup_ok now_gc c Hok) as [Hsync' _].
    assert ("" ∉ processedMessageIds (cleanupDedupCache now_gc c)) as Hne'.
    { apply (cleanup_preserves (λ c', "" ∉ processedMessageIds c'));
        [|done].
      intros k' c' Hc'. simpl. rewrite elem_of_delete. tauto. }
    set (c' := cleanupDedupCache now_gc c) in *.
    fold (cacheSize c').
    destruct (Z.geb_spec (cacheSize c') DEDUP_CACHE_MAX_SIZE) as [Hge'|Hlt'];
      [|split; [lia|done]].
    unfold JsMap.first_key. rewrite <-Hsync'.
    destruct (processedMessageIds c') as [|oldest ids] eqn:Hids.
    { unfold cacheSize in Hge'. rewrite Hids in Hge'.
      unfold DEDUP_CACHE_MAX_SIZE, JsSet.size in Hge'. simpl in Hge'. lia. }
    simpl. unfold truthy. rewrite bool_decide_eq_false_2.
    2:{ intros ->. apply Hne'. by left. }
    simpl. split.
    - unfold cacheSize in *. simpl. rewrite Hids.
      pose proof (size_delete_head oldest ids).
      rewrite Hids in Hle. lia.
    - rewrite Hids, elem_of_delete. tauto. }
  split.
  - unfold cacheSize in *. simpl.
    pose proof (size_add_le k (processedMessageIds c1)). lia.
  - simpl. rewrite elem_of_add. intros [Heq|Hin]; [by apply Hk|by apply Hne1].
Qed.
End Capacity.

Lemma cacheStep_bounded (op : CacheOp) (c : DedupCache) :
  cacheOk c → "" ∉ processedMessageIds c → keysNonEmpty [op] →
  cacheSize c ≤ DEDUP_CACHE_MAX_SIZE →
  cacheSize (cacheStep op c) ≤ DEDUP_CACHE_MAX_SIZE
  ∧ "" ∉ processedMessageIds (cacheStep op c).
Proof.
  intros Hok Hc Hne Hsz. destruct op as [now_gc now k|now| |k]; simpl.
  - apply mark_bounded; try done. eapply Hne. by left.
  - split; [pose proof (cleanup_size_le now c); lia|].
    apply (cleanup_preserves (λ c', "" ∉ processedMessageIds c')); [|done].
    intros k' c' Hc'. simpl. rewrite elem_of_delete. tauto.
  - split; [done|]. apply not_elem_of_nil.
  - done.
Qed.

(** X21: for keys that are never the empty string, the cache holds at most
    10,000 entries after any sequence of insertions, cleanup passes and
    clears. *)
Lemma cache_size_bounded_nonempty_keys (ops : list CacheOp) :
  keysNonEmpty ops →
  cacheSize (cacheRun ops emptyCache) ≤ DEDUP_CACHE_MAX_SIZE.
Proof.
  enough (∀ c, cacheOk c → "" ∉ processedMessageIds c →
               cacheSize c ≤ DEDUP_CACHE_MAX_SIZE → keysNonEmpty ops →
               cacheSize (cacheRun ops c) ≤ DEDUP_CACHE_MAX_SIZE) as H.
  { apply H; [apply emptyCache_ok|apply not_elem_of_nil|done]. }
  induction ops as [|op ops IH]; intros c Hok Hc Hsz Hne; [done|].
  destruct (cacheStep_bounded op c) as [Hsz' Hc']; try done.
  { intros a b k Hin%list_elem_of_singleton. subst op. eapply Hne. by left. }
  simpl. apply IH; [by apply cacheStep_ok|done..|].
  intros ????. eapply Hne. by right.
Qed.

(** The function taken alone, on a key the monitor never passes to it:
    the empty key inserted first is never evicted, because the eviction
    branch tests the oldest key for truthiness; 10,000 further distinct keys
    then leave 10,001 entries.  The keys of the callback are not empty, so
    no run of the monitor gets here. *)
Lemma empty_key_defeats_eviction :
  cacheSize (cacheRun overflowOps emptyCache) = 10001
  ∧ isMessageProcessed "" (cacheRun overflowOps emptyCache) = true.
Proof.
  unfold overflowOps. rewrite cacheRun_cons.
  replace (cacheStep (OpMark 0 0 "") emptyCache)
    with (mkCache [""] [("", 0)]) by reflexivity.
  rewrite overflow_run. split.
  - unfold cacheSize, JsSet.size. cbn [processedMessageIds].
    rewrite length_cons, length_fmap, length_seq.
    remember (Z.to_nat DEDUP_CACHE_MAX_SIZE) as n eqn:Hn.
    unfold DEDUP_CACHE_MAX_SIZE in Hn. lia.
  - unfold isMessageProcessed. apply has_true. by left.
Qed.

(** * Slices of strings *)

Lemma countUnits_highSurrogate b1 b2 b3 :
  countUnits 0 (highSurrogate b1 b2 b3) = 1%nat.
Proof. reflexivity. Qed.

(** A slice has the code units asked for, or all there are. *)
Lemma countUnits_sliceUnits n pending s :
  countUnits pending (sliceUnits n pending s)
  = (n `min` countUnits pending s)%nat.
Proof.
  revert n pending. induction s as [|a rest IH]; intros n pending.
  { simpl. lia. }
  destruct pending as [|k]; [|simpl; apply IH].
  destruct n as [|n']; [done|].
  cbn [sliceUnits countUnits]. unfold utf16Units.
  destruct (byteOf a <? 240) eqn:Hb.
  - cbn [countUnits]. unfold utf16Units. rewrite Hb, IH. lia.
  - destruct n' as [|n''].
    + transitivity 1%nat; [|lia].
      destruct rest as [|a2 [|a3 rest']]; apply countUnits_highSurrogate.
    + cbn [countUnits]. unfold utf16Units, utf8Bytes. rewrite Hb.
      assert ((byteOf a <? 192) = false) as -> by lia.
      assert ((byteOf a <? 224) = false) as -> by lia.
      simpl Nat.sub. rewrite IH. lia.
Qed.

Lemma jsLength_jsSlice n s :
  jsLength (jsSlice n s) = (n `min` jsLength s)%nat.
Proof. apply countUnits_sliceUnits. Qed.

(** A string that is not longer than the slice is its own slice. *)
Lemma sliceUnits_short n pending s :
  (countUnits pending s ≤ n)%nat → sliceUnits n pending s = s.
Proof.
  revert n pending. induction s as [|a rest IH]; intros n pending Hlen; [done|].
  destruct pending as [|k]; [|simpl in *; by rewrite IH].
  cbn [countUnits] in Hlen. unfold utf16Units in Hlen.
  destruct n as [|n'].
  { destruct (byteOf a <? 240); simpl in Hlen; lia. }
  cbn [sliceUnits]. destruct (byteOf a <? 240) eqn:Hb.
  - rewrite IH; [done|lia].
  - destruct n' as [|n'']; [lia|].
    unfold utf8Bytes in Hlen. 
    assert ((byteOf a <? 192) = false) as Hb1 by lia.
    assert ((byteOf a <? 224) = false) as Hb2 by lia.
    rewrite Hb1, Hb2, Hb in Hlen. simpl Nat.sub in Hlen.
    rewrite IH; [done|lia].
Qed.

Lemma jsSlice_short n s : (jsLength s ≤ n)%nat → jsSlice n s = s.
Proof. apply sliceUnits_short. Qed.

(** On ASCII text a code unit is a byte. *)
Lemma jsSlice_ascii n s :
  Forall (λ a, byteOf a < 0x80) (String.list_ascii_of_string s) →
  jsSlice n s = String.substring 0 n s.
Proof.
  unfold jsSlice. revert n. induction s as [|a rest IH]; intros n Hascii.
  { by destruct n. }
  simpl in Hascii. apply Forall_cons in Hascii as [Ha Hrest].
  destruct n as [|n']; [done|]. cbn [sliceUnits String.substring].
  assert ((byteOf a <? 240) = true) as -> by lia.
  unfold utf8Bytes. assert ((byteOf a <? 192) = true) as -> by lia.
  simpl Nat.sub. by rewrite IH.
Qed.


(** * Properties of the monitor *)

(* Log messages are built by appending to literals; they stay as written. *)
Arguments String.append : simpl never.

Section EffectCounts.
Lemma countIf_app f tr1 tr2 :
  countIf f (tr1 ++ tr2) = (countIf f tr1 + countIf f tr2)%nat.
Proof.
  induction tr1 as [|e tr1 IH]; simpl; [done|].
  destruct (f e); simpl; by rewrite IH.
Qed.

Lemma countIf_le f g tr :
  (∀ e, f e = true → g e = true) → (countIf f tr ≤ countIf g tr)%nat.
Proof.
  intros Hfg. induction tr as [|e tr IH]; simpl; [done|].
  destruct (f e) eqn:Hf; [rewrite (Hfg e Hf); lia|].
  destruct (g e); lia.
Qed.

Lemma isResolveOf_isSettleOf p e :
  isResolveOf p e = true → isSettleOf p e = true.
Proof. by destruct e. Qed.
End EffectCounts.

Section Callback.
Implicit Types (w : World) (res : StreamEvent).

Lemma callback_ack accountId res now_gc now w :
  (callback accountId res now_gc now w).2 = SUCCESS.
Proof.
  unfold callback. destruct (decode res); [done|].
  by destruct (isMessageProcessed _ _).
Qed.

Lemma lifecycleUnchanged_refl w : lifecycleUnchanged w w.
Proof. by repeat split. Qed.

Lemma lifecycleUnchanged_emit e w :
  (∀ c, isDisconnectOf c e = false) → (∀ p, isSettleOf p e = false) →
  (∀ c, isListenerRemovalOf c e = false) →
  lifecycleUnchanged w (emit e w).
Proof.
  intros Hd Hs Hr. repeat split; try done.
  - intros c. unfold disconnectCalls. simpl.
    rewrite countIf_app. simpl. rewrite Hd. lia.
  - intros p. unfold settleCalls. simpl.
    rewrite countIf_app. simpl. rewrite Hs. lia.
  - intros c. unfold listenerRemovals. simpl.
    rewrite countIf_app. simpl. rewrite Hr. lia.
Qed.

Lemma lifecycleUnchanged_trans w1 w2 w3 :
  lifecycleUnchanged w1 w2 → lifecycleUnchanged w2 w3 →
  lifecycleUnchanged w1 w3.
Proof.
  intros (?&?&?&?&?&Hd&Hs&Hr) (?&?&?&?&?&Hd'&Hs'&Hr').
  repeat split; congruence.
Qed.

Lemma lifecycleUnchanged_setDedup x w : lifecycleUnchanged w (setDedup x w).
Proof. by repeat split. Qed.

Lemma callback_lifecycle accountId res now_gc now w :
  lifecycleUnchanged w (callback accountId res now_gc now w).1.
Proof.
  unfold callback. destruct (decode res) as [e|raw]; simpl.
  { by apply lifecycleUnchanged_emit. }
  destruct (isMessageProcessed _ _); simpl.
  { by apply lifecycleUnchanged_emit. }
  eapply lifecycleUnchanged_trans; [apply lifecycleUnchanged_setDedup|].
  eapply lifecycleUnchanged_trans; by apply lifecycleUnchanged_emit.
Qed.
End Callback.

(** C9: whatever event is delivered (undecodable payload, duplicate, new
    message), the callback answers [SUCCESS]; neither the callback nor the
    later rejection of the downstream handler's promise touches the
    lifecycle controller: the session stays as it is, its promise is not
    settled and the client is not disconnected. *)
Theorem C9_callback_always_acknowledges
    (accountId : string) (res : StreamEvent) (now_gc now : Z)
    (e : Thrown) (w : World) :
  (callback accountId res now_gc now w).2 = SUCCESS
  ∧ lifecycleUnchanged w (callback accountId res now_gc now w).1
  ∧ lifecycleUnchanged w (handlerRejected e w).
Proof.
  split_and!.
  - apply callback_ack.
  - apply callback_lifecycle.
  - by apply lifecycleUnchanged_emit.
Qed.

Section Promises.
Lemma lookup_snoc {A} (l : list A) (x : A) :
  ((l ++ [x])%list) !! length l = Some x.
Proof. by apply list_lookup_middle. Qed.

Lemma insert_snoc {A} (l : list A) (x y : A) :
  <[length l := y]> (l ++ [x])%list = (l ++ [y])%list.
Proof. rewrite insert_app_r_alt by done. by rewrite Nat.sub_diag. Qed.

Lemma promiseStateFuel_unfold fuel ps p :
  promiseStateFuel fuel ps p
  = match ps !! p with
    | Some (Following q) =>
        match fuel with
        | O => None
        | S fuel' => promiseStateFuel fuel' ps q
        end
    | other => other
    end.
Proof. by destruct fuel. Qed.

Lemma promiseState_rejected w p e :
  promises w !! p = Some (Rejected e) →
  promiseState w p = Some (Rejected e).
Proof.
  intros H. unfold promiseState. by rewrite promiseStateFuel_unfold, H.
Qed.

(** The promise of an [async] call that returned [q] is in the state of
    [q] (for [q] a promise made by [new Promise]). *)
Lemma promiseState_following w p q v :
  promises w !! p = Some (Following q) →
  promises w !! q = Some v → (∀ r, v ≠ Following r) →
  promiseState w p = Some v.
Proof.
  intros Hp Hq Hv. unfold promiseState.
  rewrite promiseStateFuel_unfold, Hp.
  destruct (length (promises w)) eqn:Hlen.
  { apply length_zero_iff_nil in Hlen. by rewrite Hlen in Hp. }
  rewrite promiseStateFuel_unfold, Hq. destruct v; try done.
  by exfalso; eapply Hv.
Qed.
End Promises.

Section Start.
Context {DingtalkConfig : Type}.
Context (factory : DingtalkConfig → Thrown + ClientBehaviour).
Implicit Types (w : World) (opts : MonitorDingtalkOpts DingtalkConfig).

Lemma start_missing_config opts w :
  currentClient (slot w) = None → dingtalkCfgOf opts = None →
  monitorDingtalkProvider factory opts w
  = (setPromises
       (promises w ++ [Rejected (mkError "DingTalk configuration not found")])
       w,
     length (promises w)).
Proof.
  intros Hidle Hcfg. unfold monitorDingtalkProvider, monitorBody.
  by rewrite Hidle, Hcfg.
Qed.

(** A start while a session is active for another, non-empty account
    only makes the rejected promise of the call. *)
Lemma start_busy opts w c cur :
  currentClient (slot w) = Some c →
  currentAccountId (slot w) = Some cur →
  cur ≠ "" → cur ≠ default "default" (accountId opts) →
  monitorDingtalkProvider factory opts w
  = (setPromises
       (promises w
        ++ [Rejected (mkError ("DingTalk already running for account "
                               +:+ cur))]) w,
     length (promises w)).
Proof.
  intros Hc Hcur Hne Hdiff. unfold monitorDingtalkProvider, monitorBody.
  rewrite Hc, Hcur. unfold truthy.
  by rewrite !bool_decide_eq_false_2.
Qed.

Lemma start_reuse opts w c p :
  currentClient (slot w) = Some c →
  currentAccountId (slot w) = Some (default "default" (accountId opts)) →
  currentPromise (slot w) = Some p →
  monitorDingtalkProvider factory opts w
  = (setPromises (promises w ++ [Following p])
       (log ("[dingtalk] existing connection for account "
             +:+ default "default" (accountId opts)
             +:+ " is active, reusing monitor") w),
     length (promises w)).
Proof.
  intros Hc Hcur Hp. unfold monitorDingtalkProvider, monitorBody.
  rewrite Hc, Hcur. rewrite bool_decide_eq_true_2 by done.
  rewrite andb_false_r. simpl. by rewrite Hp.
Qed.
End Start.

(** C8: a start without DingTalk configuration, no session being active,
    fails with the configuration error (the promise of the call is rejected
    with it); no client is built and nothing is connected (the trace is the
    same), the module state is the same, and the status stays inactive. *)
Theorem C8_missing_configuration_fails_fast
    {DingtalkConfig : Type}
    (factory : DingtalkConfig → Thrown + ClientBehaviour)
    (opts : MonitorDingtalkOpts DingtalkConfig) (w : World) :
  isMonitorActive w = false →
  dingtalkCfgOf opts = None →
  let w' := (monitorDingtalkProvider factory opts w).1 in
  let completion := (monitorDingtalkProvider factory opts w).2 in
  promiseState w' completion
  = Some (Rejected (mkError "DingTalk configuration not found"))
  ∧ trace w' = trace w
  ∧ promises w'
    = (promises w
       ++ [Rejected (mkError "DingTalk configuration not found")])%list
  ∧ slot w' = slot w ∧ sessions w' = sessions w ∧ dedup w' = dedup w
  ∧ abortListeners w' = abortListeners w
  ∧ isMonitorActive w' = false.
Proof.
  intros Hidle Hcfg. assert (currentClient (slot w) = None) as Hnone.
  { unfold isMonitorActive in Hidle. apply bool_decide_eq_false in Hidle.
    destruct (currentClient (slot w)); [|done]. by exfalso; apply Hidle. }
  rewrite (start_missing_config factory opts w Hnone Hcfg). simpl.
  split_and!; try done.
  apply promiseState_rejected. simpl. apply lookup_snoc.
Qed.


(** ** The lifecycle invariant *)

Section Teardown.
Implicit Types (w : World) (c : ClientId) (s : Session).

Lemma teardown_disconnects c' c s o :
  countIf (isDisconnectOf c') (teardownTrace c s o)
  = if bool_decide (c = c') then 1%nat else 0%nat.
Proof.
  unfold teardownTrace.
  destruct (sAbortSignal s), (disconnectThrows (sClient s)), o; simpl;
    by case_bool_decide.
Qed.

Lemma teardown_settles p' c s o :
  countIf (isSettleOf p') (teardownTrace c s o)
  = if bool_decide (sPromise s = p') then 1%nat else 0%nat.
Proof.
  unfold teardownTrace.
  destruct (sAbortSignal s), (disconnectThrows (sClient s)), o; simpl;
    by case_bool_decide.
Qed.

Lemma teardown_resolves p' c s :
  countIf (isResolveOf p') (teardownTrace c s None)
  = if bool_decide (sPromise s = p') then 1%nat else 0%nat.
Proof.
  unfold teardownTrace.
  destruct (sAbortSignal s), (disconnectThrows (sClient s)); simpl;
    by case_bool_decide.
Qed.

Lemma teardown_removals c' c s o :
  countIf (isListenerRemovalOf c') (teardownTrace c s o)
  = if bool_decide (c = c') then removalsExpected s else 0%nat.
Proof.
  unfold teardownTrace, removalsExpected.
  destruct (sAbortSignal s), (disconnectThrows (sClient s)), o; simpl;
    by case_bool_decide.
Qed.

Lemma length_settle p v ps : length (settle p v ps) = length ps.
Proof.
  unfold settle. destruct (ps !! p) as [[]|]; try done.
  apply length_insert.
Qed.

Lemma settle_lookup_ne p q v ps : p ≠ q → settle p v ps !! q = ps !! q.
Proof.
  intros Hne. unfold settle. destruct (ps !! p) as [[]|]; try done.
  by apply list_lookup_insert_ne.
Qed.

Lemma settle_lookup_pending p v ps :
  ps !! p = Some Pending → settle p v ps !! p = Some v.
Proof.
  intros Hp. unfold settle. rewrite Hp.
  apply list_lookup_insert_eq. by eapply lookup_lt_Some.
Qed.

(** A settled promise stays as it is. *)
Lemma settle_lookup_settled p q v v' ps :
  ps !! q = Some v' → v' ≠ Pending → settle p v ps !! q = Some v'.
Proof.
  intros Hq Hv'. destruct (decide (p = q)) as [->|Hne].
  - unfold settle. rewrite Hq. by destruct v'.
  - by rewrite settle_lookup_ne.
Qed.

Lemma finalize_missing c o w : sessions w !! c = None → finalize c o w = w.
Proof. intros H. unfold finalize. by rewrite H. Qed.

Lemma finalize_stopped c o w s :
  sessions w !! c = Some s → sStopped s = true → finalize c o w = w.
Proof. intros H Hs. unfold finalize. by rewrite H, Hs. Qed.

Lemma world_ext w w' :
  slot w = slot w' → dedup w = dedup w' → sessions w = sessions w' →
  promises w = promises w' → abortedSignals w = abortedSignals w' →
  abortListeners w = abortListeners w' → trace w = trace w' → w = w'.
Proof. destruct w, w'; simpl; intros; by subst. Qed.

(** The guard of [finalize] passed: what one teardown does. *)
Lemma finalize_live c o w s :
  sessions w !! c = Some s → sStopped s = false →
  currentClient (slot w) = Some c →
  finalize c o w
  = mkWorld idleSlot (dedup w) (<[c := markStopped s]> (sessions w))
      (settle (sPromise s) (settledAs o) (promises w))
      (abortedSignals w)
      (match sAbortSignal s with
       | Some sg => filter (λ l, l ≠ (sg, c)) (abortListeners w)
       | None => abortListeners w
       end)
      (trace w ++ teardownTrace c s o).
Proof.
  intros Hs Hlive Hcur. unfold finalize. rewrite Hs, Hlive.
  unfold teardownTrace, cleanup, settlePromise, settledAs.
  destruct (sAbortSignal s), (disconnectThrows (sClient s)), o; simpl;
    rewrite Hcur, bool_decide_eq_true_2 by done;
    apply world_ext; simpl; rewrite <-?app_assoc; reflexivity.
Qed.
End Teardown.

Section Invariant.
Implicit Types (w : World) (c : ClientId) (s : Session).

Lemma Inv0_transfer w w' :
  slot w' = slot w → sessions w' = sessions w → promises w' = promises w →
  abortListeners w' = abortListeners w →
  (∀ c, disconnectCalls c w' = disconnectCalls c w) →
  (∀ p, settleCalls p w' = settleCalls p w) →
  (∀ c, listenerRemovals c w' = listenerRemovals c w) →
  Inv0 w → Inv0 w'.
Proof.
  intros Hsl Hse Hpr Hli Hd Hs Hr [H1 H2 H3 H4 H5 H6 H7 H8].
  split; rewrite ?Hsl, ?Hse, ?Hpr, ?Hli; intros; rewrite ?Hd, ?Hs, ?Hr;
    eauto.
Qed.

Lemma Inv_unchanged w w' : lifecycleUnchanged w w' → Inv w → Inv w'.
Proof.
  intros (Hsl&Hse&Hpr&Hab&Hli&Hd&Hs&Hr) [H0 H1 H2]. split.
  - by eapply Inv0_transfer.
  - rewrite Hsl, Hse. eauto.
  - rewrite Hse, Hli, Hab. eauto.
Qed.

Lemma Inv_initial : Inv initialWorld.
Proof.
  split; [split|..]; simpl; try done.
  intros sg c Hin. by apply elem_of_nil in Hin.
Qed.

(** One teardown of the live session re-establishes the invariant, with
    no session left live. *)
Lemma finalize_Inv c o w s :
  Inv0 w → sessions w !! c = Some s → sStopped s = false →
  Inv (finalize c o w).
Proof.
  intros [Hlc Hcur Hstop Hcnt Hfc Hfp Hinj Hlis] Hs Hlive.
  pose proof (Hlc c s Hs Hlive) as Hc.
  rewrite (finalize_live c o w s Hs Hlive Hc).
  pose proof (lookup_lt_Some _ _ _ Hs) as Hlt.
  assert (∀ c' s', <[c := markStopped s]> (sessions w) !! c' = Some s' →
            sStopped s' = true
            ∧ ((c' = c ∧ s' = markStopped s)
               ∨ (c' ≠ c ∧ sessions w !! c' = Some s'))) as Hlook.
  { intros c' s' H'. destruct (decide (c' = c)) as [->|Hne].
    - rewrite list_lookup_insert_eq in H' by done.
      injection H' as <-. split; [done|by left].
    - rewrite list_lookup_insert_ne in H' by done.
      split; [|by right]. destruct (sStopped s') eqn:Hst; [done|].
      pose proof (Hlc c' s' H' Hst). congruence. }
  split; [split|..]; simpl.
  - intros c' s' H' Hst. apply Hlook in H' as [? _]. congruence.
  - done.
  - done.
  - intros c' s' H'. apply Hlook in H' as [Hst [[-> ->]|[Hne H']]].
    + destruct (Hcnt c s Hs) as (Hd & Hse & Hr & Hp & _).
      rewrite Hlive in Hd, Hse, Hr.
      unfold disconnectCalls, settleCalls, listenerRemovals. simpl.
      rewrite !countIf_app, teardown_disconnects, teardown_settles,
        teardown_removals, !bool_decide_eq_true_2 by done.
      unfold disconnectCalls, settleCalls, listenerRemovals in Hd, Hse, Hr.
      rewrite Hd, Hse, Hr, length_settle. split_and!; try done.
    + destruct (Hcnt c' s' H') as (Hd & Hse & Hr & Hp & _).
      rewrite Hst in *.
      unfold disconnectCalls, settleCalls, listenerRemovals. simpl.
      rewrite !countIf_app, teardown_disconnects, teardown_settles,
        teardown_removals.
      unfold disconnectCalls, settleCalls, listenerRemovals in Hd, Hse, Hr.
      rewrite Hd, Hse, Hr, length_settle.
      rewrite !bool_decide_eq_false_2; [by split_and!|..]; try congruence.
      intros Heq. apply Hne. symmetry. by eapply Hinj.
  - intros c'. rewrite length_insert. intros Hge.
    destruct (Hfc c' Hge) as [Hd Hr].
    unfold disconnectCalls, listenerRemovals in *. simpl.
    rewrite !countIf_app, teardown_disconnects, teardown_removals, Hd, Hr.
    rewrite !bool_decide_eq_false_2; [done|lia..].
  - intros p'. rewrite length_settle. intros Hge.
    destruct (Hcnt c s Hs) as (_ & _ & _ & Hp & _).
    unfold settleCalls in *. simpl.
    rewrite countIf_app, teardown_settles, (Hfp p' Hge).
    rewrite bool_decide_eq_false_2; [done|lia].
  - intros c1 c2 s1 s2 H1 H2 Heq.
    apply Hlook in H1 as [_ [[-> ->]|[Hne1 H1]]];
      apply Hlook in H2 as [_ [[-> ->]|[Hne2 H2]]]; try done.
    + by eapply Hinj.
    + by eapply Hinj.
    + by eapply Hinj.
  - intros sg c' Hin.
    assert ((sg, c') ∈ abortListeners w ∧
            (sAbortSignal s = Some sg → c' ≠ c)) as [Hin' Hne].
    { destruct (sAbortSignal s) as [sg0|]; [|done].
      apply list_elem_of_filter in Hin as [Hne Hin]. split; [done|].
      intros [= ->] ->. done. }
    destruct (Hlis sg c' Hin') as (s' & Hs' & Hst & Hsg).
    pose proof (Hlc c' s' Hs' Hst). simplify_eq. by exfalso; apply Hne.
  - done.
  - intros c' s' sg H' Hst. apply Hlook in H' as [? _]. congruence.
Qed.
End Invariant.

Section InvariantSteps.
Implicit Types (w : World) (c : ClientId) (s : Session).

Lemma Inv0_emit e w :
  (∀ c, isDisconnectOf c e = false) → (∀ p, isSettleOf p e = false) →
  (∀ c, isListenerRemovalOf c e = false) →
  Inv0 w → Inv0 (emit e w).
Proof.
  intros Hd Hs Hr.
  destruct (lifecycleUnchanged_emit e w Hd Hs Hr) as (?&?&?&?&?&?&?&?).
  by apply Inv0_transfer.
Qed.

Lemma Inv_emit e w :
  (∀ c, isDisconnectOf c e = false) → (∀ p, isSettleOf p e = false) →
  (∀ c, isListenerRemovalOf c e = false) →
  Inv w → Inv (emit e w).
Proof. intros. apply (Inv_unchanged w); [by apply lifecycleUnchanged_emit|done]. Qed.

Lemma Inv0_listeners_subset L w :
  (∀ x, x ∈ L → x ∈ abortListeners w) → Inv0 w → Inv0 (setListeners L w).
Proof. intros HL [H1 H2 H3 H4 H5 H6 H7 H8]. split; simpl; eauto. Qed.

Lemma Inv0_setAborted L w : Inv0 w → Inv0 (setAborted L w).
Proof. intros [H1 H2 H3 H4 H5 H6 H7 H8]. split; simpl; eauto. Qed.

(** [Inv0] does not speak of [currentPromise]. *)
Lemma Inv0_set_currentPromise x w :
  Inv0 w →
  Inv0 (setSlot (mkSlot (currentClient (slot w)) (currentAccountId (slot w))
                   x (currentStop (slot w))) w).
Proof. intros [H1 H2 H3 H4 H5 H6 H7 H8]. split; simpl; eauto. Qed.

Lemma Inv0_push_promise cell w :
  Inv0 w → Inv0 (setPromises (promises w ++ [cell]) w).
Proof.
  intros [H1 H2 H3 H4 H5 H6 H7 H8]. split; simpl; eauto.
  - intros c s Hs. destruct (H4 c s Hs) as (?&?&?&Hlt&Hp).
    split_and!; try done.
    + rewrite length_app. simpl. lia.
    + intros Hst. rewrite lookup_app_l by done. auto.
  - intros p. rewrite length_app. simpl. intros Hge. apply H6. lia.
Qed.

Lemma Inv_push_promise cell w :
  Inv w → Inv (setPromises (promises w ++ [cell]) w).
Proof.
  intros [H0 H1 H2]. split; [by apply Inv0_push_promise|done..].
Qed.

(** With no current client there is no live session and no listener. *)
Lemma idle_all_stopped w c s :
  Inv0 w → currentClient (slot w) = None → sessions w !! c = Some s →
  sStopped s = true.
Proof.
  intros H0 Hidle Hs. destruct (sStopped s) eqn:Hst; [done|].
  pose proof (inv_live_current w H0 c s Hs Hst). congruence.
Qed.

Lemma idle_no_listener w x :
  Inv0 w → currentClient (slot w) = None → x ∉ abortListeners w.
Proof.
  intros H0 Hidle Hin. destruct x as [sg c].
  destruct (inv_listeners w H0 sg c Hin) as (s & Hs & Hst & _).
  pose proof (idle_all_stopped w c s H0 Hidle Hs). congruence.
Qed.

Lemma finalize_idle c o w s :
  Inv0 w → sessions w !! c = Some s → sStopped s = false →
  slot (finalize c o w) = idleSlot.
Proof.
  intros H0 Hs Hlive. pose proof (inv_live_current w H0 c s Hs Hlive) as Hc.
  by rewrite (finalize_live c o w s Hs Hlive Hc).
Qed.

Lemma stop_Inv w : Inv w → Inv (stopDingtalkMonitor w).
Proof.
  intros HI. unfold stopDingtalkMonitor.
  destruct (currentStop (slot w)) as [c|] eqn:Hstop.
  - pose proof (inv_stop w (inv_base w HI) c Hstop) as Hc.
    destruct (inv_current w (inv_base w HI) c Hc) as (_ & s & Hs & Hlive & _).
    unfold stopHook, finalizeResolve.
    eapply finalize_Inv; [|exact Hs|done].
    by apply Inv0_emit; [..|apply HI].
  - destruct (currentClient (slot w)) as [c|] eqn:Hc; [|done].
    destruct (inv_current w (inv_base w HI) c Hc) as (? & _). congruence.
Qed.

Lemma dispatch_skip sg snapshot w :
  (∀ c, (sg, c) ∈ snapshot → (sg, c) ∉ abortListeners w) →
  dispatchAbort sg snapshot w = w.
Proof.
  induction snapshot as [|[sg' c] snapshot IH]; intros Hskip; [done|].
  simpl. destruct (decide (sg' = sg)) as [->|Hne].
  - rewrite (bool_decide_eq_false_2 ((sg, c) ∈ abortListeners w)).
    2:{ apply Hskip. by left. }
    rewrite andb_false_r. apply IH. intros c' Hin. apply Hskip. by right.
  - rewrite (bool_decide_eq_false_2 (sg' = sg)) by done. simpl.
    apply IH. intros c' Hin. apply Hskip. by right.
Qed.

Lemma fireAbort_Inv sg w : Inv w → Inv (fireAbort sg w).
Proof.
  intros HI. unfold fireAbort. case_bool_decide as Hfired; [done|].
  destruct HI as [H0 Hcp Hll].
  destruct (abortListeners w) as [|[sg' c] rest] eqn:HL.
  { simpl. split; [by apply Inv0_setAborted|done|]. simpl.
    intros c s sg0 Hs Hst Hsg. destruct (Hll c s sg0 Hs Hst Hsg) as [Hin _].
    by apply elem_of_nil in Hin. }
  destruct (inv_listeners w H0 sg' c) as (s & Hs & Hlive & Hsg).
  { rewrite HL. by left. }
  assert (∀ sg0 c0, (sg0, c0) ∈ abortListeners w → sg0 = sg' ∧ c0 = c) as Hall.
  { intros sg0 c0 Hin.
    destruct (inv_listeners w H0 sg0 c0 Hin) as (s0 & Hs0 & Hlive0 & Hsg0).
    pose proof (inv_live_current w H0 c s Hs Hlive).
    pose proof (inv_live_current w H0 c0 s0 Hs0 Hlive0).
    simplify_eq. split; congruence. }
  destruct (decide (sg' = sg)) as [->|Hne].
  - simpl. rewrite HL, bool_decide_eq_true_2 by done.
    rewrite bool_decide_eq_true_2 by by left. simpl.
    set (w1 := handleAbort c _).
    assert (Inv w1 ∧ slot w1 = idleSlot) as [HI1 Hidle1].
    { subst w1. unfold handleAbort, finalizeResolve.
      match goal with |- Inv (finalize _ _ ?w0) ∧ _ =>
        assert (Inv0 w0) as H0' end.
      { apply Inv0_emit; try done. apply Inv0_listeners_subset.
        - simpl. intros x Hx%list_elem_of_filter. rewrite HL. tauto.
        - by apply Inv0_setAborted. }
      split; [by eapply finalize_Inv|by eapply finalize_idle]. }
    rewrite dispatch_skip; [done|].
    intros c0 _. apply idle_no_listener; [apply HI1|by rewrite Hidle1].
  - rewrite <-HL. rewrite dispatch_skip.
    + split; [by apply Inv0_setAborted|done|]. simpl.
      intros c0 s0 sg0 Hs0 Hst0 Hsg0.
      destruct (Hll c0 s0 sg0 Hs0 Hst0 Hsg0) as [Hin Hnf].
      rewrite <-HL in Hin. split; [done|].
      destruct (Hall sg0 c0 Hin) as [-> ->].
      rewrite not_elem_of_app, list_elem_of_singleton. done.
    + simpl. intros c0 Hin _. destruct (Hall sg c0 Hin) as [? _]. congruence.
Qed.
End InvariantSteps.

Section StartInvariant.
Context {DingtalkConfig : Type}.
Context (factory : DingtalkConfig → Thrown + ClientBehaviour).
Implicit Types (w : World) (opts : MonitorDingtalkOpts DingtalkConfig).

(** The path of a start that builds a client. *)
Lemma monitorBody_new opts w dingtalkCfg cl :
  currentClient (slot w) = None →
  dingtalkCfgOf opts = Some dingtalkCfg →
  factory dingtalkCfg = inr cl →
  monitorBody factory opts w
  = (storePromise (length (promises w))
       (connectStream (length (sessions w)) cl (abortSignal opts)
          (sessionOpened cl (default "default" (accountId opts))
             (abortSignal opts) w)),
     inr (length (promises w))).
Proof.
  intros Hidle Hcfg Hcl. unfold monitorBody. by rewrite Hidle, Hcfg, Hcl.
Qed.

Lemma sessionOpened_eq cl account sg w :
  sessionOpened cl account sg w
  = mkWorld
      (mkSlot (Some (length (sessions w))) (Some account)
              (currentPromise (slot w)) (Some (length (sessions w))))
      (dedup w)
      (sessions w ++ [mkSession cl account sg (length (promises w)) false])
      (promises w ++ [Pending])
      (abortedSignals w)
      (abortListeners w)
      (trace w ++ [ECreateClient (Some (length (sessions w)));
                   ELog ("[dingtalk] starting Stream connection for account "
                         +:+ account +:+ "...")]).
Proof.
  unfold sessionOpened. apply world_ext; simpl; rewrite <-?app_assoc;
    reflexivity.
Qed.

Lemma sessionOpened_lookup cl account sg w c s :
  sessions (sessionOpened cl account sg w) !! c = Some s →
  (sessions w !! c = Some s ∧ (c < length (sessions w))%nat)
  ∨ (c = length (sessions w)
     ∧ s = mkSession cl account sg (length (promises w)) false).
Proof.
  rewrite sessionOpened_eq. simpl. rewrite lookup_snoc_Some.
  intros [[??]|[??]]; [by left|by right].
Qed.

Lemma sessionOpened_Inv0 cl account sg w :
  Inv w → currentClient (slot w) = None →
  Inv0 (sessionOpened cl account sg w).
Proof.
  intros [H0 _ _] Hidle.
  pose proof (λ c s, idle_all_stopped w c s H0 Hidle) as Hstopped.
  pose proof (sessionOpened_eq cl account sg w) as Hopen.
  assert (∀ c, disconnectCalls c (sessionOpened cl account sg w)
               = disconnectCalls c w) as Hd.
  { intros c. unfold disconnectCalls. rewrite Hopen. simpl.
    rewrite countIf_app. simpl. lia. }
  assert (∀ p, settleCalls p (sessionOpened cl account sg w)
               = settleCalls p w) as Hs.
  { intros p. unfold settleCalls. rewrite Hopen. simpl.
    rewrite countIf_app. simpl. lia. }
  assert (∀ c, listenerRemovals c (sessionOpened cl account sg w)
               = listenerRemovals c w) as Hr.
  { intros c. unfold listenerRemovals. rewrite Hopen. simpl.
    rewrite countIf_app. simpl. lia. }
  split.
  - intros c s [[Hc _]|[-> ->]]%sessionOpened_lookup Hlive; [|done].
    pose proof (Hstopped c s Hc). congruence.
  - simpl. intros c [= <-]. split; [done|].
    eexists. split; [apply lookup_snoc|done].
  - simpl. by intros c [= <-].
  - intros c s [[Hc Hlt]|[-> ->]]%sessionOpened_lookup.
    + destruct (inv_counts w H0 c s Hc) as (?&?&?&?&?).
      rewrite Hd, Hs, Hr, (Hstopped c s Hc) in *. simpl.
      rewrite length_app. simpl. split_and!; try done. lia.
    + rewrite Hd, Hs, Hr. simpl.
      destruct (inv_fresh_client w H0 (length (sessions w))) as [-> ->];
        [done|].
      rewrite (inv_fresh_promise w H0) by done.
      rewrite length_app. simpl. split_and!; try done; [lia|].
      intros _. apply lookup_snoc.
  - simpl. rewrite length_app. simpl. intros c Hge. rewrite Hd, Hr.
    apply (inv_fresh_client w H0). lia.
  - simpl. rewrite length_app. simpl. intros p Hge. rewrite Hs.
    apply (inv_fresh_promise w H0). lia.
  - intros c c' s s' [[Hc Hlt]|[-> ->]]%sessionOpened_lookup
      [[Hc' Hlt']|[-> ->]]%sessionOpened_lookup Heq; try done.
    + by eapply (inv_promise_inj w H0).
    + destruct (inv_counts w H0 c s Hc) as (_&_&_&?&_). simpl in Heq. lia.
    + destruct (inv_counts w H0 c' s' Hc') as (_&_&_&?&_). simpl in Heq. lia.
  - simpl. intros sg' c Hin. by apply idle_no_listener in Hin.
Qed.

Lemma Inv_storePromise_idle p w :
  Inv w → currentClient (slot w) = None → Inv (storePromise p w).
Proof.
  intros [H0 H1 H2] Hidle. split.
  - by apply Inv0_set_currentPromise.
  - simpl. intros c s Hc. congruence.
  - done.
Qed.

Lemma Inv0_addListener sg c s w :
  Inv0 w → sessions w !! c = Some s → sStopped s = false →
  sAbortSignal s = Some sg → Inv0 (addEventListener sg c w).
Proof.
  intros H0 Hs Hlive Hsg. unfold addEventListener.
  apply Inv0_emit; try done.
  destruct H0 as [H1 H2 H3 H4 H5 H6 H7 H8]. split; simpl; eauto.
  intros sg' c' Hin. case_bool_decide; [by eauto|].
  apply elem_of_app in Hin as [Hin|Hin%list_elem_of_singleton]; [by eauto|].
  simplify_eq. eauto.
Qed.

(** After a teardown inside the executor, storing the promise completes
    the start. *)
Lemma Inv_start_torn c o p w s :
  Inv0 w → sessions w !! c = Some s → sStopped s = false →
  Inv (storePromise p (finalize c o w)).
Proof.
  intros H0 Hs Hlive. apply Inv_storePromise_idle.
  - by eapply finalize_Inv.
  - by erewrite finalize_idle.
Qed.

Lemma connectStream_Inv cl account sg w :
  Inv w → currentClient (slot w) = None →
  Inv (storePromise (length (promises w))
         (connectStream (length (sessions w)) cl sg
            (sessionOpened cl account sg w))).
Proof.
  intros HI Hidle.
  pose proof (sessionOpened_Inv0 cl account sg w HI Hidle) as H6.
  set (c := length (sessions w)). set (p := length (promises w)).
  set (new := mkSession cl account sg p false).
  assert (sessions (sessionOpened cl account sg w) !! c = Some new) as Hs6.
  { simpl. apply lookup_snoc. }
  unfold connectStream.
  destruct (alreadyAborted sg (sessionOpened cl account sg w)) eqn:Hab.
  { unfold finalizeResolve. by apply (Inv_start_torn _ _ _ _ new). }
  set (w1 := match sg with
             | Some sg0 => addEventListener sg0 c _
             | None => sessionOpened cl account sg w
             end).
  assert (Inv0 w1) as H1.
  { subst w1. destruct sg as [sg0|]; [|done].
    by eapply (Inv0_addListener sg0 c new). }
  assert (sessions w1 = sessions (sessionOpened cl account sg w)) as Hse1.
  { subst w1. by destruct sg. }
  assert (slot w1 = slot (sessionOpened cl account sg w)) as Hsl1.
  { subst w1. by destruct sg. }
  assert (abortedSignals w1 = abortedSignals w) as Hab1.
  { subst w1. by destruct sg. }
  assert (∀ sg0, sg = Some sg0 → (sg0, c) ∈ abortListeners w1) as Hli1.
  { intros sg0 ->. subst w1. simpl. case_bool_decide; [done|].
    apply elem_of_app. right. by left. }
  clearbody w1.
  destruct (registerThrows cl) as [e|].
  { unfold finalizeReject. apply (Inv_start_torn _ _ _ _ new); [| |done].
    - unfold error. do 2 (apply Inv0_emit; try done).
    - simpl. rewrite Hse1. exact Hs6. }
  destruct (connectThrows cl) as [e|].
  { unfold finalizeReject. apply (Inv_start_torn _ _ _ _ new); [| |done].
    - unfold error. do 3 (apply Inv0_emit; try done).
    - simpl. rewrite Hse1. exact Hs6. }
  set (w7 := log _ _).
  assert (Inv0 w7) as H7.
  { subst w7. unfold log. do 3 (apply Inv0_emit; try done). }
  assert (sessions w7 = sessions (sessionOpened cl account sg w)) as Hse7.
  { subst w7. simpl. by rewrite Hse1. }
  assert (slot w7 = slot (sessionOpened cl account sg w)) as Hsl7.
  { subst w7. simpl. by rewrite Hsl1. }
  assert (abortedSignals w7 = abortedSignals w) as Hab7.
  { subst w7. simpl. by rewrite Hab1. }
  assert (abortListeners w7 = abortListeners w1) as Hli7 by done.
  clearbody w7. split.
  - by apply Inv0_set_currentPromise.
  - simpl. rewrite Hsl7, Hse7. simpl. intros c' s' [= <-].
    fold c. change (length (sessions w)) with c. intros Hs'.
    simpl in Hs6. rewrite Hs6 in Hs'. by injection Hs' as <-.
  - simpl. rewrite Hse7, Hli7, Hab7. intros c' s' sg0 Hs' Hlive Hsg.
    apply sessionOpened_lookup in Hs' as [[Hs' _]|[-> ->]].
    { pose proof (idle_all_stopped w c' s' (inv_base w HI) Hidle Hs').
      congruence. }
    simpl in Hsg. split; [by apply Hli1|].
    rewrite Hsg in Hab. simpl in Hab. by apply bool_decide_eq_false in Hab.
Qed.

Lemma monitorBody_Inv opts w : Inv w → Inv (monitorBody factory opts w).1.
Proof.
  intros HI. unfold monitorBody.
  destruct (currentClient (slot w)) as [c|] eqn:Hc.
  - match goal with |- context [match ?b with Some _ => _ | None => _ end] =>
      destruct b end; [done|].
    simpl. destruct (currentPromise (slot w)); by apply Inv_emit.
  - destruct (dingtalkCfgOf opts) as [cfg|]; [|done].
    destruct (factory cfg) as [e|cl]; simpl.
    + unfold error. by do 2 (apply Inv_emit; try done).
    + by apply connectStream_Inv.
Qed.

Lemma start_Inv opts w :
  Inv w → Inv (monitorDingtalkProvider factory opts w).1.
Proof.
  intros HI. unfold monitorDingtalkProvider.
  pose proof (monitorBody_Inv opts w HI) as HI'.
  destruct (monitorBody factory opts w) as [w' outcome]. simpl in *.
  by apply Inv_push_promise.
Qed.

Lemma step_Inv ev w : Inv w → Inv (step factory ev w).
Proof.
  intros HI. destruct ev as [opts| |sg|c res now_gc now|e|]; simpl.
  - by apply start_Inv.
  - by apply stop_Inv.
  - by apply fireAbort_Inv.
  - destruct (sessions w !! c) as [s|]; [|done].
    eapply Inv_unchanged; [apply callback_lifecycle|done].
  - by apply Inv_emit.
  - eapply Inv_unchanged; [apply lifecycleUnchanged_setDedup|done].
Qed.

Lemma run_Inv evs w : Inv w → Inv (run factory evs w).
Proof.
  revert w. induction evs as [|ev evs IH]; intros w HI; [done|].
  simpl. apply IH. by apply step_Inv.
Qed.

Lemma reachable_Inv w : reachable factory w → Inv w.
Proof. intros [evs ->]. apply run_Inv, Inv_initial. Qed.

Lemma run_app evs1 evs2 w :
  run factory (evs1 ++ evs2) w = run factory evs2 (run factory evs1 w).
Proof. unfold run. apply foldl_app. Qed.

Lemma reachable_run evs w :
  reachable factory w → reachable factory (run factory evs w).
Proof. intros [evs0 ->]. exists (evs0 ++ evs)%list. by rewrite run_app. Qed.
End StartInvariant.


(** ** Teardown happens once *)

Section Frame.
Implicit Types (w : World) (c : ClientId) (s : Session).

Lemma extendsWorld_refl w : extendsWorld w w.
Proof. split_and!; [exists []; by rewrite app_nil_r|done..]. Qed.

Lemma extendsWorld_trans w1 w2 w3 :
  extendsWorld w1 w2 → extendsWorld w2 w3 → extendsWorld w1 w3.
Proof.
  intros ([x1 H1] & Hp1 & Hs1) ([x2 H2] & Hp2 & Hs2). split_and!.
  - exists (x1 ++ x2)%list. by rewrite H2, H1, app_assoc.
  - eauto.
  - eauto.
Qed.

Lemma extendsWorld_emit e w : extendsWorld w (emit e w).
Proof. split_and!; [by exists [e]|done..]. Qed.

Lemma extendsWorld_same w w' :
  trace w' = trace w → promises w' = promises w → sessions w' = sessions w →
  extendsWorld w w'.
Proof.
  intros Ht Hp Hs. split_and!.
  - exists []. by rewrite Ht, app_nil_r.
  - by rewrite Hp.
  - by rewrite Hs.
Qed.

Lemma extendsWorld_push_promise cell w :
  extendsWorld w (setPromises (promises w ++ [cell]) w).
Proof.
  split_and!; simpl; [exists []; by rewrite app_nil_r| |done].
  intros p v Hp _. by apply lookup_app_l_Some.
Qed.

Lemma extendsWorld_settle p v w :
  extendsWorld w (setPromises (settle p v (promises w)) w).
Proof.
  split_and!; simpl; [exists []; by rewrite app_nil_r| |done].
  intros q v' Hq Hv'. by apply settle_lookup_settled.
Qed.

Lemma trace_cleanup c cl w :
  ∃ extra, trace (cleanup c cl w) = (trace w ++ extra)%list.
Proof.
  unfold cleanup.
  destruct (disconnectThrows cl), (bool_decide _); simpl;
    rewrite <-?app_assoc; eauto.
Qed.

Lemma extendsWorld_cleanup c cl w : extendsWorld w (cleanup c cl w).
Proof.
  split_and!; [apply trace_cleanup|..]; unfold cleanup;
    destruct (disconnectThrows cl), (bool_decide _); simpl; done.
Qed.

Lemma extendsWorld_finalize c o w : extendsWorld w (finalize c o w).
Proof.
  unfold finalize. destruct (sessions w !! c) as [s|] eqn:Hs;
    [|apply extendsWorld_refl].
  destruct (sStopped s) eqn:Hlive; [apply extendsWorld_refl|].
  set (w1 := setSessions _ w).
  assert (extendsWorld w w1) as H1.
  { split_and!; simpl; [exists []; by rewrite app_nil_r|done|].
    intros c' s' Hs' Hst. rewrite list_lookup_insert_ne; [done|].
    intros <-. congruence. }
  set (w2 := match sAbortSignal s with
             | Some sg => removeEventListener sg c w1
             | None => w1
             end).
  assert (extendsWorld w1 w2) as H2.
  { subst w2. destruct (sAbortSignal s); [|apply extendsWorld_refl].
    unfold removeEventListener.
    eapply extendsWorld_trans; [|apply extendsWorld_emit].
    by apply extendsWorld_same. }
  pose proof (extendsWorld_cleanup c (sClient s) w2) as H3.
  eapply extendsWorld_trans; [exact H1|].
  eapply extendsWorld_trans; [exact H2|].
  eapply extendsWorld_trans; [exact H3|].
  unfold settlePromise, resolvePromise, rejectPromise.
  destruct o; (eapply extendsWorld_trans;
                 [apply extendsWorld_settle|apply extendsWorld_emit]).
Qed.

Lemma extendsWorld_stop w : extendsWorld w (stopDingtalkMonitor w).
Proof.
  unfold stopDingtalkMonitor. destruct (currentStop (slot w)) as [c|].
  - unfold stopHook, finalizeResolve, log.
    eapply extendsWorld_trans;
      [apply extendsWorld_emit|apply extendsWorld_finalize].
  - destruct (currentClient (slot w)) as [c|]; [|apply extendsWorld_refl].
    destruct (sessions w !! c) as [s|]; [destruct (disconnectThrows _)|];
      split_and!; simpl; rewrite <-?app_assoc; eauto.
Qed.

Lemma extendsWorld_dispatch sg snapshot w :
  extendsWorld w (dispatchAbort sg snapshot w).
Proof.
  revert w. induction snapshot as [|[sg' c] snapshot IH]; intros w;
    [apply extendsWorld_refl|].
  simpl. destruct (_ && _); [|apply IH].
  eapply extendsWorld_trans; [|apply IH].
  unfold handleAbort, finalizeResolve, log.
  eapply extendsWorld_trans; [|apply extendsWorld_finalize].
  eapply extendsWorld_trans; [|apply extendsWorld_emit].
  by apply extendsWorld_same.
Qed.

Lemma extendsWorld_fireAbort sg w : extendsWorld w (fireAbort sg w).
Proof.
  unfold fireAbort. destruct (bool_decide _); [apply extendsWorld_refl|].
  eapply extendsWorld_trans; [|apply extendsWorld_dispatch].
  by apply extendsWorld_same.
Qed.

Lemma extendsWorld_callback accountId res now_gc now w :
  extendsWorld w (callback accountId res now_gc now w).1.
Proof.
  unfold callback. destruct (decode res); simpl; [apply extendsWorld_emit|].
  destruct (isMessageProcessed _ _); simpl; [apply extendsWorld_emit|].
  unfold log.
  eapply extendsWorld_trans; [|apply extendsWorld_emit].
  eapply extendsWorld_trans; [|apply extendsWorld_emit].
  by apply extendsWorld_same.
Qed.
End Frame.

Section FrameStart.
Context {DingtalkConfig : Type}.
Context (factory : DingtalkConfig → Thrown + ClientBehaviour).
Implicit Types (w : World) (opts : MonitorDingtalkOpts DingtalkConfig).

Lemma extendsWorld_sessionOpened cl account sg w :
  extendsWorld w (sessionOpened cl account sg w).
Proof.
  rewrite sessionOpened_eq. split_and!; simpl; [by eauto|..].
  - intros p v Hp _. by apply lookup_app_l_Some.
  - intros c s Hs _. by apply lookup_app_l_Some.
Qed.

Lemma extendsWorld_addListener sg c w :
  extendsWorld w (addEventListener sg c w).
Proof.
  unfold addEventListener.
  eapply extendsWorld_trans; [|apply extendsWorld_emit].
  by apply extendsWorld_same.
Qed.

Lemma extendsWorld_connectStream c cl sg w :
  extendsWorld w (connectStream c cl sg w).
Proof.
  unfold connectStream, finalizeResolve, finalizeReject, error, log.
  destruct (alreadyAborted sg w); [apply extendsWorld_finalize|].
  set (w1 := match sg with Some sg0 => _ | None => w end).
  assert (extendsWorld w w1) as H1.
  { subst w1. destruct sg;
      [apply extendsWorld_addListener|apply extendsWorld_refl]. }
  eapply extendsWorld_trans; [exact H1|].
  eapply extendsWorld_trans; [apply extendsWorld_emit|].
  destruct (registerThrows cl).
  { eapply extendsWorld_trans;
      [apply extendsWorld_emit|apply extendsWorld_finalize]. }
  eapply extendsWorld_trans; [apply extendsWorld_emit|].
  destruct (connectThrows cl); [|apply extendsWorld_emit].
  eapply extendsWorld_trans;
    [apply extendsWorld_emit|apply extendsWorld_finalize].
Qed.

Lemma extendsWorld_monitorBody opts w :
  extendsWorld w (monitorBody factory opts w).1.
Proof.
  unfold monitorBody. destruct (currentClient (slot w)).
  - match goal with |- context [match ?b with Some _ => _ | None => _ end] =>
      destruct b end; [apply extendsWorld_refl|].
    simpl. destruct (currentPromise (slot w)); apply extendsWorld_emit.
  - destruct (dingtalkCfgOf opts) as [cfg|]; [|apply extendsWorld_refl].
    destruct (factory cfg) as [e|cl]; simpl.
    + unfold error. eapply extendsWorld_trans; apply extendsWorld_emit.
    + eapply extendsWorld_trans; [apply extendsWorld_sessionOpened|].
      eapply extendsWorld_trans; [apply extendsWorld_connectStream|].
      by apply extendsWorld_same.
Qed.

Lemma extendsWorld_start opts w :
  extendsWorld w (monitorDingtalkProvider factory opts w).1.
Proof.
  unfold monitorDingtalkProvider.
  pose proof (extendsWorld_monitorBody opts w) as H.
  destruct (monitorBody factory opts w) as [w' outcome]. simpl in *.
  eapply extendsWorld_trans; [exact H|apply extendsWorld_push_promise].
Qed.

Lemma extendsWorld_step ev w : extendsWorld w (step factory ev w).
Proof.
  destruct ev as [opts| |sg|c res now_gc now|e|]; simpl.
  - apply extendsWorld_start.
  - apply extendsWorld_stop.
  - apply extendsWorld_fireAbort.
  - destruct (sessions w !! c); [apply extendsWorld_callback|].
    apply extendsWorld_refl.
  - apply extendsWorld_emit.
  - by apply extendsWorld_same.
Qed.

(** The counts of a trace that grew did not shrink. *)
Lemma countIf_extends f w w' :
  extendsWorld w w' → (countIf f (trace w) ≤ countIf f (trace w'))%nat.
Proof. intros ([extra ->] & _). rewrite countIf_app. lia. Qed.

(** A start while a session is current builds nothing. *)
Lemma start_active_sessions opts w c :
  currentClient (slot w) = Some c →
  sessions (monitorDingtalkProvider factory opts w).1 = sessions w.
Proof.
  intros Hc. unfold monitorDingtalkProvider, monitorBody. rewrite Hc.
  match goal with |- context [match ?b with Some _ => _ | None => _ end] =>
    destruct b end; [done|].
  simpl. by destruct (currentPromise (slot w)).
Qed.

(** The abort signal of the live session fires: its handler runs. *)
Lemma fireAbort_live sg c s w :
  Inv w → liveSession c s w → sAbortSignal s = Some sg →
  fireAbort sg w
  = handleAbort c
      (setListeners (filter (λ l, l ≠ (sg, c)) (abortListeners w))
         (setAborted (abortedSignals w ++ [sg]) w)).
Proof.
  intros [H0 Hcp Hll] [Hs Hlive] Hsg.
  destruct (Hll c s sg Hs Hlive Hsg) as [Hin Hnf].
  unfold fireAbort. rewrite bool_decide_eq_false_2 by done.
  assert (∀ sg0 c0, (sg0, c0) ∈ abortListeners w → sg0 = sg ∧ c0 = c) as Hall.
  { intros sg0 c0 Hin0.
    destruct (inv_listeners w H0 sg0 c0 Hin0) as (s0 & Hs0 & Hlive0 & Hsg0).
    pose proof (inv_live_current w H0 c s Hs Hlive).
    pose proof (inv_live_current w H0 c0 s0 Hs0 Hlive0).
    simplify_eq. split; congruence. }
  destruct (abortListeners w) as [|[sg' c'] rest] eqn:HL.
  { by apply elem_of_nil in Hin. }
  destruct (Hall sg' c') as [-> ->]; [by left|].
  simpl. rewrite HL, bool_decide_eq_true_2 by done.
  rewrite bool_decide_eq_true_2 by by left. simpl.
  set (w1 := handleAbort c _).
  assert (Inv w1 ∧ slot w1 = idleSlot) as [HI1 Hidle1].
  { subst w1. unfold handleAbort, finalizeResolve.
    match goal with |- Inv (finalize _ _ ?w0) ∧ _ =>
      assert (Inv0 w0) as H0' end.
    { apply Inv0_emit; try done. apply Inv0_listeners_subset.
      - simpl. intros x Hx%list_elem_of_filter. rewrite HL. tauto.
      - by apply Inv0_setAborted. }
    split; [by eapply finalize_Inv|by eapply finalize_idle]. }
  apply dispatch_skip.
  intros c0 _. apply idle_no_listener; [apply HI1|by rewrite Hidle1].
Qed.

(** Another signal fires: no listener of the live session is called. *)
Lemma fireAbort_other sg c s w :
  Inv w → liveSession c s w → sAbortSignal s ≠ Some sg →
  sessions (fireAbort sg w) = sessions w.
Proof.
  intros [H0 Hcp Hll] [Hs Hlive] Hsg. unfold fireAbort.
  destruct (bool_decide _); [done|].
  rewrite dispatch_skip; [done|]. simpl. intros c0 Hin _.
  destruct (inv_listeners w H0 sg c0 Hin) as (s0 & Hs0 & Hlive0 & Hsg0).
  pose proof (inv_live_current w H0 c s Hs Hlive).
  pose proof (inv_live_current w H0 c0 s0 Hs0 Hlive0).
  by simplify_eq.
Qed.
End FrameStart.

Section Once.
Context {DingtalkConfig : Type}.
Context (factory : DingtalkConfig → Thrown + ClientBehaviour).
Implicit Types (w : World) (c : ClientId) (s : Session)
  (ev : Event DingtalkConfig).

Lemma live_no_resolve c s w :
  Inv0 w → liveSession c s w → resolveCalls (sPromise s) w = 0%nat.
Proof.
  intros H0 [Hs Hlive].
  destruct (inv_counts w H0 c s Hs) as (_ & Hse & _). rewrite Hlive in Hse.
  pose proof (countIf_le (isResolveOf (sPromise s)) (isSettleOf (sPromise s))
                (trace w) (isResolveOf_isSettleOf _)) as Hle.
  unfold resolveCalls, settleCalls in *. lia.
Qed.

Lemma finalizeResolve_tears c s w :
  Inv0 w → liveSession c s w → tornDown c s (finalize c None w).
Proof.
  intros H0 Hl. pose proof (live_no_resolve c s w H0 Hl) as Hres.
  destruct Hl as [Hs Hlive].
  pose proof (inv_live_current w H0 c s Hs Hlive) as Hc.
  destruct (inv_counts w H0 c s Hs) as (_ & _ & _ & _ & Hpend).
  rewrite (finalize_live c None w s Hs Hlive Hc). split_and!; simpl.
  - apply list_lookup_insert_eq. by eapply lookup_lt_Some.
  - unfold resolveCalls in *. simpl.
    rewrite countIf_app, teardown_resolves, Hres.
    by rewrite bool_decide_eq_true_2.
  - apply settle_lookup_pending. auto.
Qed.

Lemma live_step_trigger c s ev w :
  Inv w → liveSession c s w → isTrigger (sAbortSignal s) ev = true →
  tornDown c s (step factory ev w).
Proof.
  intros HI Hl Htrig. destruct ev as [opts| |sg|? ? ? ?|e|]; try done.
  - simpl. unfold stopDingtalkMonitor.
    destruct Hl as [Hs Hlive].
    pose proof (inv_live_current w (inv_base w HI) c s Hs Hlive) as Hc.
    destruct (inv_current w (inv_base w HI) c Hc) as (-> & _).
    unfold stopHook, finalizeResolve. apply finalizeResolve_tears.
    + by apply Inv0_emit; [..|apply HI].
    + done.
  - simpl in Htrig. apply bool_decide_eq_true in Htrig.
    simpl. rewrite (fireAbort_live sg c s w HI Hl Htrig).
    unfold handleAbort, finalizeResolve. apply finalizeResolve_tears.
    + apply Inv0_emit; try done. apply Inv0_listeners_subset.
      * simpl. intros x Hx%list_elem_of_filter. tauto.
      * apply Inv0_setAborted, HI.
    + done.
Qed.

Lemma live_step_other c s ev w :
  Inv w → liveSession c s w → isTrigger (sAbortSignal s) ev = false →
  liveSession c s (step factory ev w).
Proof.
  intros HI Hl Htrig. pose proof Hl as [Hs Hlive].
  pose proof (inv_live_current w (inv_base w HI) c s Hs Hlive) as Hc.
  unfold liveSession.
  destruct ev as [opts| |sg|c' res now_gc now|e|]; try done; simpl.
  - by rewrite (start_active_sessions factory opts w c Hc).
  - simpl in Htrig. apply bool_decide_eq_false in Htrig.
    by rewrite (fireAbort_other sg c s w HI Hl Htrig).
  - destruct (sessions w !! c') as [s'|]; [|done].
    destruct (callback_lifecycle (sAccountId s') res now_gc now w)
      as (_ & -> & _). done.
Qed.

Lemma torn_step c s ev w :
  Inv w → tornDown c s w → tornDown c s (step factory ev w).
Proof.
  intros HI (Hs & Hres & Hp).
  pose proof (extendsWorld_step factory ev w) as Hext.
  pose proof (step_Inv factory ev w HI) as HI'.
  pose proof (countIf_extends (isResolveOf (sPromise s)) _ _ Hext) as Hge.
  destruct Hext as (_ & Hpr & Hse).
  pose proof (Hse c _ Hs eq_refl) as Hs'.
  split_and!; [done| |by apply Hpr].
  destruct (inv_counts _ (inv_base _ HI') c _ Hs') as (_ & Hset & _).
  simpl in Hset.
  pose proof (countIf_le (isResolveOf (sPromise s)) (isSettleOf (sPromise s))
                (trace (step factory ev w)) (isResolveOf_isSettleOf _)).
  unfold resolveCalls, settleCalls in *. lia.
Qed.

Lemma torn_run c s evs w :
  Inv w → tornDown c s w → tornDown c s (run factory evs w).
Proof.
  revert w. induction evs as [|ev evs IH]; intros w HI Ht; [done|].
  simpl. apply IH; [by apply step_Inv|by apply torn_step].
Qed.

(** Along any events, a live session stays live until the first
    trigger, and is torn down from then on. *)
Lemma live_run c s evs w :
  Inv w → liveSession c s w →
  if existsb (isTrigger (sAbortSignal s)) evs
  then tornDown c s (run factory evs w)
  else liveSession c s (run factory evs w).
Proof.
  revert w. induction evs as [|ev evs IH]; intros w HI Hl; [done|].
  simpl. destruct (isTrigger (sAbortSignal s) ev) eqn:Htrig; simpl.
  - apply torn_run; [by apply step_Inv|by apply live_step_trigger].
  - apply IH; [by apply step_Inv|by apply live_step_other].
Qed.

Lemma stop_idle w :
  Inv w → isMonitorActive w = false → stopDingtalkMonitor w = w.
Proof.
  intros HI Hidle. unfold isMonitorActive in Hidle.
  apply bool_decide_eq_false in Hidle.
  assert (currentClient (slot w) = None) as Hc.
  { destruct (currentClient (slot w)); [|done]. by exfalso; apply Hidle. }
  unfold stopDingtalkMonitor. rewrite Hc.
  destruct (currentStop (slot w)) as [c|] eqn:Hstop; [|done].
  pose proof (inv_stop w (inv_base w HI) c Hstop). congruence.
Qed.

Lemma stop_makes_idle w :
  Inv w → isMonitorActive (stopDingtalkMonitor w) = false.
Proof.
  intros HI. unfold stopDingtalkMonitor.
  destruct (currentStop (slot w)) as [c|] eqn:Hstop.
  - pose proof (inv_stop w (inv_base w HI) c Hstop) as Hc.
    destruct (inv_current w (inv_base w HI) c Hc) as (_ & s & Hs & Hlive & _).
    unfold stopHook, finalizeResolve, isMonitorActive.
    erewrite finalize_idle; [done| |exact Hs|done].
    by apply Inv0_emit; [..|apply HI].
  - destruct (currentClient (slot w)) as [c|] eqn:Hc.
    + destruct (inv_current w (inv_base w HI) c Hc) as (? & _). congruence.
    + unfold isMonitorActive. by rewrite Hc.
Qed.
End Once.

(** C2: take a session that is active in a world the monitor can be in,
    and let any events follow, among them any number of manual stops and
    firings of abort signals.  The client of the session is disconnected at
    most once; as soon as one trigger (a stop, or the firing of the
    session's abort signal) is among the events, each step of the teardown
    has run exactly once: one listener removal (when there is a signal), one
    disconnect, one settlement of the promise, which is a resolution and
    leaves the promise fulfilled; the session is marked stopped and is no
    longer the current one.  With no trigger, no teardown has run.  A stop
    in a world without active session changes nothing, so a repeated stop is
    a no-op. *)
Theorem C2_teardown_exactly_once
    {DingtalkConfig : Type}
    (factory : DingtalkConfig → Thrown + ClientBehaviour)
    (w : World) (c : ClientId) (s : Session)
    (evs : list (Event DingtalkConfig)) :
  reachable factory w →
  currentClient (slot w) = Some c →
  sessions w !! c = Some s →
  let w' := run factory evs w in
  (disconnectCalls c w' ≤ 1)%nat
  ∧ (existsb (isTrigger (sAbortSignal s)) evs = true →
     disconnectCalls c w' = 1%nat
     ∧ listenerRemovals c w' = removalsExpected s
     ∧ settleCalls (sPromise s) w' = 1%nat
     ∧ resolveCalls (sPromise s) w' = 1%nat
     ∧ promises w' !! sPromise s = Some Fulfilled
     ∧ sessions w' !! c = Some (markStopped s)
     ∧ currentClient (slot w') ≠ Some c
     ∧ currentStop (slot w') ≠ Some c)
  ∧ (existsb (isTrigger (sAbortSignal s)) evs = false →
     disconnectCalls c w' = 0%nat
     ∧ settleCalls (sPromise s) w' = 0%nat
     ∧ currentClient (slot w') = Some c)
  ∧ (isMonitorActive w' = false → stopDingtalkMonitor w' = w')
  ∧ stopDingtalkMonitor (stopDingtalkMonitor w') = stopDingtalkMonitor w'.
Proof.
  intros Hreach Hc Hs w'.
  pose proof (reachable_Inv factory w Hreach) as HI.
  pose proof (run_Inv factory evs w HI) as HI'. fold w' in HI'.
  assert (liveSession c s w) as Hl.
  { destruct (inv_current w (inv_base w HI) c Hc) as (_ & s' & Hs' & ? & _).
    split; congruence. }
  pose proof (live_run factory c s evs w HI Hl) as Hrun. fold w' in Hrun.
  assert (existsb (isTrigger (sAbortSignal s)) evs = true →
          disconnectCalls c w' = 1%nat
          ∧ listenerRemovals c w' = removalsExpected s
          ∧ settleCalls (sPromise s) w' = 1%nat
          ∧ resolveCalls (sPromise s) w' = 1%nat
          ∧ promises w' !! sPromise s = Some Fulfilled
          ∧ sessions w' !! c = Some (markStopped s)
          ∧ currentClient (slot w') ≠ Some c
          ∧ currentStop (slot w') ≠ Some c) as Htrig.
  { intros Hex. rewrite Hex in Hrun. destruct Hrun as (Hs' & Hres & Hp).
    destruct (inv_counts _ (inv_base _ HI') c _ Hs') as (Hd & Hse & Hr & _).
    simpl in Hd, Hse, Hr.
    assert (currentClient (slot w') ≠ Some c) as Hnc.
    { intros Hc'.
      destruct (inv_current _ (inv_base _ HI') c Hc')
        as (_ & s' & Hs'' & ? & _).
      rewrite Hs' in Hs''. by simplify_eq. }
    split_and!; try done.
    intros Hst. apply Hnc. by apply (inv_stop _ (inv_base _ HI')). }
  assert (existsb (isTrigger (sAbortSignal s)) evs = false →
          disconnectCalls c w' = 0%nat
          ∧ settleCalls (sPromise s) w' = 0%nat
          ∧ currentClient (slot w') = Some c) as Hnone.
  { intros Hex. rewrite Hex in Hrun. destruct Hrun as [Hs' Hlive].
    destruct (inv_counts _ (inv_base _ HI') c _ Hs') as (Hd & Hse & _).
    rewrite Hlive in Hd, Hse. split_and!; try done.
    by eapply inv_live_current; [apply HI'|..]. }
  split_and!; try done.
  - destruct (existsb (isTrigger (sAbortSignal s)) evs).
    + destruct Htrig as [-> _]; [done|lia].
    + destruct Hnone as [-> _]; [done|lia].
  - by apply stop_idle.
  - apply stop_idle; [by apply stop_Inv|by apply stop_makes_idle].
Qed.


(** ** The cache under the events of the monitor *)

Section DedupFrame.
Context {DingtalkConfig : Type}.
Context (factory : DingtalkConfig → Thrown + ClientBehaviour).
Implicit Types (w : World) (ev : Event DingtalkConfig).

Lemma dedup_cleanup c cl w : dedup (cleanup c cl w) = dedup w.
Proof.
  unfold cleanup. by destruct (disconnectThrows cl), (bool_decide _).
Qed.

Lemma dedup_finalize c o w : dedup (finalize c o w) = dedup w.
Proof.
  unfold finalize. destruct (sessions w !! c) as [s|]; [|done].
  destruct (sStopped s); [done|].
  unfold settlePromise. destruct o; simpl; rewrite dedup_cleanup;
    by destruct (sAbortSignal s).
Qed.

Lemma dedup_stop w : dedup (stopDingtalkMonitor w) = dedup w.
Proof.
  unfold stopDingtalkMonitor, stopHook, finalizeResolve.
  destruct (currentStop (slot w)); [by rewrite dedup_finalize|].
  destruct (currentClient (slot w)) as [c|]; [|done].
  simpl. destruct (sessions w !! c) as [s|]; [|done].
  by destruct (disconnectThrows (sClient s)).
Qed.

Lemma dedup_dispatch sg snapshot w :
  dedup (dispatchAbort sg snapshot w) = dedup w.
Proof.
  revert w. induction snapshot as [|[sg' c] snapshot IH]; intros w; [done|].
  simpl. destruct (_ && _); [|apply IH].
  rewrite IH. unfold handleAbort, finalizeResolve.
  by rewrite dedup_finalize.
Qed.

Lemma dedup_fireAbort sg w : dedup (fireAbort sg w) = dedup w.
Proof.
  unfold fireAbort. destruct (bool_decide _); [done|].
  by rewrite dedup_dispatch.
Qed.

Lemma dedup_connectStream c cl sg w :
  dedup (connectStream c cl sg w) = dedup w.
Proof.
  unfold connectStream, finalizeResolve, finalizeReject.
  destruct (alreadyAborted sg w); [by rewrite dedup_finalize|].
  destruct (registerThrows cl);
    [rewrite dedup_finalize; by destruct sg|].
  destruct (connectThrows cl);
    [rewrite dedup_finalize; by destruct sg|].
  by destruct sg.
Qed.

Lemma dedup_start opts w :
  dedup (monitorDingtalkProvider factory opts w).1 = dedup w.
Proof.
  unfold monitorDingtalkProvider, monitorBody.
  destruct (currentClient (slot w)).
  - match goal with |- context [match ?b with Some _ => _ | None => _ end] =>
      destruct b end; [done|].
    simpl. by destruct (currentPromise (slot w)).
  - destruct (dingtalkCfgOf opts) as [cfg|]; [|done].
    destruct (factory cfg) as [e|cl]; [done|].
    simpl. by rewrite dedup_connectStream.
Qed.

(** The cache after an event is the cache after the cache operations
    of the event. *)
Lemma dedup_step ev w :
  dedup (step factory ev w) = cacheRun (cacheOpsOf ev w) (dedup w).
Proof.
  destruct ev as [opts| |sg|c res now_gc now|e|]; simpl.
  - apply dedup_start.
  - apply dedup_stop.
  - apply dedup_fireAbort.
  - destruct (sessions w !! c) as [s|]; [|done].
    unfold callback. destruct (decode res) as [e|raw]; [done|].
    by destruct (isMessageProcessed _ _).
  - done.
  - done.
Qed.

Lemma reachable_cacheOk w : reachable factory w → cacheOk (dedup w).
Proof.
  intros [evs ->].
  enough (∀ w0, cacheOk (dedup w0) → cacheOk (dedup (run factory evs w0)))
    as H by apply H, emptyCache_ok.
  induction evs as [|ev evs IH]; intros w0 Hok; [done|].
  simpl. apply IH. rewrite dedup_step. by apply cacheRun_ok.
Qed.

Lemma run_keeps k evs w :
  cacheOk (dedup w) → isMessageProcessed k (dedup w) = true →
  keptAlong factory k w evs = true →
  isMessageProcessed k (dedup (run factory evs w)) = true.
Proof.
  revert w. induction evs as [|ev evs IH]; intros w Hok Hk Hkept; [done|].
  simpl in Hkept. apply andb_true_iff in Hkept as [Hno Hkept].
  simpl. apply IH; [| |done]; rewrite dedup_step.
  - by apply cacheRun_ok.
  - by apply cacheRun_keeps.
Qed.

(** A delivery whose key is in the cache is acknowledged and dropped. *)
Lemma callback_duplicate accountId res raw now_gc now w :
  decode res = inr raw →
  isMessageProcessed (dedupeKey accountId raw) (dedup w) = true →
  callback accountId res now_gc now w
  = (log ("[dingtalk] duplicate message detected, skipping (id="
          +:+ jsSlice 30 (dedupeKey accountId raw) +:+ "...)") w,
     SUCCESS).
Proof. intros Hdec Hk. unfold callback. by rewrite Hdec, Hk. Qed.

(** A delivery whose key is new marks it, then calls the handler. *)
Lemma callback_new accountId res raw now_gc now w :
  decode res = inr raw →
  isMessageProcessed (dedupeKey accountId raw) (dedup w) = false →
  callback accountId res now_gc now w
  = (emit (EHandle accountId raw)
       (log ("[dingtalk] received message from "
             +:+ jsString (senderId (fieldsOf raw)) +:+ " (type="
             +:+ jsString (msgtype (fieldsOf raw)) +:+ ")")
          (setDedup
             (markMessageProcessed now_gc now (dedupeKey accountId raw)
                (dedup w)) w)),
     SUCCESS).
Proof. intros Hdec Hk. unfold callback. by rewrite Hdec, Hk. Qed.
End DedupFrame.

(** C1: an event whose key is not yet in the cache is delivered, then
    any events, none of which expires, evicts or clears that key, then an
    event with the same key.  The first delivery calls the downstream
    handler once, from a world in which the key is already marked; the
    second is acknowledged with [SUCCESS] and dropped: no handler call, only
    the log line, the cache as it was.  So the two deliveries reach the
    handler exactly once. *)
Theorem C1_duplicate_delivery_dropped
    {DingtalkConfig : Type}
    (factory : DingtalkConfig → Thrown + ClientBehaviour)
    (w : World) (account1 account2 : string) (res1 res2 : StreamEvent)
    (raw1 raw2 : RawValue) (gc1 now1 gc2 now2 : Z)
    (between : list (Event DingtalkConfig)) :
  reachable factory w →
  decode res1 = inr raw1 →
  decode res2 = inr raw2 →
  dedupeKey account2 raw2 = dedupeKey account1 raw1 →
  isMessageProcessed (dedupeKey account1 raw1) (dedup w) = false →
  let k := dedupeKey account1 raw1 in
  let w1 := (callback account1 res1 gc1 now1 w).1 in
  let w2 := run factory between w1 in
  let w3 := (callback account2 res2 gc2 now2 w2).1 in
  keptAlong factory k w1 between = true →
  handlerCalls w1 = S (handlerCalls w)
  ∧ (∃ marked, isMessageProcessed k (dedup marked) = true
               ∧ handlerCalls marked = handlerCalls w
               ∧ w1 = emit (EHandle account1 raw1) marked)
  ∧ (callback account2 res2 gc2 now2 w2).2 = SUCCESS
  ∧ handlerCalls w3 = handlerCalls w2
  ∧ dedup w3 = dedup w2
  ∧ (handlerCalls w3 - handlerCalls w2
     + (handlerCalls w1 - handlerCalls w) = 1)%nat.
Proof.
  intros Hreach Hdec1 Hdec2 Hkey Hnew k w1 w2 w3 Hkept.
  assert (handlerCalls w1 = S (handlerCalls w)
          ∧ ∃ marked, isMessageProcessed k (dedup marked) = true
                      ∧ handlerCalls marked = handlerCalls w
                      ∧ w1 = emit (EHandle account1 raw1) marked)
    as [Hfirst Hmarked].
  { subst w1. rewrite (callback_new account1 res1 raw1 gc1 now1 w Hdec1 Hnew).
    simpl. split.
    - unfold handlerCalls. simpl. rewrite !countIf_app. simpl. lia.
    - eexists. split_and!; [| |reflexivity].
      + simpl. apply mark_processed.
      + unfold handlerCalls. simpl. rewrite countIf_app. simpl. lia. }
  assert (isMessageProcessed k (dedup w2) = true) as Hk2.
  { subst w2. apply run_keeps; [| |done].
    - subst w1. rewrite (callback_new account1 res1 raw1 gc1 now1 w Hdec1 Hnew).
      simpl. apply mark_ok. by eapply reachable_cacheOk.
    - destruct Hmarked as (marked & Hk & _ & ->). done. }
  subst k. rewrite <-Hkey in Hk2.
  assert (handlerCalls w3 = handlerCalls w2 ∧ dedup w3 = dedup w2)
    as [Hsecond Hcache].
  { subst w3.
    rewrite (callback_duplicate account2 res2 raw2 gc2 now2 w2 Hdec2 Hk2).
    simpl. split; [|done].
    unfold handlerCalls. simpl. rewrite countIf_app. simpl. lia. }
  split_and!; try done.
  - apply callback_ack.
  - lia.
Qed.


(** ** Starting *)

Section StartCases.
Context {DingtalkConfig : Type}.
Context (factory : DingtalkConfig → Thrown + ClientBehaviour).
Implicit Types (w : World) (opts : MonitorDingtalkOpts DingtalkConfig).

Lemma inactive_no_client w :
  isMonitorActive w = false → currentClient (slot w) = None.
Proof.
  unfold isMonitorActive. intros H%bool_decide_eq_false.
  destruct (currentClient (slot w)); [|done]. by exfalso; apply H.
Qed.

Lemma teardown_no_activation c s o :
  countIf isActivation (teardownTrace c s o) = 0%nat.
Proof.
  unfold teardownTrace.
  by destruct (sAbortSignal s), (disconnectThrows (sClient s)), o.
Qed.

(** A start whose abort signal has already fired: the world it leaves. *)
Lemma start_aborted opts w dingtalkCfg cl sg :
  currentClient (slot w) = None →
  dingtalkCfgOf opts = Some dingtalkCfg →
  factory dingtalkCfg = inr cl →
  abortSignal opts = Some sg → sg ∈ abortedSignals w →
  let account := default "default" (accountId opts) in
  let c := length (sessions w) in
  let p := length (promises w) in
  let new := mkSession cl account (Some sg) p false in
  monitorBody factory opts w
  = (mkWorld (mkSlot None None (Some p) None) (dedup w)
       (sessions w ++ [markStopped new])
       (promises w ++ [Fulfilled])
       (abortedSignals w)
       (filter (λ l, l ≠ (sg, c)) (abortListeners w))
       ((trace w
         ++ [ECreateClient (Some c);
             ELog ("[dingtalk] starting Stream connection for account "
                   +:+ account +:+ "...")])
        ++ teardownTrace c new None),
     inr p).
Proof.
  intros Hidle Hcfg Hcl Hsg Hfired account c p new.
  rewrite (monitorBody_new factory opts w dingtalkCfg cl Hidle Hcfg Hcl).
  f_equal. rewrite Hsg. fold account c p. unfold connectStream.
  assert (alreadyAborted (Some sg) (sessionOpened cl account (Some sg) w)
          = true) as ->.
  { simpl. by apply bool_decide_eq_true. }
  unfold finalizeResolve.
  rewrite (finalize_live c None _ new); [| | done |].
  - rewrite sessionOpened_eq. unfold storePromise. fold c p new.
    apply world_ext; simpl; try done.
    + unfold c. by rewrite insert_snoc.
    + unfold settle, settledAs, p. rewrite lookup_snoc.
      by rewrite insert_snoc.
  - simpl. apply lookup_snoc.
  - done.
Qed.
End StartCases.

(** C6: the abort signal passed to a start has already fired (the
    configuration is present, the client factory returns a client, no
    session is active).  The promise of the call is fulfilled when the call
    returns, the status is inactive with no account, and the session was
    never active: no callback was registered, no connection opened, no abort
    listener added. *)
Theorem C6_start_with_aborted_signal
    {DingtalkConfig : Type}
    (factory : DingtalkConfig → Thrown + ClientBehaviour)
    (opts : MonitorDingtalkOpts DingtalkConfig) (w : World)
    (dingtalkCfg : DingtalkConfig) (cl : ClientBehaviour) (sg : SignalId) :
  isMonitorActive w = false →
  dingtalkCfgOf opts = Some dingtalkCfg →
  factory dingtalkCfg = inr cl →
  abortSignal opts = Some sg →
  sg ∈ abortedSignals w →
  let w' := (monitorDingtalkProvider factory opts w).1 in
  let completion := (monitorDingtalkProvider factory opts w).2 in
  promiseState w' completion = Some Fulfilled
  ∧ isMonitorActive w' = false
  ∧ getCurrentAccountId w' = None
  ∧ countIf isActivation (trace w') = countIf isActivation (trace w)
  ∧ currentStop (slot w') = None.
Proof.
  intros Hidle%inactive_no_client Hcfg Hcl Hsg Hfired.
  unfold monitorDingtalkProvider.
  rewrite (start_aborted factory opts w dingtalkCfg cl sg Hidle Hcfg Hcl Hsg
             Hfired).
  simpl. split_and!; try done.
  - eapply (promiseState_following _ _ (length (promises w)) Fulfilled);
      simpl; [|by apply lookup_app_l_Some, lookup_snoc|done].
    rewrite length_app. simpl.
    replace (length (promises w) + 1)%nat
      with (length (promises w ++ [Fulfilled])%list)
      by (rewrite length_app; simpl; lia).
    apply lookup_snoc.
  - rewrite !countIf_app, teardown_no_activation. simpl. lia.
Qed.

(** C5 (as amended): a start for the account of the active session
    builds nothing and connects nothing; its promise is a new one, which
    follows the pending promise of the active session, the promise stored by
    the start that opened the session. *)
Theorem C5_restart_follows_session_promise
    {DingtalkConfig : Type}
    (factory : DingtalkConfig → Thrown + ClientBehaviour)
    (opts : MonitorDingtalkOpts DingtalkConfig) (w : World)
    (c : ClientId) (s : Session) :
  reachable factory w →
  currentClient (slot w) = Some c →
  sessions w !! c = Some s →
  currentAccountId (slot w) = Some (default "default" (accountId opts)) →
  let w' := (monitorDingtalkProvider factory opts w).1 in
  let completion := (monitorDingtalkProvider factory opts w).2 in
  currentPromise (slot w) = Some (sPromise s)
  ∧ promises w !! sPromise s = Some Pending
  ∧ promises w' !! completion = Some (Following (sPromise s))
  ∧ promises w !! completion = None
  ∧ promiseState w' completion = Some Pending
  ∧ slot w' = slot w ∧ sessions w' = sessions w
  ∧ countIf isTransportSetup (trace w') = countIf isTransportSetup (trace w)
  ∧ (∀ c', disconnectCalls c' w' = disconnectCalls c' w).
Proof.
  intros Hreach Hc Hs Hacc.
  pose proof (reachable_Inv factory w Hreach) as HI.
  pose proof (inv_current_promise w HI c s Hc Hs) as Hp.
  destruct (inv_current w (inv_base w HI) c Hc) as (_ & s' & Hs' & Hlive & _).
  assert (s' = s) as -> by congruence.
  destruct (inv_counts w (inv_base w HI) c s Hs) as (_ & _ & _ & Hlt & Hpend).
  specialize (Hpend Hlive).
  rewrite (start_reuse factory opts w c (sPromise s) Hc Hacc Hp). simpl.
  split_and!; try done.
  - apply lookup_snoc.
  - by apply lookup_ge_None.
  - eapply (promiseState_following _ _ (sPromise s) Pending); simpl;
      [apply lookup_snoc|by apply lookup_app_l_Some|done].
  - rewrite countIf_app. simpl. lia.
  - intros c'. unfold disconnectCalls. simpl. rewrite countIf_app. simpl. lia.
Qed.

(** X22: a start for another account than the (non-empty) account of the active
    session is rejected with the busy error and leaves the session as it
    is. *)
Lemma start_busy_leaves_session
    {DingtalkConfig : Type}
    (factory : DingtalkConfig → Thrown + ClientBehaviour)
    (opts : MonitorDingtalkOpts DingtalkConfig) (w : World)
    (c : ClientId) (cur : string) :
  currentClient (slot w) = Some c →
  currentAccountId (slot w) = Some cur →
  cur ≠ "" → cur ≠ default "default" (accountId opts) →
  let w' := (monitorDingtalkProvider factory opts w).1 in
  let completion := (monitorDingtalkProvider factory opts w).2 in
  promiseState w' completion
  = Some (Rejected (mkError ("DingTalk already running for account " +:+ cur)))
  ∧ slot w' = slot w ∧ sessions w' = sessions w ∧ trace w' = trace w
  ∧ (∀ p, (p < length (promises w))%nat → promises w' !! p = promises w !! p).
Proof.
  intros Hc Hcur Hne Hdiff.
  rewrite (start_busy factory opts w c cur Hc Hcur Hne Hdiff). simpl.
  split_and!; try done.
  - apply promiseState_rejected. simpl. apply lookup_snoc.
  - intros p Hp. by apply lookup_app_l.
Qed.


(** * Concrete runs *)

(** The scenario of the specification: start for account "A", deliver
    "m1" twice, stop. *)
Example scenario_start_deliver_stop :
  let w1 := startedFor "A" None in
  let w2 := run simpleFactory [EvDeliver 0%nat (eventWithId "m1") 0 0] w1 in
  let w3 := run simpleFactory [EvDeliver 0%nat (eventWithId "m1") 9 9] w2 in
  let w4 := run simpleFactory [EvStop] w3 in
  (isMonitorActive w1, getCurrentAccountId w1) = (true, Some "A")
  ∧ handlerCalls w2 = 1%nat ∧ handlerCalls w3 = 1%nat
  ∧ (isMonitorActive w4, getCurrentAccountId w4) = (false, None)
  ∧ promiseState w4 0%nat = Some Fulfilled
  ∧ promiseState w4 1%nat = Some Fulfilled.
Proof. vm_compute. by split_and!. Qed.

Lemma C1_duplicate_delivery_dropped_witness :
  let w := startedFor "A" None in
  let raw := RawObject (mkRaw (Some "m1") (Some "cid") (Some "u1")
                          (Some "hello") (Some "text")) in
  let between := [EvDeliver 0%nat (eventWithId "m2") 1 1; EvStop] in
  let w1 := (callback "A" (eventWithId "m1") 0 0 w).1 in
  let w2 := run simpleFactory between w1 in
  let w3 := (callback "A" (eventWithId "m1") 2 2 w2).1 in
  (reachable simpleFactory w
   ∧ decode (eventWithId "m1") = inr raw
   ∧ isMessageProcessed (dedupeKey "A" raw) (dedup w) = false
   ∧ keptAlong simpleFactory (dedupeKey "A" raw) w1 between = true)
  ∧ handlerCalls w1 = S (handlerCalls w)
  ∧ handlerCalls w3 = handlerCalls w2.
Proof.
  intros w raw between w1 w2 w3.
  assert (reachable simpleFactory w) as Hreach.
  { exists [EvStart (optsFor (Some "A") None)]. reflexivity. }
  split; [split_and!; [exact Hreach|reflexivity..]|].
  pose proof (C1_duplicate_delivery_dropped simpleFactory w "A" "A"
                (eventWithId "m1") (eventWithId "m1") raw raw 0 0 2 2 between
                Hreach eq_refl eq_refl eq_refl eq_refl eq_refl)
    as (H1 & _ & _ & H3 & _).
  split; [exact H1|exact H3].
Defined.

Lemma C2_teardown_exactly_once_witness :
  let w := startedFor "A" (Some 7%nat) in
  let s := mkSession wellBehaved "A" (Some 7%nat) 0%nat false in
  let evs := [EvAbort 7%nat; EvStop; EvStart optsNoConfig; EvStop] in
  (reachable simpleFactory w
   ∧ currentClient (slot w) = Some 0%nat
   ∧ sessions w !! 0%nat = Some s
   ∧ existsb (isTrigger (sAbortSignal s)) evs = true)
  ∧ disconnectCalls 0%nat (run simpleFactory evs w) = 1%nat
  ∧ resolveCalls 0%nat (run simpleFactory evs w) = 1%nat.
Proof.
  intros w s evs.
  assert (reachable simpleFactory w) as Hreach.
  { exists [EvStart (optsFor (Some "A") (Some 7%nat))]. reflexivity. }
  split; [split_and!; [exact Hreach|reflexivity..]|].
  pose proof (C2_teardown_exactly_once simpleFactory w 0%nat s evs
                Hreach eq_refl eq_refl) as (_ & Htrig & _).
  destruct (Htrig eq_refl) as (Hd & _ & _ & Hr & _).
  split; [exact Hd|exact Hr].
Defined.

(** Two insertions with keys that are not the empty string: the cache
    stays within its 10,000 entries. *)
Lemma cache_size_bounded_nonempty_keys_witness :
  cacheSize (cacheRun [OpMark 0 0 "A:m1"; OpMark 1 1 "A:m2"] emptyCache)
  ≤ DEDUP_CACHE_MAX_SIZE.
Proof.
  apply cache_size_bounded_nonempty_keys.
  intros now_gc now k Hin.
  apply elem_of_cons in Hin as [Heq|Hin]; [by injection Heq as _ _ ->|].
  apply list_elem_of_singleton in Hin. by injection Hin as _ _ ->.
Defined.

(** C4 (evaluation at the failing input): a session is active for the
    account with the empty id; a start for account "B" is not refused: it is
    answered like a start for the same account, with a promise that follows
    the promise of the active session. *)
Theorem C4_empty_account_id_not_busy :
  let first := monitorDingtalkProvider simpleFactory
                 (optsFor (Some "") None) initialWorld in
  let second := monitorDingtalkProvider simpleFactory
                  (optsFor (Some "B") None) first.1 in
  isMonitorActive first.1 = true
  ∧ getCurrentAccountId first.1 = Some ""
  ∧ promises second.1 !! second.2 = Some (Following 0%nat)
  ∧ promiseState second.1 second.2 = Some Pending
  ∧ getCurrentAccountId second.1 = Some "".
Proof. vm_compute. by split_and!. Qed.

Lemma start_busy_leaves_session_witness :
  let w := startedFor "A" None in
  let second := monitorDingtalkProvider simpleFactory
                  (optsFor (Some "B") None) w in
  promiseState second.1 second.2
  = Some (Rejected (mkError "DingTalk already running for account A"))
  ∧ slot second.1 = slot w.
Proof.
  intros w second.
  pose proof (start_busy_leaves_session simpleFactory
                (optsFor (Some "B") None) w 0%nat "A" eq_refl eq_refl)
    as H.
  destruct H as (H1 & H2 & _); [done|done|].
  split; [exact H1|exact H2].
Defined.

(** C5 (counterexample to the claim as stated): the second start for the
    account of the active session does not return the promise the first
    start returned: the two calls return two promises. *)
Lemma C5_same_promise_object_counterexample :
  let first := monitorDingtalkProvider simpleFactory
                 (optsFor (Some "A") None) initialWorld in
  let second := monitorDingtalkProvider simpleFactory
                  (optsFor (Some "A") None) first.1 in
  isMonitorActive first.1 = true
  ∧ getCurrentAccountId first.1 = Some "A"
  ∧ promiseState first.1 first.2 = Some Pending
  ∧ second.2 ≠ first.2
  ∧ currentPromise (slot first.1) ≠ Some second.2.
Proof. vm_compute. by split_and!. Qed.

Lemma C5_restart_follows_session_promise_witness :
  let w := startedFor "A" None in
  let s := mkSession wellBehaved "A" None 0%nat false in
  let opts := optsFor (Some "A") None in
  let second := monitorDingtalkProvider simpleFactory opts w in
  (reachable simpleFactory w
   ∧ currentClient (slot w) = Some 0%nat
   ∧ sessions w !! 0%nat = Some s
   ∧ currentAccountId (slot w) = Some (default "default" (accountId opts)))
  ∧ promises second.1 !! second.2 = Some (Following (sPromise s))
  ∧ promiseState second.1 second.2 = Some Pending.
Proof.
  intros w s opts second.
  assert (reachable simpleFactory w) as Hreach.
  { exists [EvStart (optsFor (Some "A") None)]. reflexivity. }
  split; [split_and!; [exact Hreach|reflexivity..]|].
  pose proof (C5_restart_follows_session_promise simpleFactory opts w 0%nat s
                Hreach eq_refl eq_refl eq_refl)
    as (_ & _ & H1 & _ & H2 & _).
  split; [exact H1|exact H2].
Defined.

Lemma C6_start_with_aborted_signal_witness :
  let w := run simpleFactory [EvAbort 7%nat] initialWorld in
  let opts := optsFor (Some "A") (Some 7%nat) in
  let started := monitorDingtalkProvider simpleFactory opts w in
  (isMonitorActive w = false
   ∧ dingtalkCfgOf opts = Some tt
   ∧ simpleFactory tt = inr wellBehaved
   ∧ abortSignal opts = Some 7%nat
   ∧ 7%nat ∈ abortedSignals w)
  ∧ promiseState started.1 started.2 = Some Fulfilled
  ∧ isMonitorActive started.1 = false
  ∧ getCurrentAccountId started.1 = None.
Proof.
  intros w opts started.
  assert (7%nat ∈ abortedSignals w) as Hin by (vm_compute; left).
  split; [split_and!; [reflexivity..|exact Hin]|].
  pose proof (C6_start_with_aborted_signal simpleFactory opts w tt wellBehaved
                7%nat eq_refl eq_refl eq_refl eq_refl Hin)
    as (H1 & H2 & H3 & _).
  split_and!; [exact H1|exact H2|exact H3].
Defined.

Lemma C8_missing_configuration_fails_fast_witness :
  let started := monitorDingtalkProvider simpleFactory optsNoConfig
                   initialWorld in
  (isMonitorActive initialWorld = false ∧ dingtalkCfgOf optsNoConfig = None)
  ∧ promiseState started.1 started.2
    = Some (Rejected (mkError "DingTalk configuration not found"))
  ∧ trace started.1 = trace initialWorld
  ∧ isMonitorActive started.1 = false.
Proof.
  intros started. split; [split; reflexivity|].
  pose proof (C8_missing_configuration_fails_fast simpleFactory optsNoConfig
                initialWorld eq_refl eq_refl) as (H1 & H2 & H).
  split_and!; [exact H1|exact H2|apply H].
Defined.

(** * Further properties of the de-duplication cache *)

Section CleanupPass.
Implicit Types (c : DedupCache) (k : string).

(** What a cleanup pass over [snapshot] leaves of the timestamp map. *)
Lemma cleanup_fold_timestamps now snapshot acc k t :
  (k, t) ∈ processedMessageTimestamps
             (foldl (λ acc '(messageId, timestamp),
                       if now - timestamp >? DEDUP_CACHE_TTL
                       then deleteEntry messageId acc else acc)
                    acc snapshot)
  ↔ (k, t) ∈ processedMessageTimestamps acc
    ∧ ∀ t', (k, t') ∈ snapshot → now - t' ≤ DEDUP_CACHE_TTL.
Proof.
  revert acc. induction snapshot as [|[k0 t0] snapshot IH]; intros acc.
  { simpl. split; [|by intros [? _]]. intros H. split; [done|].
    intros t' Hin. by apply elem_of_nil in Hin. }
  simpl. rewrite IH. destruct (Z.gtb_spec (now - t0) DEDUP_CACHE_TTL) as [Hexp|Hfresh].
  - simpl. unfold JsMap.delete. rewrite list_elem_of_filter. simpl. split.
    + intros [[Hne Hin] Hrest]. split; [done|].
      intros t' [Heq|Hin']%elem_of_cons; [congruence|by apply Hrest].
    + intros [Hin Hall]. split_and!; [|done|].
      * intros ->. assert (now - t0 ≤ DEDUP_CACHE_TTL) by (apply Hall; by left). lia.
      * intros t' Hin'. apply Hall. by right.
  - split.
    + intros [Hin Hrest]. split; [done|].
      intros t' [Heq|Hin']%elem_of_cons; [|by apply Hrest].
      injection Heq as -> ->. done.
    + intros [Hin Hall]. split; [done|].
      intros t' Hin'. apply Hall. by right.
Qed.

(** What a cleanup pass over [snapshot] leaves of the set of ids. *)
Lemma cleanup_fold_ids now snapshot acc k :
  k ∈ processedMessageIds
        (foldl (λ acc '(messageId, timestamp),
                  if now - timestamp >? DEDUP_CACHE_TTL
                  then deleteEntry messageId acc else acc)
               acc snapshot)
  ↔ k ∈ processedMessageIds acc
    ∧ ∀ t', (k, t') ∈ snapshot → now - t' ≤ DEDUP_CACHE_TTL.
Proof.
  revert acc. induction snapshot as [|[k0 t0] snapshot IH]; intros acc.
  { simpl. split; [|by intros [? _]]. intros H. split; [done|].
    intros t' Hin. by apply elem_of_nil in Hin. }
  simpl. rewrite IH. destruct (Z.gtb_spec (now - t0) DEDUP_CACHE_TTL) as [Hexp|Hfresh].
  - simpl. rewrite elem_of_delete. split.
    + intros [[Hne Hin] Hrest]. split; [done|].
      intros t' [Heq|Hin']%elem_of_cons; [congruence|by apply Hrest].
    + intros [Hin Hall]. split_and!; [|done|].
      * intros ->. assert (now - t0 ≤ DEDUP_CACHE_TTL) by (apply Hall; by left). lia.
      * intros t' Hin'. apply Hall. by right.
  - split.
    + intros [Hin Hrest]. split; [done|].
      intros t' [Heq|Hin']%elem_of_cons; [|by apply Hrest].
      injection Heq as -> ->. done.
    + intros [Hin Hall]. split; [done|].
      intros t' Hin'. apply Hall. by right.
Qed.
End CleanupPass.

(** X1: a cleanup pass at time [now] keeps exactly the entries whose key
    has no timestamp older than the TTL, in the map and in the set alike; so
    every entry left is at most the TTL old, and a key inserted more than
    the TTL ago is gone. *)
Theorem cleanup_keeps_exactly_the_fresh
    (now : Z) (c : DedupCache) (k : string) (t : Z) :
  let c' := cleanupDedupCache now c in
  ((k, t) ∈ processedMessageTimestamps c'
   ↔ (k, t) ∈ processedMessageTimestamps c
     ∧ ∀ t', (k, t') ∈ processedMessageTimestamps c →
             now - t' ≤ DEDUP_CACHE_TTL)
  ∧ (isMessageProcessed k c' = true
     ↔ isMessageProcessed k c = true
       ∧ ∀ t', (k, t') ∈ processedMessageTimestamps c →
               now - t' ≤ DEDUP_CACHE_TTL)
  ∧ ((k, t) ∈ processedMessageTimestamps c' → now - t ≤ DEDUP_CACHE_TTL)
  ∧ ((k, t) ∈ processedMessageTimestamps c → now - t > DEDUP_CACHE_TTL →
     isMessageProcessed k c' = false).
Proof.
  intros c'. subst c'. unfold cleanupDedupCache, isMessageProcessed.
  rewrite !has_true. split_and!.
  - apply cleanup_fold_timestamps.
  - apply cleanup_fold_ids.
  - intros [Hin Hall]%cleanup_fold_timestamps. by apply Hall.
  - intros Hin Hold. apply not_true_is_false. rewrite has_true.
    intros [_ Hall]%cleanup_fold_ids. specialize (Hall t Hin). lia.
Qed.

Section MapLookup.
Implicit Types (k : string) (m : list (string * Z)).

Lemma get_snoc k v m :
  k ∉ JsMap.keys m → JsMap.get k (m ++ [(k, v)]) = Some v.
Proof.
  unfold JsMap.keys. induction m as [|[k' v'] m IH]; intros Hk; simpl.
  { by rewrite decide_True. }
  rewrite fmap_cons, not_elem_of_cons in Hk. destruct Hk as [Hne Hk].
  rewrite decide_False by done. by apply IH.
Qed.

Lemma get_snoc_ne k k' v m :
  k' ≠ k → JsMap.get k' (m ++ [(k, v)]) = JsMap.get k' m.
Proof.
  intros Hne. induction m as [|[k0 v0] m IH]; simpl.
  { by rewrite decide_False. }
  by destruct (decide (k0 = k')).
Qed.

Lemma get_set_eq k v m : JsMap.get k (JsMap.set k v m) = Some v.
Proof.
  unfold JsMap.set, JsMap.has. case_bool_decide as Hk; [|by apply get_snoc].
  unfold JsMap.keys in Hk. induction m as [|[k' v'] m IH].
  { by apply elem_of_nil in Hk. }
  rewrite fmap_cons. simpl. destruct (decide (k' = k)) as [->|Hne]; simpl.
  { by rewrite decide_True. }
  rewrite decide_False by done. apply IH.
  rewrite fmap_cons in Hk. apply elem_of_cons in Hk as [Heq|Hk]; [|done].
  simpl in Heq. congruence.
Qed.

Lemma get_set_ne k k' v m :
  k' ≠ k → JsMap.get k' (JsMap.set k v m) = JsMap.get k' m.
Proof.
  intros Hne. unfold JsMap.set. destruct (JsMap.has k m);
    [|by apply get_snoc_ne].
  induction m as [|[k0 v0] m IH]; [done|].
  rewrite fmap_cons. simpl. destruct (decide (k0 = k)) as [->|Hne0]; simpl.
  - rewrite !decide_False by done. apply IH.
  - destruct (decide (k0 = k')); [done|apply IH].
Qed.

Lemma mark_below now_gc now k (c : DedupCache) :
  atCapacity c = false →
  markMessageProcessed now_gc now k c
  = mkCache (JsSet.add k (processedMessageIds c))
            (JsMap.set k now (processedMessageTimestamps c)).
Proof.
  unfold atCapacity, cacheSize, markMessageProcessed. by intros ->.
Qed.
End MapLookup.

(** X2: an insertion records the clock it read: whatever the cache was
    (full or not, the key present or not), after [markMessageProcessed] the
    key is in the set and its timestamp in the map is the insertion
    time. *)
Theorem mark_records_insertion_time
    (now_gc now : Z) (k : string) (c : DedupCache) :
  let c' := markMessageProcessed now_gc now k c in
  isMessageProcessed k c' = true
  ∧ JsMap.get k (processedMessageTimestamps c') = Some now
  ∧ JsMap.has k (processedMessageTimestamps c') = true.
Proof.
  intros c'. split_and!.
  - apply mark_processed.
  - subst c'. unfold markMessageProcessed. simpl. apply get_set_eq.
  - subst c'. unfold markMessageProcessed, JsMap.has. simpl.
    rewrite keys_set. apply bool_decide_eq_true, elem_of_add. by left.
Qed.

(** X3: inserting again a key that is in the cache, below capacity, only
    refreshes its timestamp: the insertion order (which decides eviction),
    the size and the timestamps of the other keys stay as they are. *)
Theorem remark_only_refreshes_timestamp
    (ops : list CacheOp) (now_gc now : Z) (k : string) :
  let c := cacheRun ops emptyCache in
  let c' := markMessageProcessed now_gc now k c in
  atCapacity c = false →
  isMessageProcessed k c = true →
  processedMessageIds c' = processedMessageIds c
  ∧ JsMap.keys (processedMessageTimestamps c')
    = JsMap.keys (processedMessageTimestamps c)
  ∧ cacheSize c' = cacheSize c
  ∧ JsMap.get k (processedMessageTimestamps c') = Some now
  ∧ ∀ k', k' ≠ k →
      JsMap.get k' (processedMessageTimestamps c')
      = JsMap.get k' (processedMessageTimestamps c).
Proof.
  intros c c' Hcap Hk.
  destruct (cacheRun_ok ops emptyCache emptyCache_ok) as [Hsync _].
  fold c in Hsync. subst c'. rewrite (mark_below _ _ _ _ Hcap).
  unfold isMessageProcessed in Hk.
  assert (JsSet.add k (processedMessageIds c) = processedMessageIds c) as Hadd.
  { unfold JsSet.add. by rewrite Hk. }
  unfold cacheSize. simpl. rewrite keys_set, <-Hsync, Hadd.
  split_and!; try done.
  - apply get_set_eq.
  - intros k' Hne. by apply get_set_ne.
Qed.

Lemma remark_only_refreshes_timestamp_witness :
  let ops := [OpMark 0 0 "A:m1"; OpMark 1 1 "A:m2"] in
  let c := cacheRun ops emptyCache in
  let c' := markMessageProcessed 7 7 "A:m1" c in
  (atCapacity c = false ∧ isMessageProcessed "A:m1" c = true)
  ∧ processedMessageIds c' = processedMessageIds c
  ∧ JsMap.get "A:m1" (processedMessageTimestamps c') = Some 7.
Proof.
  intros ops c c'. split; [split; reflexivity|].
  pose proof (remark_only_refreshes_timestamp ops 7 7 "A:m1" eq_refl eq_refl)
    as (H1 & _ & _ & H2 & _).
  split; [exact H1|exact H2].
Defined.

Section Eviction.
Implicit Types (c : DedupCache) (k : string).

Lemma delete_head_NoDup k (s : list string) :
  NoDup (k :: s) → JsSet.delete k (k :: s) = s.
Proof.
  intros [Hk Hs]%NoDup_cons. unfold JsSet.delete.
  rewrite filter_cons, decide_False by (intros H; by apply H).
  induction s as [|x s IH]; [done|].
  apply not_elem_of_cons in Hk as [Hne Hk]. apply NoDup_cons in Hs as [_ Hs].
  rewrite filter_cons, decide_True by done. f_equal. by apply IH.
Qed.

(** An insert into a cache that is full of fresh entries deletes the
    oldest key, then inserts. *)
Lemma mark_evicts now_gc now k c oldest :
  atCapacity c = true →
  (∀ k' t, (k', t) ∈ processedMessageTimestamps c →
           now_gc - t ≤ DEDUP_CACHE_TTL) →
  JsMap.first_key (processedMessageTimestamps c) = Some oldest →
  oldest ≠ "" →
  markMessageProcessed now_gc now k c
  = mkCache (JsSet.add k (JsSet.delete oldest (processedMessageIds c)))
      (JsMap.set k now (JsMap.delete oldest (processedMessageTimestamps c))).
Proof.
  intros Hcap Hfresh Hfirst Hne. unfold markMessageProcessed.
  unfold atCapacity, cacheSize in Hcap.
  rewrite cleanup_nothing_expired.
  2:{ intros k' t Hin. specialize (Hfresh k' t Hin).
      destruct (Z.gtb_spec (now_gc - t) DEDUP_CACHE_TTL); [lia|done]. }
  rewrite Hcap, Hfirst. unfold truthy.
  by rewrite bool_decide_eq_false_2.
Qed.
End Eviction.

(** X4: eviction is first-in, first-out.  An insert into a cache that is
    at capacity and holds no entry older than the TTL removes the key that
    was inserted first (unless it is the key being inserted, which then
    moves to the end) and no other; the size does not grow. *)
Theorem eviction_removes_the_oldest_only
    (now_gc now : Z) (k oldest : string) (c : DedupCache) :
  cacheOk c →
  atCapacity c = true →
  (∀ k' t, (k', t) ∈ processedMessageTimestamps c →
           now_gc - t ≤ DEDUP_CACHE_TTL) →
  JsMap.first_key (processedMessageTimestamps c) = Some oldest →
  oldest ≠ "" →
  let c' := markMessageProcessed now_gc now k c in
  isMessageProcessed oldest c' = bool_decide (oldest = k)
  ∧ (∀ k', k' ≠ oldest →
       isMessageProcessed k' c'
       = isMessageProcessed k' c || bool_decide (k' = k))
  ∧ cacheSize c' ≤ cacheSize c
  ∧ (isMessageProcessed k c = false → cacheSize c' = cacheSize c).
Proof.
  intros [Hsync Hnd] Hcap Hfresh Hfirst Hne c'. subst c'.
  rewrite (mark_evicts now_gc now k c oldest Hcap Hfresh Hfirst Hne).
  unfold JsMap.first_key in Hfirst. rewrite <-Hsync in Hfirst.
  destruct (processedMessageIds c) as [|x rest] eqn:Hids; [done|].
  injection Hfirst as ->.
  unfold isMessageProcessed, cacheSize. simpl. rewrite Hids.
  rewrite (delete_head_NoDup oldest rest Hnd).
  apply NoDup_cons in Hnd as [Hold Hrest].
  assert (∀ k', JsSet.has k' (JsSet.add k rest)
                = JsSet.has k' rest || bool_decide (k' = k)) as Hhas.
  { intros k'. apply eq_true_iff_eq.
    rewrite orb_true_iff, !has_true, bool_decide_eq_true, elem_of_add. tauto. }
  split_and!.
  - rewrite Hhas. unfold JsSet.has at 1.
    by rewrite (bool_decide_eq_false_2 (oldest ∈ rest)).
  - intros k' Hk'. rewrite Hhas. f_equal. unfold JsSet.has.
    apply bool_decide_ext. rewrite elem_of_cons.
    clear -Hk'. intuition congruence.
  - pose proof (size_add_le k rest). unfold JsSet.size in *. simpl. lia.
  - intros Hnew. unfold JsSet.has in Hnew. apply bool_decide_eq_false in Hnew.
    apply not_elem_of_cons in Hnew as [_ Hnew].
    unfold JsSet.add, JsSet.has. rewrite bool_decide_eq_false_2 by done.
    unfold JsSet.size. rewrite length_app. simpl. lia.
Qed.

Section FullCache.
Lemma fullCache_ok : cacheOk fullCache.
Proof.
  split; unfold fullCache;
    cbn [processedMessageIds processedMessageTimestamps].
  - unfold JsMap.keys. rewrite fmap_cons, <-list_fmap_compose. reflexivity.
  - apply NoDup_cons. split.
    + intros (i & Heq & Hi)%list_elem_of_fmap.
      apply keyOf_inj in Heq as <-. apply elem_of_seq in Hi. lia.
    + apply NoDup_fmap_2; [|apply NoDup_seq].
      intros i j. apply keyOf_inj.
Qed.

Lemma fullCache_size : cacheSize fullCache = DEDUP_CACHE_MAX_SIZE.
Proof.
  unfold cacheSize, JsSet.size, fullCache.
  cbn [processedMessageIds]. rewrite length_cons, length_fmap, length_seq.
  unfold DEDUP_CACHE_MAX_SIZE. lia.
Qed.

Lemma fullCache_fresh k t :
  (k, t) ∈ processedMessageTimestamps fullCache → 0 - t ≤ DEDUP_CACHE_TTL.
Proof.
  unfold fullCache. cbn [processedMessageTimestamps].
  intros [Heq|(i & Heq & _)%list_elem_of_fmap]%elem_of_cons;
    injection Heq as _ ->; unfold DEDUP_CACHE_TTL; lia.
Qed.
End FullCache.

Lemma eviction_removes_the_oldest_only_witness :
  let c' := markMessageProcessed 0 0 "A:new" fullCache in
  (cacheOk fullCache
   ∧ atCapacity fullCache = true
   ∧ (∀ k' t, (k', t) ∈ processedMessageTimestamps fullCache →
              0 - t ≤ DEDUP_CACHE_TTL)
   ∧ JsMap.first_key (processedMessageTimestamps fullCache) = Some (keyOf 1)
   ∧ keyOf 1 ≠ "")
  ∧ isMessageProcessed (keyOf 1) c' = bool_decide (keyOf 1 = "A:new")
  ∧ cacheSize c' ≤ cacheSize fullCache.
Proof.
  intros c'.
  assert (atCapacity fullCache = true) as Hcap.
  { unfold atCapacity. rewrite fullCache_size. reflexivity. }
  assert (JsMap.first_key (processedMessageTimestamps fullCache)
          = Some (keyOf 1)) as Hfirst by reflexivity.
  assert (keyOf 1 ≠ "") as Hne by (vm_compute; discriminate).
  split; [split_and!; [apply fullCache_ok|exact Hcap|apply fullCache_fresh
                      |exact Hfirst|exact Hne]|].
  pose proof (eviction_removes_the_oldest_only 0 0 "A:new" (keyOf 1) fullCache
                fullCache_ok Hcap fullCache_fresh Hfirst Hne)
    as (H1 & _ & H2 & _).
  split; [exact H1|exact H2].
Defined.

Section EarlyInserts.
Implicit Types (c : DedupCache) (k : string).

Lemma mark_below_keeps now_gc now k k' c :
  atCapacity c = false → isMessageProcessed k' c = true →
  isMessageProcessed k' (markMessageProcessed now_gc now k c) = true.
Proof.
  intros Hcap Hk'. rewrite (mark_below _ _ _ _ Hcap).
  unfold isMessageProcessed in *. simpl.
  apply has_true, elem_of_add. right. by apply has_true.
Qed.

Lemma mark_below_size now_gc now k c :
  atCapacity c = false →
  cacheSize (markMessageProcessed now_gc now k c) ≤ cacheSize c + 1.
Proof.
  intros Hcap. rewrite (mark_below _ _ _ _ Hcap). unfold cacheSize. simpl.
  apply size_add_le.
Qed.

(** While the insertions still to come fit below the capacity, nothing
    is removed. *)
Lemma early_inserts_keep ops c :
  forallb isInsertOrLookup ops = true →
  cacheSize c + Z.of_nat (length ops) ≤ DEDUP_CACHE_MAX_SIZE →
  (∀ k, isMessageProcessed k c = true →
        isMessageProcessed k (cacheRun ops c) = true)
  ∧ (∀ now_gc now k, OpMark now_gc now k ∈ ops →
        isMessageProcessed k (cacheRun ops c) = true).
Proof.
  revert c. induction ops as [|op ops IH]; intros c Hops Hroom.
  { split; [done|]. intros ??? Hin. by apply elem_of_nil in Hin. }
  simpl in Hops. apply andb_true_iff in Hops as [Hop Hops].
  rewrite length_cons in Hroom. rewrite cacheRun_cons.
  assert (atCapacity c = false) as Hcap.
  { unfold atCapacity. destruct (Z.geb_spec (cacheSize c) DEDUP_CACHE_MAX_SIZE);
      [lia|done]. }
  destruct op as [now_gc now k0|?| |k0]; try done; simpl.
  - pose proof (mark_below_size now_gc now k0 c Hcap) as Hsz.
    destruct (IH (markMessageProcessed now_gc now k0 c) Hops) as [Hkeep Hnew];
      [lia|].
    split.
    + intros k Hk. apply Hkeep. by apply mark_below_keeps.
    + intros g n k [Heq|Hin]%elem_of_cons; [|by eapply Hnew].
      injection Heq as -> -> ->. apply Hkeep, mark_processed.
  - destruct (IH c Hops) as [Hkeep Hnew]; [lia|]. split; [done|].
    intros g n k [Heq|Hin]%elem_of_cons; [done|by eapply Hnew].
Qed.
End EarlyInserts.

(** X5: the TTL does not expire anything by itself.  Starting from the
    empty cache, as long as no more than 10,000 insertions and lookups have
    been made (and no explicit cleanup or clear), every key inserted is
    still in the cache, whatever the clock values were: a redelivery is
    recognised however late it comes. *)
Theorem first_inserts_are_never_lost
    (ops : list CacheOp) (now_gc now : Z) (k : string) :
  forallb isInsertOrLookup ops = true →
  Z.of_nat (length ops) ≤ DEDUP_CACHE_MAX_SIZE →
  OpMark now_gc now k ∈ ops →
  isMessageProcessed k (cacheRun ops emptyCache) = true.
Proof.
  intros Hops Hlen Hin.
  destruct (early_inserts_keep ops emptyCache Hops) as [_ Hnew]; [done|].
  by eapply Hnew.
Qed.

Lemma first_inserts_are_never_lost_witness :
  let ops := [OpMark 0 0 "A:m1"; OpMark 900000 900000 "A:m2";
              OpQuery "A:m1"] in
  (forallb isInsertOrLookup ops = true
   ∧ Z.of_nat (length ops) ≤ DEDUP_CACHE_MAX_SIZE
   ∧ OpMark 0 0 "A:m1" ∈ ops)
  ∧ isMessageProcessed "A:m1" (cacheRun ops emptyCache) = true.
Proof.
  intros ops.
  assert (Z.of_nat (length ops) ≤ DEDUP_CACHE_MAX_SIZE) as Hlen
    by (unfold DEDUP_CACHE_MAX_SIZE; simpl; lia).
  assert (OpMark 0 0 "A:m1" ∈ ops) as Hin by left.
  split; [split_and!; [reflexivity|exact Hlen|exact Hin]|].
  exact (first_inserts_are_never_lost ops 0 0 "A:m1" eq_refl Hlen Hin).
Defined.
(** * Further properties of the event callback *)

Section Keys.
Implicit Types (w : World) (res : StreamEvent) (m : DingtalkRawMessage).

Lemma append_nonempty (s1 s2 : string) : s2 ≠ "" → s1 +:+ s2 ≠ "".
Proof. intros Hne. destruct s1; [done|]. cbn [String.append]. discriminate. Qed.

Lemma append_inj_l (s a b : string) : s +:+ a = s +:+ b → a = b.
Proof.
  induction s as [|ch s IH]; cbn [String.append]; [done|].
  intros H. injection H as H. by apply IH.
Qed.

Lemma dedupeKey_nonempty accountId raw : dedupeKey accountId raw ≠ "".
Proof.
  unfold dedupeKey.
  destruct (streamMessageId (fieldsOf raw)) as [id|];
    [destruct (truthy id)|]; apply append_nonempty; cbn [String.append];
    discriminate.
Qed.

(** The key of an event that carries a delivery id in its headers. *)
Lemma decode_with_id id m :
  id ≠ "" →
  decode (eventOf id m) = inr (RawObject (withStreamMessageId id m)).
Proof.
  intros Hne. unfold decode, eventOf, truthy. simpl.
  by rewrite bool_decide_eq_false_2.
Qed.

Lemma dedupeKey_with_id accountId id m :
  id ≠ "" →
  dedupeKey accountId (RawObject (withStreamMessageId id m))
  = accountId +:+ ":" +:+ id.
Proof.
  intros Hne. unfold dedupeKey, truthy. simpl.
  by rewrite bool_decide_eq_false_2.
Qed.

(** The key of an object without stream message id: the fallback. *)
Lemma dedupeKey_fallback accountId m :
  hasStreamId m = false →
  dedupeKey accountId (RawObject m)
  = accountId +:+ ":" +:+ jsString (conversationId m) +:+ "_"
    +:+ jsString (senderId m) +:+ "_" +:+ fallbackPart m.
Proof.
  unfold hasStreamId, dedupeKey, fallbackPart. simpl.
  destruct (streamMessageId m) as [id|]; [|done]. by intros ->.
Qed.

(** Whatever is delivered, a decodable event has its key in the cache
    when the callback returns. *)
Lemma callback_marks accountId res raw now_gc now w :
  decode res = inr raw →
  isMessageProcessed (dedupeKey accountId raw)
    (dedup (callback accountId res now_gc now w).1) = true.
Proof.
  intros Hdec.
  destruct (isMessageProcessed (dedupeKey accountId raw) (dedup w)) eqn:Hk.
  - by rewrite (callback_duplicate accountId res raw now_gc now w Hdec Hk).
  - rewrite (callback_new accountId res raw now_gc now w Hdec Hk). simpl.
    apply mark_processed.
Qed.

(** An insertion adds no key but its own. *)
Lemma mark_only_adds now_gc now k k' (c : DedupCache) :
  isMessageProcessed k' (markMessageProcessed now_gc now k c) = true →
  k' = k ∨ isMessageProcessed k' c = true.
Proof.
  unfold isMessageProcessed, markMessageProcessed. rewrite !has_true. simpl.
  intros [Heq|Hin]%elem_of_add; [by left|]. right.
  destruct (_ >=? _); [|done].
  assert (k' ∈ processedMessageIds (cleanupDedupCache now_gc c)) as Hin'.
  { destruct (_ >=? _); [|done].
    destruct (JsMap.first_key _) as [oldest|]; [|done].
    destruct (truthy oldest); [|done].
    simpl in Hin. by apply elem_of_delete in Hin as [_ Hin]. }
  unfold cleanupDedupCache in Hin'. by apply cleanup_fold_ids in Hin' as [? _].
Qed.
End Keys.

(** X6: what the callback does with an event, in full.  The handler is
    called once if the event decodes and its key is not in the cache, and
    not at all otherwise; only in the first case does the cache change (the
    key is inserted); the acknowledgment is [SUCCESS]; and after the
    callback the key of any decodable event is in the cache. *)
Theorem callback_calls_handler_iff_novel
    (accountId : string) (res : StreamEvent) (now_gc now : Z) (w : World) :
  let w' := (callback accountId res now_gc now w).1 in
  handlerCalls w'
  = (handlerCalls w + (if isNovel accountId res w then 1 else 0))%nat
  ∧ (isNovel accountId res w = false → dedup w' = dedup w)
  ∧ (∀ raw, decode res = inr raw →
       isMessageProcessed (dedupeKey accountId raw) (dedup w') = true
       ∧ (isNovel accountId res w = true →
          dedup w'
          = markMessageProcessed now_gc now (dedupeKey accountId raw)
              (dedup w)))
  ∧ (callback accountId res now_gc now w).2 = SUCCESS.
Proof.
  intros w'. subst w'. unfold isNovel.
  split_and!; [| | |apply callback_ack].
  - unfold callback. destruct (decode res) as [e|raw]; simpl.
    { unfold handlerCalls. simpl. rewrite countIf_app. simpl. lia. }
    destruct (isMessageProcessed _ _); simpl;
      unfold handlerCalls; simpl; rewrite ?countIf_app; simpl; lia.
  - unfold callback. destruct (decode res) as [e|raw]; [done|].
    by destruct (isMessageProcessed _ _).
  - intros raw Hdec. split; [by apply callback_marks|].
    rewrite Hdec. intros Hnew%negb_true_iff.
    by rewrite (callback_new accountId res raw now_gc now w Hdec Hnew).
Qed.

(** The decoding of an event that carries a delivery id in its headers:
    the id is attached to an object, and anything else is a throw. *)
Lemma decode_object_with_id id res :
  id ≠ "" → resHeaderMessageId res = Some id → payloadIsObject res = true →
  ∃ m, decode res = inr (RawObject (withStreamMessageId id m)).
Proof.
  intros Hne Hid Hobj. unfold payloadIsObject in Hobj. unfold decode, truthy.
  destruct (resData res) as [| | |m]; try discriminate.
  exists m. by rewrite Hid, bool_decide_eq_false_2.
Qed.

Lemma decode_other_with_id id res :
  id ≠ "" → resHeaderMessageId res = Some id → payloadIsObject res = false →
  ∃ e, decode res = inl e.
Proof.
  intros Hne Hid Hobj. unfold payloadIsObject in Hobj. unfold decode, truthy.
  destruct (resData res) as [e| | |m]; try discriminate; rewrite ?Hid;
    [by exists e|by eexists|].
  rewrite bool_decide_eq_false_2 by done. by eexists.
Qed.

(** An event that does not decode is reported and leaves no mark. *)
Lemma callback_undecodable accountId res e now_gc now w :
  decode res = inl e →
  handlerCalls (callback accountId res now_gc now w).1 = handlerCalls w
  ∧ dedup (callback accountId res now_gc now w).1 = dedup w.
Proof.
  intros Hdec. unfold callback. rewrite Hdec. simpl. split; [|done].
  unfold handlerCalls. simpl. rewrite countIf_app. simpl. lia.
Qed.

Lemma callback_new_calls accountId res raw now_gc now w :
  decode res = inr raw →
  isMessageProcessed (dedupeKey accountId raw) (dedup w) = false →
  handlerCalls (callback accountId res now_gc now w).1 = S (handlerCalls w).
Proof.
  intros Hdec Hnew. rewrite (callback_new accountId res raw now_gc now w Hdec Hnew).
  unfold handlerCalls. simpl. rewrite !countIf_app. simpl. lia.
Qed.

Lemma callback_duplicate_calls accountId res raw now_gc now w :
  decode res = inr raw →
  isMessageProcessed (dedupeKey accountId raw) (dedup w) = true →
  handlerCalls (callback accountId res now_gc now w).1 = handlerCalls w
  ∧ dedup (callback accountId res now_gc now w).1 = dedup w.
Proof.
  intros Hdec Hk.
  rewrite (callback_duplicate accountId res raw now_gc now w Hdec Hk).
  simpl. split; [|done].
  unfold handlerCalls. simpl. rewrite countIf_app. simpl. lia.
Qed.

(** After any event, the cache holds what it held and at most the key of
    that event. *)
Lemma callback_only_adds accountId res now_gc now w k :
  isMessageProcessed k (dedup (callback accountId res now_gc now w).1) = true →
  isMessageProcessed k (dedup w) = true
  ∨ ∃ raw, decode res = inr raw ∧ k = dedupeKey accountId raw.
Proof.
  intros Hin. destruct (decode res) as [e|raw] eqn:Hdec.
  - left. by rewrite (proj2 (callback_undecodable accountId res e now_gc now w
                               Hdec)) in Hin.
  - destruct (isMessageProcessed (dedupeKey accountId raw) (dedup w)) eqn:Hk.
    + left. by rewrite (proj2 (callback_duplicate_calls accountId res raw
                                 now_gc now w Hdec Hk)) in Hin.
    + rewrite (callback_new accountId res raw now_gc now w Hdec Hk) in Hin.
      simpl in Hin. apply mark_only_adds in Hin as [->|Hin]; [|by left].
      right. by exists raw.
Qed.

(** X7: two events delivered one after the other with the same
    (non-empty) delivery id in their headers.  If the payload of the first
    parses to an object, the two are one event to the monitor: the second
    is not passed to the handler and leaves the cache as it is, whatever its
    payload (another object, a primitive, [null], unparsable text).  If the
    payload of the first does not parse to an object, the first is neither
    handled nor cached, so the id is not used up: a second event with an
    object payload is handled (unless its key was in the cache before). *)
Theorem same_delivery_id_is_dropped
    (accountId id : string) (res1 res2 : StreamEvent)
    (gc1 now1 gc2 now2 : Z) (w : World) :
  id ≠ "" →
  resHeaderMessageId res1 = Some id →
  resHeaderMessageId res2 = Some id →
  let w1 := (callback accountId res1 gc1 now1 w).1 in
  let w2 := (callback accountId res2 gc2 now2 w1).1 in
  (payloadIsObject res1 = true →
   handlerCalls w2 = handlerCalls w1 ∧ dedup w2 = dedup w1)
  ∧ (payloadIsObject res1 = false →
     handlerCalls w1 = handlerCalls w ∧ dedup w1 = dedup w
     ∧ (payloadIsObject res2 = true →
        isMessageProcessed (accountId +:+ ":" +:+ id) (dedup w) = false →
        handlerCalls w2 = S (handlerCalls w))).
Proof.
  intros Hid Hh1 Hh2 w1 w2. split.
  - intros Hobj1.
    destruct (decode_object_with_id id res1 Hid Hh1 Hobj1) as [m1 Hdec1].
    pose proof (callback_marks accountId res1 _ gc1 now1 w Hdec1) as Hk.
    fold w1 in Hk. rewrite dedupeKey_with_id in Hk by done.
    destruct (payloadIsObject res2) eqn:Hobj2.
    + destruct (decode_object_with_id id res2 Hid Hh2 Hobj2) as [m2 Hdec2].
      apply (callback_duplicate_calls accountId res2 _ gc2 now2 w1 Hdec2).
      by rewrite dedupeKey_with_id.
    + destruct (decode_other_with_id id res2 Hid Hh2 Hobj2) as [e Hdec2].
      apply (callback_undecodable accountId res2 e gc2 now2 w1 Hdec2).
  - intros Hobj1.
    destruct (decode_other_with_id id res1 Hid Hh1 Hobj1) as [e Hdec1].
    destruct (callback_undecodable accountId res1 e gc1 now1 w Hdec1)
      as [Hcalls Hcache]. fold w1 in Hcalls, Hcache.
    split_and!; [done..|]. intros Hobj2 Hnew.
    destruct (decode_object_with_id id res2 Hid Hh2 Hobj2) as [m2 Hdec2].
    subst w2. rewrite (callback_new_calls accountId res2 _ gc2 now2 w1 Hdec2).
    + by rewrite Hcalls.
    + by rewrite dedupeKey_with_id, Hcache.
Qed.

Lemma same_delivery_id_is_dropped_witness :
  let w := startedFor "A" None in
  let first := eventOf "m1" (textMessage "hello") in
  let second := primitiveEvent "m1" in
  let w1 := (callback "A" first 0 0 w).1 in
  let w2 := (callback "A" second 1 1 w1).1 in
  ("m1" ≠ "" ∧ resHeaderMessageId first = Some "m1"
   ∧ resHeaderMessageId second = Some "m1"
   ∧ payloadIsObject first = true)
  ∧ handlerCalls w2 = handlerCalls w1 ∧ dedup w2 = dedup w1.
Proof.
  intros w first second w1 w2. assert ("m1" ≠ "") as Hne by discriminate.
  split; [split_and!; [exact Hne|reflexivity..]|].
  exact (proj1 (same_delivery_id_is_dropped "A" "m1" first second 0 0 1 1 w
                  Hne eq_refl eq_refl) eq_refl).
Defined.

(** X8: events with different (non-empty) delivery ids in their headers
    are never taken for one another.  If the payload of the second parses to
    an object and its key is not in the cache before the first is delivered,
    the second is passed to the handler after the first, whatever the first
    was (handled, a duplicate, or not decodable) and even when the payloads
    are the same; if the first is an object with a key not in the cache
    either, both are handled. *)
Theorem distinct_delivery_ids_are_both_handled
    (accountId id1 id2 : string) (res1 res2 : StreamEvent)
    (gc1 now1 gc2 now2 : Z) (w : World) :
  id1 ≠ "" → id2 ≠ "" → id1 ≠ id2 →
  resHeaderMessageId res1 = Some id1 →
  resHeaderMessageId res2 = Some id2 →
  payloadIsObject res2 = true →
  isMessageProcessed (accountId +:+ ":" +:+ id2) (dedup w) = false →
  let w1 := (callback accountId res1 gc1 now1 w).1 in
  let w2 := (callback accountId res2 gc2 now2 w1).1 in
  handlerCalls w2 = S (handlerCalls w1)
  ∧ (payloadIsObject res1 = true →
     isMessageProcessed (accountId +:+ ":" +:+ id1) (dedup w) = false →
     handlerCalls w2 = S (S (handlerCalls w))).
Proof.
  intros Hid1 Hid2 Hne Hh1 Hh2 Hobj2 Hnew w1 w2.
  destruct (decode_object_with_id id2 res2 Hid2 Hh2 Hobj2) as [m2 Hdec2].
  assert (isMessageProcessed (accountId +:+ ":" +:+ id2) (dedup w1) = false)
    as Hnew1.
  { apply not_true_is_false. intros Hin. subst w1.
    apply callback_only_adds in Hin as [Hin|(raw & Hdec1 & Hkey)].
    { pose proof (eq_trans (eq_sym Hin) Hnew). discriminate. }
    destruct (payloadIsObject res1) eqn:Hobj1.
    - destruct (decode_object_with_id id1 res1 Hid1 Hh1 Hobj1) as [m1 Hdec1'].
      pose proof (eq_trans (eq_sym Hdec1) Hdec1') as Hraw.
      injection Hraw as ->. rewrite dedupeKey_with_id in Hkey by done.
      apply append_inj_l in Hkey. cbn [String.append] in Hkey.
      injection Hkey as Hkey. apply Hne. symmetry. exact Hkey.
    - destruct (decode_other_with_id id1 res1 Hid1 Hh1 Hobj1) as [e Hdec1'].
      pose proof (eq_trans (eq_sym Hdec1) Hdec1'). discriminate. }
  assert (handlerCalls w2 = S (handlerCalls w1)) as Hsecond.
  { subst w2. apply (callback_new_calls accountId res2 _ gc2 now2 w1 Hdec2).
    by rewrite dedupeKey_with_id. }
  split; [exact Hsecond|]. intros Hobj1 Hnew0.
  destruct (decode_object_with_id id1 res1 Hid1 Hh1 Hobj1) as [m1 Hdec1].
  rewrite Hsecond. f_equal. subst w1.
  apply (callback_new_calls accountId res1 _ gc1 now1 w Hdec1).
  by rewrite dedupeKey_with_id.
Qed.

Lemma distinct_delivery_ids_are_both_handled_witness :
  let w := startedFor "A" None in
  let second := eventOf "m2" (textMessage "hello") in
  let w1 := (callback "A" (unparsableEvent "m1") 0 0 w).1 in
  let w2 := (callback "A" second 1 1 w1).1 in
  ("m1" ≠ "" ∧ "m2" ≠ "" ∧ "m1" ≠ "m2"
   ∧ resHeaderMessageId second = Some "m2"
   ∧ payloadIsObject second = true
   ∧ isMessageProcessed ("A" +:+ ":" +:+ "m2") (dedup w) = false)
  ∧ handlerCalls w2 = S (handlerCalls w1).
Proof.
  intros w second w1 w2.
  assert ("m1" ≠ "") as H1 by discriminate.
  assert ("m2" ≠ "") as H2 by discriminate.
  assert ("m1" ≠ "m2") as H3 by discriminate.
  split; [split_and!; [exact H1|exact H2|exact H3|reflexivity..]|].
  exact (proj1 (distinct_delivery_ids_are_both_handled "A" "m1" "m2"
                  (unparsableEvent "m1") second 0 0 1 1 w
                  H1 H2 H3 eq_refl eq_refl eq_refl eq_refl)).
Defined.

(** X9: without delivery id the key is a heuristic, and it collides.
    Two messages of the same sender in the same conversation that agree on
    the first 50 UTF-16 code units of their text (or, having no text, on
    their message type) have the same key: the second, delivered right after
    the first, is dropped although it is another message.  Texts of at most
    50 code units collide only when they are equal. *)
Theorem fallback_key_collision_drops_message
    (accountId : string) (m1 m2 : DingtalkRawMessage)
    (gc1 now1 gc2 now2 : Z) (w : World) :
  hasStreamId m1 = false → hasStreamId m2 = false →
  conversationId m1 = conversationId m2 →
  senderId m1 = senderId m2 →
  fallbackPart m1 = fallbackPart m2 →
  let w1 := (callback accountId (eventWithoutId m1) gc1 now1 w).1 in
  let w2 := (callback accountId (eventWithoutId m2) gc2 now2 w1).1 in
  dedupeKey accountId (RawObject m1) = dedupeKey accountId (RawObject m2)
  ∧ handlerCalls w2 = handlerCalls w1
  ∧ dedup w2 = dedup w1
  ∧ (∀ content1 content2,
       textContent m1 = Some content1 → textContent m2 = Some content2 →
       (jsLength content1 ≤ 50)%nat → (jsLength content2 ≤ 50)%nat →
       content1 = content2).
Proof.
  intros Hs1 Hs2 Hconv Hsender Hpart w1 w2.
  assert (dedupeKey accountId (RawObject m1)
          = dedupeKey accountId (RawObject m2)) as Hkey.
  { rewrite !dedupeKey_fallback by done. by rewrite Hconv, Hsender, Hpart. }
  pose proof (callback_marks accountId (eventWithoutId m1) (RawObject m1)
                gc1 now1 w eq_refl) as Hk. fold w1 in Hk.
  rewrite Hkey in Hk. subst w2.
  rewrite (callback_duplicate accountId (eventWithoutId m2) (RawObject m2)
             gc2 now2 w1 eq_refl Hk).
  simpl. split_and!; try done.
  - unfold handlerCalls. simpl. rewrite countIf_app. simpl. lia.
  - intros content1 content2 Hc1 Hc2 Hlen1 Hlen2. unfold fallbackPart in Hpart.
    rewrite Hc1, Hc2, !jsSlice_short in Hpart; done.
Qed.

Lemma fallback_key_collision_drops_message_witness :
  let long := "0123456789012345678901234567890123456789012345678-" in
  let m1 := textMessage (long +:+ "first") in
  let m2 := textMessage (long +:+ "second") in
  let w := startedFor "A" None in
  let w1 := (callback "A" (eventWithoutId m1) 0 0 w).1 in
  let w2 := (callback "A" (eventWithoutId m2) 1 1 w1).1 in
  (hasStreamId m1 = false ∧ hasStreamId m2 = false
   ∧ conversationId m1 = conversationId m2 ∧ senderId m1 = senderId m2
   ∧ fallbackPart m1 = fallbackPart m2)
  ∧ m1 ≠ m2
  ∧ handlerCalls w2 = handlerCalls w1.
Proof.
  intros long m1 m2 w w1 w2.
  split; [split_and!; reflexivity|]. split; [discriminate|].
  pose proof (fallback_key_collision_drops_message "A" m1 m2 0 0 1 1 w
                eq_refl eq_refl eq_refl eq_refl eq_refl) as (_ & H & _).
  exact H.
Defined.

(** The cut is at 50 code units, not at 50 bytes: two texts of 18 Chinese
    characters (54 bytes each) that differ in the last character have
    different keys, and both are passed to the handler. *)
Lemma fallback_key_keeps_short_texts_apart :
  let m1 := textMessage "一二三四五六七八九十一二三四五六七甲" in
  let m2 := textMessage "一二三四五六七八九十一二三四五六七乙" in
  let w := startedFor "A" None in
  let w1 := (callback "A" (eventWithoutId m1) 0 0 w).1 in
  let w2 := (callback "A" (eventWithoutId m2) 1 1 w1).1 in
  dedupeKey "A" (RawObject m1) ≠ dedupeKey "A" (RawObject m2)
  ∧ handlerCalls w1 = 1%nat ∧ handlerCalls w2 = 2%nat.
Proof. vm_compute. split; [discriminate|done]. Qed.

(** A character of two code units that straddles the cut is cut in two:
    49 ASCII characters followed by two different characters with the same
    first code unit give the same key. *)
Lemma fallback_key_cuts_surrogate_pairs :
  let ascii49 := "0123456789012345678901234567890123456789012345678" in
  let m1 := textMessage (ascii49 +:+ "😀") in
  let m2 := textMessage (ascii49 +:+ "😁") in
  jsLength (ascii49 +:+ "😀") = 51%nat
  ∧ m1 ≠ m2
  ∧ dedupeKey "A" (RawObject m1) = dedupeKey "A" (RawObject m2).
Proof. vm_compute. split_and!; [done|discriminate|done]. Qed.


Section CacheOfTheMonitor.
Context {DingtalkConfig : Type}.
Context (factory : DingtalkConfig → Thrown + ClientBehaviour).
Implicit Types (w : World) (ev : Event DingtalkConfig).

Lemma cacheRun_bounded ops (c : DedupCache) :
  cacheOk c → "" ∉ processedMessageIds c →
  cacheSize c ≤ DEDUP_CACHE_MAX_SIZE → keysNonEmpty ops →
  cacheOk (cacheRun ops c)
  ∧ ("" ∉ processedMessageIds (cacheRun ops c))
  ∧ cacheSize (cacheRun ops c) ≤ DEDUP_CACHE_MAX_SIZE.
Proof.
  revert c. induction ops as [|op ops IH]; intros c Hok Hc Hsz Hne; [done|].
  destruct (cacheStep_bounded op c) as [Hsz' Hc']; try done.
  { intros a b k Hin%list_elem_of_singleton. subst op. eapply Hne. by left. }
  rewrite cacheRun_cons. apply IH; [by apply cacheStep_ok|done..|].
  intros ????. eapply Hne. by right.
Qed.

Lemma cacheOpsOf_nonempty ev w : keysNonEmpty (cacheOpsOf ev w).
Proof.
  intros now_gc now k Hin.
  destruct ev as [opts| |sg|c res g n|e|]; simpl in Hin;
    try (by apply elem_of_nil in Hin).
  - destruct (sessions w !! c) as [s|]; [|by apply elem_of_nil in Hin].
    destruct (decode res) as [e|raw]; [by apply elem_of_nil in Hin|].
    destruct (isMessageProcessed _ _).
    + by apply list_elem_of_singleton in Hin.
    + apply elem_of_cons in Hin as [Hin|Hin]; [done|].
      apply list_elem_of_singleton in Hin. injection Hin as _ _ ->.
      apply dedupeKey_nonempty.
  - by apply list_elem_of_singleton in Hin.
Qed.

Lemma elem_of_trace_extends e w w' :
  extendsWorld w w' → e ∈ trace w → e ∈ trace w'.
Proof. intros ([extra ->] & _) Hin. apply elem_of_app. by left. Qed.

Lemma step_cached_key_was_handled ev w :
  (∀ k, isMessageProcessed k (dedup w) = true →
        ∃ account raw, EHandle account raw ∈ trace w
                       ∧ dedupeKey account raw = k) →
  ∀ k, isMessageProcessed k (dedup (step factory ev w)) = true →
       ∃ account raw, EHandle account raw ∈ trace (step factory ev w)
                      ∧ dedupeKey account raw = k.
Proof.
  intros IH k Hk.
  assert (isMessageProcessed k (dedup w) = true →
          ∃ account raw, EHandle account raw ∈ trace (step factory ev w)
                         ∧ dedupeKey account raw = k) as Hold.
  { intros Hk'. destruct (IH k Hk') as (a & raw & Hin & Heq).
    exists a, raw. split; [|done].
    eapply elem_of_trace_extends; [apply extendsWorld_step|done]. }
  destruct ev as [opts| |sg|c res g n|e|].
  - apply Hold. simpl in Hk. by rewrite dedup_start in Hk.
  - apply Hold. simpl in Hk. by rewrite dedup_stop in Hk.
  - apply Hold. simpl in Hk. by rewrite dedup_fireAbort in Hk.
  - simpl in Hk |- *. destruct (sessions w !! c) as [s|] eqn:Hs.
    2:{ destruct (IH k Hk) as (a & raw & Hin & Heq). by exists a, raw. }
    destruct (decode res) as [e|raw] eqn:Hdec.
    { assert (dedup (callback (sAccountId s) res g n w).1 = dedup w) as Hsame.
      { unfold callback. by rewrite Hdec. }
      rewrite Hsame in Hk. specialize (Hold Hk). simpl in Hold.
      by rewrite Hs in Hold. }
    destruct (isMessageProcessed (dedupeKey (sAccountId s) raw) (dedup w))
      eqn:Hseen.
    { rewrite (callback_duplicate _ _ _ g n w Hdec Hseen) in Hk.
      simpl in Hk. specialize (Hold Hk). simpl in Hold.
      by rewrite Hs in Hold. }
    rewrite (callback_new _ _ _ g n w Hdec Hseen) in Hk |- *. simpl in Hk.
    apply mark_only_adds in Hk as [->|Hk].
    + exists (sAccountId s), raw. split; [|done]. simpl.
      apply elem_of_app. right. by left.
    + destruct (IH k Hk) as (a & raw' & Hin & Heq). exists a, raw'.
      split; [|done]. simpl. rewrite !elem_of_app. by left; left.
  - apply Hold. exact Hk.
  - simpl in Hk. unfold isMessageProcessed, JsSet.has in Hk. simpl in Hk.
    discriminate.
Qed.
End CacheOfTheMonitor.

(** X10: through the monitor the cache keeps its bound.  In every world
    the monitor can reach, by any starts, stops, aborts, deliveries and
    clears, the cache holds at most 10,000 entries: the keys the callback
    builds are never the empty string. *)
Theorem monitor_cache_never_exceeds_capacity
    {DingtalkConfig : Type}
    (factory : DingtalkConfig → Thrown + ClientBehaviour) (w : World) :
  reachable factory w →
  cacheSize (dedup w) ≤ DEDUP_CACHE_MAX_SIZE
  ∧ isMessageProcessed "" (dedup w) = false.
Proof.
  intros [evs ->].
  enough (∀ w0, (cacheOk (dedup w0) ∧ ("" ∉ processedMessageIds (dedup w0))
                 ∧ cacheSize (dedup w0) ≤ DEDUP_CACHE_MAX_SIZE) →
                cacheOk (dedup (run factory evs w0))
                ∧ ("" ∉ processedMessageIds (dedup (run factory evs w0)))
                ∧ cacheSize (dedup (run factory evs w0))
                  ≤ DEDUP_CACHE_MAX_SIZE) as H.
  { destruct (H initialWorld) as (_ & Hne & Hsz).
    - split_and!; [apply emptyCache_ok|apply not_elem_of_nil|done].
    - split; [done|]. by apply bool_decide_eq_false. }
  induction evs as [|ev evs IH]; intros w0 (Hok & Hne & Hsz); [done|].
  simpl. apply IH. rewrite dedup_step.
  apply cacheRun_bounded; try done. apply cacheOpsOf_nonempty.
Qed.

Lemma monitor_cache_never_exceeds_capacity_witness :
  let w := run simpleFactory
             [EvStart (optsFor (Some "A") None);
              EvDeliver 0%nat (eventWithId "m1") 0 0;
              EvDeliver 0%nat (eventWithId "m2") 1 1] initialWorld in
  reachable simpleFactory w
  ∧ cacheSize (dedup w) ≤ DEDUP_CACHE_MAX_SIZE.
Proof.
  intros w. assert (reachable simpleFactory w) as Hreach.
  { eexists. reflexivity. }
  split; [exact Hreach|].
  exact (proj1 (monitor_cache_never_exceeds_capacity simpleFactory w Hreach)).
Defined.

(** X11: no event is dropped for nothing.  In every world the monitor
    can reach, a key that is in the cache is the key of an event that was
    passed to the downstream handler: an event is treated as a duplicate
    only if an event with the same key was handled before. *)
Theorem cached_key_was_handled
    {DingtalkConfig : Type}
    (factory : DingtalkConfig → Thrown + ClientBehaviour)
    (w : World) (k : string) :
  reachable factory w →
  isMessageProcessed k (dedup w) = true →
  ∃ account raw,
    EHandle account raw ∈ trace w ∧ dedupeKey account raw = k.
Proof.
  intros [evs ->]. revert k.
  enough (∀ w0,
            (∀ k, isMessageProcessed k (dedup w0) = true →
                  ∃ account raw, EHandle account raw ∈ trace w0
                                 ∧ dedupeKey account raw = k) →
            ∀ k, isMessageProcessed k (dedup (run factory evs w0)) = true →
                 ∃ account raw,
                   EHandle account raw ∈ trace (run factory evs w0)
                   ∧ dedupeKey account raw = k) as H.
  { apply H. intros k Hk. unfold isMessageProcessed, JsSet.has in Hk.
    simpl in Hk. discriminate. }
  induction evs as [|ev evs IH]; intros w0 Hw0; [done|].
  simpl. apply IH. by apply step_cached_key_was_handled.
Qed.

Lemma cached_key_was_handled_witness :
  let w := run simpleFactory
             [EvStart (optsFor (Some "A") None);
              EvDeliver 0%nat (eventWithId "m1") 0 0] initialWorld in
  (reachable simpleFactory w
   ∧ isMessageProcessed "A:m1" (dedup w) = true)
  ∧ ∃ account raw,
      EHandle account raw ∈ trace w ∧ dedupeKey account raw = "A:m1".
Proof.
  intros w. assert (reachable simpleFactory w) as Hreach.
  { eexists. reflexivity. }
  split; [split; [exact Hreach|reflexivity]|].
  exact (cached_key_was_handled simpleFactory w "A:m1" Hreach eq_refl).
Defined.

(** X12: the dedup cache belongs to the module, not to a session:
    starts (successful, refused or failed), stops, aborts and late handler
    rejections leave it exactly as it is.  So a message handled before a
    restart of the monitor is still recognised as a duplicate after it. *)
Theorem lifecycle_events_keep_cache
    {DingtalkConfig : Type}
    (factory : DingtalkConfig → Thrown + ClientBehaviour)
    (evs : list (Event DingtalkConfig)) (w : World) :
  forallb isLifecycleEvent evs = true →
  dedup (run factory evs w) = dedup w
  ∧ ∀ accountId res,
      isNovel accountId res (run factory evs w) = isNovel accountId res w.
Proof.
  intros Hevs.
  assert (dedup (run factory evs w) = dedup w) as Hd.
  { revert w. induction evs as [|ev evs IH]; intros w; [done|].
    simpl in Hevs. apply andb_true_iff in Hevs as [Hev Hevs].
    simpl. rewrite (IH Hevs), dedup_step.
    by destruct ev. }
  split; [exact Hd|]. intros accountId res. unfold isNovel. by rewrite Hd.
Qed.

Lemma lifecycle_events_keep_cache_witness :
  let evs := [EvStop; EvStart (optsFor (Some "A") None); EvAbort 2%nat] in
  let w := (callback "A" (eventWithId "id-1") 0 0 (startedFor "A" None)).1 in
  forallb isLifecycleEvent evs = true
  ∧ dedup (run simpleFactory evs w) = dedup w
  ∧ isNovel "A" (eventWithId "id-1") (run simpleFactory evs w) = false.
Proof.
  intros evs w. split; [reflexivity|].
  destruct (lifecycle_events_keep_cache simpleFactory evs w eq_refl)
    as [H1 H2].
  split; [exact H1|]. rewrite H2. reflexivity.
Defined.

(** X13: [clearDedupCache] forgets everything: after it no key is in the
    cache, and the redelivery of any decodable event, also of one that was
    handled before, calls the handler again and leaves a cache holding that
    one key. *)
Theorem clear_cache_reopens_delivery
    (accountId : string) (res : StreamEvent) (raw : RawValue)
    (now_gc now : Z) (w : World) :
  decode res = inr raw →
  let cleared := setDedup (clearDedupCache (dedup w)) w in
  let w' := (callback accountId res now_gc now cleared).1 in
  (∀ k, isMessageProcessed k (dedup cleared) = false)
  ∧ handlerCalls cleared = handlerCalls w
  ∧ handlerCalls w' = S (handlerCalls w)
  ∧ processedMessageIds (dedup w') = [dedupeKey accountId raw]
  ∧ processedMessageTimestamps (dedup w') = [(dedupeKey accountId raw, now)].
Proof.
  intros Hdec cleared w'. subst w'.
  assert (∀ k, isMessageProcessed k (dedup cleared) = false) as Hnone by done.
  rewrite (callback_new accountId res raw now_gc now cleared Hdec (Hnone _)).
  split_and!; try done.
  simpl. unfold handlerCalls. simpl. rewrite !countIf_app. simpl. lia.
Qed.

Lemma clear_cache_reopens_delivery_witness :
  let w := (callback "A" (eventWithId "id-1") 0 0 (startedFor "A" None)).1 in
  let cleared := setDedup (clearDedupCache (dedup w)) w in
  (decode (eventWithId "id-1")
   = inr (RawObject (withStreamMessageId "id-1" (textMessage "hello")))
   ∧ isNovel "A" (eventWithId "id-1") w = false)
  ∧ handlerCalls (callback "A" (eventWithId "id-1") 1 1 cleared).1
    = S (handlerCalls w).
Proof.
  intros w cleared. split; [split; reflexivity|].
  exact (proj1 (proj2 (proj2 (clear_cache_reopens_delivery "A"
           (eventWithId "id-1") _ 1 1 w eq_refl)))).
Defined.

(** * The capacity of the cache *)

Lemma timestamp_unique (m : JsMap.t) k t t' :
  NoDup (JsMap.keys m) → (k, t) ∈ m → (k, t') ∈ m → t = t'.
Proof.
  unfold JsMap.keys. induction m as [|[k0 t0] m IH]; intros Hnd Hin Hin'.
  { by apply elem_of_nil in Hin. }
  rewrite fmap_cons in Hnd. apply NoDup_cons in Hnd as [Hk0 Hnd].
  apply elem_of_cons in Hin as [Heq|Hin], Hin' as [Heq'|Hin'].
  - congruence.
  - injection Heq as -> ->. exfalso. apply Hk0.
    apply list_elem_of_fmap. by exists (k0, t').
  - injection Heq' as -> ->. exfalso. apply Hk0.
    apply list_elem_of_fmap. by exists (k0, t).
  - by apply IH.
Qed.

Lemma map_delete_head k t (m : JsMap.t) :
  NoDup (JsMap.keys ((k, t) :: m)) → JsMap.delete k ((k, t) :: m) = m.
Proof.
  unfold JsMap.keys, JsMap.delete. rewrite fmap_cons.
  intros [Hk _]%NoDup_cons. rewrite filter_cons. cbn [fst].
  rewrite decide_False by (intros H; by apply H).
  induction m as [|[k' t'] m IH]; [done|].
  rewrite fmap_cons in Hk. apply not_elem_of_cons in Hk as [Hne Hk].
  rewrite filter_cons. cbn [fst]. rewrite decide_True by done.
  f_equal. by apply IH.
Qed.

Lemma insertionOps_nonempty (ins : list Insertion) :
  keysNonEmpty (insertionOp <$> ins).
Proof.
  intros now_gc now k Hin. apply list_elem_of_fmap in Hin as (i & Heq & _).
  injection Heq as _ _ ->. apply dedupeKey_nonempty.
Qed.

(** What holds of the cache after any insertions of the monitor. *)
Lemma insertAll_bounded (ins : list Insertion) :
  cacheOk (insertAll ins)
  ∧ ("" ∉ processedMessageIds (insertAll ins))
  ∧ cacheSize (insertAll ins) ≤ DEDUP_CACHE_MAX_SIZE.
Proof.
  apply cacheRun_bounded;
    [apply emptyCache_ok|apply not_elem_of_nil|done
    |apply insertionOps_nonempty].
Qed.

(** C3: after any finite sequence of insertions of the monitor (any
    accounts, any payloads, any clock values: the keys are those the
    callback builds, the only ones [markMessageProcessed] is called with),
    the cache holds at most 10,000 entries, and so it does after one more
    insertion.  That insertion, when it finds the cache below capacity, adds
    its entry to the cache as it is.  When it finds the cache at capacity,
    it first purges exactly the entries older than the TTL; if that leaves
    the cache below capacity it adds its entry to what is left; if not, it
    removes the oldest-inserted entry, the first of the map, and no other,
    and then adds its entry. *)
Theorem C3_cache_never_exceeds_capacity
    (ins : list Insertion) (i : Insertion) :
  let c := insertAll ins in
  let purged := cleanupDedupCache (insCleanupClock i) c in
  let c' := insertAll (ins ++ [i]) in
  cacheSize c ≤ DEDUP_CACHE_MAX_SIZE
  ∧ cacheSize c' ≤ DEDUP_CACHE_MAX_SIZE
  ∧ c' = markMessageProcessed (insCleanupClock i) (insClock i)
           (insertionKey i) c
  ∧ (atCapacity c = false → c' = addEntry (insertionKey i) (insClock i) c)
  ∧ (atCapacity c = true →
     (∀ k t, (k, t) ∈ processedMessageTimestamps purged
             ↔ (k, t) ∈ processedMessageTimestamps c
               ∧ insCleanupClock i - t ≤ DEDUP_CACHE_TTL)
     ∧ (atCapacity purged = false →
        c' = addEntry (insertionKey i) (insClock i) purged)
     ∧ (atCapacity purged = true →
        ∃ oldest t rest,
          processedMessageTimestamps purged = (oldest, t) :: rest
          ∧ processedMessageIds purged = oldest :: JsMap.keys rest
          ∧ c' = addEntry (insertionKey i) (insClock i)
                   (mkCache (JsMap.keys rest) rest))).
Proof.
  intros c purged c'.
  destruct (insertAll_bounded ins) as (Hok & Hne & Hsize). fold c in Hok, Hne, Hsize.
  destruct (insertAll_bounded (ins ++ [i])) as (_ & _ & Hsize'). fold c' in Hsize'.
  assert (c' = markMessageProcessed (insCleanupClock i) (insClock i)
                 (insertionKey i) c) as Hc'.
  { subst c' c. unfold insertAll. by rewrite fmap_app, cacheRun_app. }
  split_and!; [done..| |].
  { intros Hbelow. rewrite Hc'. by apply mark_below. }
  intros Hfull.
  pose proof (cleanup_ok (insCleanupClock i) c Hok) as Hokp. fold purged in Hokp.
  split_and!.
  - intros k t. subst purged. unfold cleanupDedupCache.
    rewrite cleanup_fold_timestamps. split.
    + intros [Hin Hall]. split; [done|]. by apply Hall.
    + intros [Hin Hfresh]. split; [done|]. intros t' Hin'.
      destruct Hok as [Hkeys Hnd]. rewrite Hkeys in Hnd.
      by rewrite <-(timestamp_unique _ k t t' Hnd Hin Hin').
  - intros Hbelow. rewrite Hc'. unfold markMessageProcessed, addEntry.
    unfold atCapacity, cacheSize in Hfull, Hbelow. fold purged.
    by rewrite Hfull, Hbelow.
  - intros Hstill. destruct Hokp as [Hkeys Hnd].
    destruct (processedMessageTimestamps purged) as [|[oldest t] rest] eqn:Hts.
    { unfold atCapacity, cacheSize, JsSet.size in Hstill. rewrite Hkeys in Hstill.
      discriminate Hstill. }
    exists oldest, t, rest. split; [done|].
    assert (processedMessageIds purged = oldest :: JsMap.keys rest) as Hids.
    { by rewrite Hkeys. }
    split; [done|].
    assert (oldest ≠ "") as Holdest.
    { intros ->. apply Hne.
      assert ("" ∈ processedMessageIds purged) as Hin by (rewrite Hids; by left).
      subst purged. unfold cleanupDedupCache in Hin.
      by apply cleanup_fold_ids in Hin as [Hin _]. }
    rewrite Hc'. unfold markMessageProcessed, addEntry.
    unfold atCapacity, cacheSize in Hfull, Hstill. fold purged.
    rewrite Hfull, Hstill, Hts. cbn [JsMap.first_key JsMap.keys fmap list_fmap head fst].
    unfold truthy. rewrite bool_decide_eq_false_2 by done. cbn [negb].
    unfold deleteEntry. rewrite Hts, Hids. cbn [processedMessageIds processedMessageTimestamps].
    rewrite delete_head_NoDup by (by rewrite <-Hids).
    rewrite map_delete_head; [done|].
    rewrite Hids in Hnd. exact Hnd.
Qed.

(** * Further properties of the lifecycle controller *)

Section IdleSlot.
Context {DingtalkConfig : Type}.
Context (factory : DingtalkConfig → Thrown + ClientBehaviour).
Implicit Types (w : World) (c : ClientId).

Lemma slot_cleanup c cl w :
  slot (cleanup c cl w) = slot w ∨ slot (cleanup c cl w) = idleSlot.
Proof.
  unfold cleanup. destruct (disconnectThrows cl), (bool_decide _); simpl; auto.
Qed.

Lemma slot_finalize c o w :
  slot (finalize c o w) = slot w ∨ slot (finalize c o w) = idleSlot.
Proof.
  unfold finalize. destruct (sessions w !! c) as [s|]; [|by left].
  destruct (sStopped s); [by left|].
  set (w2 := match sAbortSignal s with Some sg => _ | None => _ end).
  assert (slot w2 = slot w) as <- by (subst w2; by destruct (sAbortSignal s)).
  unfold settlePromise. destruct o; simpl; apply slot_cleanup.
Qed.

Lemma idleAccountOk_idle : idleAccountOk idleSlot.
Proof. done. Qed.

Lemma idleAccountOk_finalize c o w :
  idleAccountOk (slot w) → idleAccountOk (slot (finalize c o w)).
Proof. intros H. by destruct (slot_finalize c o w) as [->| ->]. Qed.

Lemma idleAccountOk_stop w :
  idleAccountOk (slot w) → idleAccountOk (slot (stopDingtalkMonitor w)).
Proof.
  intros H. unfold stopDingtalkMonitor, stopHook, finalizeResolve.
  destruct (currentStop (slot w)); [by apply idleAccountOk_finalize|].
  by destruct (currentClient (slot w)).
Qed.

Lemma idleAccountOk_dispatch sg snapshot w :
  idleAccountOk (slot w) → idleAccountOk (slot (dispatchAbort sg snapshot w)).
Proof.
  revert w. induction snapshot as [|[sg' c] snapshot IH]; intros w H; [done|].
  simpl. destruct (_ && _); [|by apply IH].
  apply IH. unfold handleAbort, finalizeResolve.
  by apply idleAccountOk_finalize.
Qed.

Lemma idleAccountOk_connectStream c cl sg w :
  idleAccountOk (slot w) → idleAccountOk (slot (connectStream c cl sg w)).
Proof.
  intros H. unfold connectStream, finalizeResolve, finalizeReject.
  destruct (alreadyAborted sg w); [by apply idleAccountOk_finalize|].
  destruct (registerThrows cl);
    [apply idleAccountOk_finalize; by destruct sg|].
  destruct (connectThrows cl);
    [apply idleAccountOk_finalize; by destruct sg|].
  by destruct sg.
Qed.

Lemma idleAccountOk_start opts w :
  idleAccountOk (slot w) →
  idleAccountOk (slot (monitorDingtalkProvider factory opts w).1).
Proof.
  intros H. unfold monitorDingtalkProvider, monitorBody.
  destruct (currentClient (slot w)) eqn:Hc.
  - match goal with |- context [match ?b with Some _ => _ | None => _ end] =>
      destruct b end; [done|].
    simpl. by destruct (currentPromise (slot w)).
  - destruct (dingtalkCfgOf opts) as [cfg|]; [|done].
    destruct (factory cfg) as [e|cl]; [done|].
    simpl.
    apply (idleAccountOk_connectStream (length (sessions w)) cl
             (abortSignal opts)
             (sessionOpened cl (default "default" (accountId opts))
                (abortSignal opts) w)).
    by intros [=].
Qed.

Lemma idleAccountOk_step ev w :
  idleAccountOk (slot w) → idleAccountOk (slot (step factory ev w)).
Proof.
  intros H. destruct ev as [opts| |sg|c res g n|e|]; simpl.
  - by apply idleAccountOk_start.
  - by apply idleAccountOk_stop.
  - unfold fireAbort. destruct (bool_decide _); [done|].
    by apply idleAccountOk_dispatch.
  - destruct (sessions w !! c) as [s|]; [|done].
    by destruct (callback_lifecycle (sAccountId s) res g n w) as (-> & _).
  - done.
  - done.
Qed.

Lemma reachable_idleAccountOk w :
  reachable factory w → idleAccountOk (slot w).
Proof.
  intros [evs ->].
  enough (∀ w0, idleAccountOk (slot w0) →
                idleAccountOk (slot (run factory evs w0))) as H
    by apply H, idleAccountOk_idle.
  induction evs as [|ev evs IH]; intros w0 H0; [done|].
  simpl. by apply IH, idleAccountOk_step.
Qed.
End IdleSlot.

(** X14: the status tells the truth, and there is one connection at
    most.  In every world the monitor can reach: if the status is inactive,
    the account reported is null and every session ever opened is stopped;
    if it is active, exactly one session is live, the account reported is
    the account of that session, and the completion of that session is
    still pending. *)
Theorem status_reports_the_one_live_session
    {DingtalkConfig : Type}
    (factory : DingtalkConfig → Thrown + ClientBehaviour) (w : World) :
  reachable factory w →
  (isMonitorActive w = false →
   getCurrentAccountId w = None
   ∧ ∀ c s, sessions w !! c = Some s → sStopped s = true)
  ∧ (isMonitorActive w = true →
     ∃ c s, liveSession c s w
            ∧ getCurrentAccountId w = Some (sAccountId s)
            ∧ promises w !! sPromise s = Some Pending
            ∧ ∀ c' s', liveSession c' s' w → c' = c ∧ s' = s).
Proof.
  intros Hreach.
  pose proof (reachable_Inv factory w Hreach) as HI.
  pose proof (reachable_idleAccountOk factory w Hreach) as Hidle.
  split.
  - intros Hc%inactive_no_client. split; [by apply Hidle|].
    intros c s Hs. by eapply idle_all_stopped; [apply HI|..].
  - unfold isMonitorActive. intros Hact%bool_decide_eq_true.
    destruct (currentClient (slot w)) as [c|] eqn:Hc; [|done].
    destruct (inv_current w (inv_base w HI) c Hc)
      as (_ & s & Hs & Hlive & Hacc).
    exists c, s. split_and!; try done.
    + by apply (inv_counts w (inv_base w HI) c s Hs).
    + intros c' s' [Hs' Hlive'].
      pose proof (inv_live_current w (inv_base w HI) c' s' Hs' Hlive').
      assert (c' = c) as -> by congruence. split; [done|congruence].
Qed.

Lemma status_reports_the_one_live_session_witness :
  let w := run simpleFactory
             [EvStart (optsFor (Some "A") None); EvStop;
              EvStart (optsFor (Some "B") None)] initialWorld in
  (reachable simpleFactory w ∧ isMonitorActive w = true)
  ∧ ∃ c s, liveSession c s w
           ∧ getCurrentAccountId w = Some (sAccountId s).
Proof.
  intros w. assert (reachable simpleFactory w) as Hreach.
  { eexists. reflexivity. }
  split; [split; [exact Hreach|reflexivity]|].
  destruct (proj2 (status_reports_the_one_live_session simpleFactory w Hreach)
              eq_refl) as (c & s & Hl & Hacc & _).
  exists c, s. split; [exact Hl|exact Hacc].
Defined.

Section StartOutcomes.
Context {DingtalkConfig : Type}.
Context (factory : DingtalkConfig → Thrown + ClientBehaviour).
Implicit Types (w : World) (opts : MonitorDingtalkOpts DingtalkConfig).

Lemma alreadyAborted_sessionOpened cl account sg sg' w :
  alreadyAborted sg' (sessionOpened cl account sg w) = alreadyAborted sg' w.
Proof. by destruct sg'. Qed.

(** The world a start leaves when the client is built and both setup
    calls return. *)
Lemma start_connected opts w dingtalkCfg cl :
  currentClient (slot w) = None →
  dingtalkCfgOf opts = Some dingtalkCfg →
  factory dingtalkCfg = inr cl →
  setupFailure cl = None →
  alreadyAborted (abortSignal opts) w = false →
  let account := default "default" (accountId opts) in
  let c := length (sessions w) in
  let p := length (promises w) in
  monitorBody factory opts w
  = (mkWorld (mkSlot (Some c) (Some account) (Some p) (Some c)) (dedup w)
       (sessions w ++ [mkSession cl account (abortSignal opts) p false])
       (promises w ++ [Pending])
       (abortedSignals w)
       (listenersWith (abortSignal opts) c (abortListeners w))
       (trace w
        ++ [ECreateClient (Some c);
            ELog ("[dingtalk] starting Stream connection for account "
                  +:+ account +:+ "...")]
        ++ listenerTrace (abortSignal opts) c
        ++ [ERegisterCallback c; EConnect c;
            ELog "[dingtalk] Stream client connected"]),
     inr p).
Proof.
  intros Hidle Hcfg Hcl Hsetup Hab account c p.
  rewrite (monitorBody_new factory opts w dingtalkCfg cl Hidle Hcfg Hcl).
  f_equal. fold account c p. unfold connectStream.
  rewrite alreadyAborted_sessionOpened, Hab.
  unfold setupFailure in Hsetup.
  destruct (registerThrows cl); [done|]. rewrite Hsetup.
  rewrite sessionOpened_eq. unfold storePromise, listenersWith, listenerTrace.
  fold c p. destruct (abortSignal opts); apply world_ext; simpl;
    rewrite <-?app_assoc; reflexivity.
Qed.

(** The world a start leaves when the client is built and a setup call
    throws [e]. *)
Lemma start_setup_failed opts w dingtalkCfg cl e :
  currentClient (slot w) = None →
  dingtalkCfgOf opts = Some dingtalkCfg →
  factory dingtalkCfg = inr cl →
  setupFailure cl = Some e →
  alreadyAborted (abortSignal opts) w = false →
  let account := default "default" (accountId opts) in
  let c := length (sessions w) in
  let p := length (promises w) in
  let new := mkSession cl account (abortSignal opts) p false in
  let w' := (monitorBody factory opts w).1 in
  (monitorBody factory opts w).2 = inr p
  ∧ slot w' = mkSlot None None (Some p) None
  ∧ dedup w' = dedup w
  ∧ sessions w' = (sessions w ++ [markStopped new])%list
  ∧ promises w' = (promises w ++ [Rejected e])%list
  ∧ abortedSignals w' = abortedSignals w
  ∧ trace w'
    = (trace w
       ++ [ECreateClient (Some c);
           ELog ("[dingtalk] starting Stream connection for account "
                 +:+ account +:+ "...")]
       ++ listenerTrace (abortSignal opts) c
       ++ [ERegisterCallback c]
       ++ match registerThrows cl with
          | Some _ => []
          | None => [EConnect c]
          end
       ++ [EError ("[dingtalk] failed to start Stream connection: " +:+ e)]
       ++ teardownTrace c new (Some e))%list.
Proof.
  intros Hidle Hcfg Hcl Hsetup Hab account c p new w'. subst w'.
  rewrite (monitorBody_new factory opts w dingtalkCfg cl Hidle Hcfg Hcl).
  fold account c p. unfold connectStream.
  rewrite alreadyAborted_sessionOpened, Hab.
  unfold setupFailure in Hsetup. unfold finalizeReject.
  assert (∀ wx, sessions wx = sessions (sessionOpened cl account
                                          (abortSignal opts) w) →
                slot wx = slot (sessionOpened cl account (abortSignal opts) w) →
                sessions wx !! c = Some new
                ∧ currentClient (slot wx) = Some c) as Hx.
  { intros wx -> ->. split; [|done]. simpl. apply lookup_snoc. }
  destruct (registerThrows cl) as [e0|].
  - injection Hsetup as ->.
    match goal with |- context [finalize c (Some e) ?wx] =>
      destruct (Hx wx) as [Hs Hc];
        [destruct (abortSignal opts); reflexivity..|];
      rewrite (finalize_live c (Some e) wx new Hs eq_refl Hc) end.
    rewrite sessionOpened_eq. unfold listenerTrace. fold c p new.
    destruct (abortSignal opts); simpl; unfold settle; rewrite <-?app_assoc;
      split_and!; try done; subst c p;
      by rewrite ?lookup_snoc, ?insert_snoc.
  - rewrite Hsetup.
    match goal with |- context [finalize c (Some e) ?wx] =>
      destruct (Hx wx) as [Hs Hc];
        [destruct (abortSignal opts); reflexivity..|];
      rewrite (finalize_live c (Some e) wx new Hs eq_refl Hc) end.
    rewrite sessionOpened_eq. unfold listenerTrace. fold c p new.
    destruct (abortSignal opts); simpl; unfold settle; rewrite <-?app_assoc;
      split_and!; try done; subst c p;
      by rewrite ?lookup_snoc, ?insert_snoc.
Qed.
End StartOutcomes.

Lemma promiseState_async w p v :
  (p < length (promises w))%nat →
  promises w !! p = Some v → (∀ r, v ≠ Following r) →
  promiseState (setPromises (promises w ++ [Following p]) w)
    (length (promises w)) = Some v.
Proof.
  intros Hp Hv Hnf.
  apply (promiseState_following _ _ p v); simpl; [apply lookup_snoc| |done].
  by apply lookup_app_l_Some.
Qed.

(** X15: a start from the inactive state whose client is built and whose
    setup calls return (the abort signal, if any, has not fired).  The
    monitor is active for the account of the call ("default" when none is
    given), the promise of the call is pending, the new session is live,
    and the setup ran in this order: client created, start logged, abort
    listener added (if there is a signal), callback registered, connection
    opened, connection logged. *)
Theorem start_connects_in_order
    {DingtalkConfig : Type}
    (factory : DingtalkConfig → Thrown + ClientBehaviour)
    (opts : MonitorDingtalkOpts DingtalkConfig) (w : World)
    (dingtalkCfg : DingtalkConfig) (cl : ClientBehaviour) :
  isMonitorActive w = false →
  dingtalkCfgOf opts = Some dingtalkCfg →
  factory dingtalkCfg = inr cl →
  setupFailure cl = None →
  alreadyAborted (abortSignal opts) w = false →
  let account := default "default" (accountId opts) in
  let c := length (sessions w) in
  let w' := (monitorDingtalkProvider factory opts w).1 in
  let completion := (monitorDingtalkProvider factory opts w).2 in
  promiseState w' completion = Some Pending
  ∧ isMonitorActive w' = true
  ∧ getCurrentAccountId w' = Some account
  ∧ liveSession c (mkSession cl account (abortSignal opts)
                     (length (promises w)) false) w'
  ∧ currentStop (slot w') = Some c
  ∧ trace w'
    = (trace w
       ++ [ECreateClient (Some c);
           ELog ("[dingtalk] starting Stream connection for account "
                 +:+ account +:+ "...")]
       ++ listenerTrace (abortSignal opts) c
       ++ [ERegisterCallback c; EConnect c;
           ELog "[dingtalk] Stream client connected"])%list
  ∧ dedup w' = dedup w.
Proof.
  intros Hidle%inactive_no_client Hcfg Hcl Hsetup Hab account c.
  unfold monitorDingtalkProvider.
  rewrite (start_connected factory opts w dingtalkCfg cl Hidle Hcfg Hcl Hsetup
             Hab).
  fold account c. cbn [fst snd]. split_and!; try done.
  - match goal with |- promiseState (setPromises _ ?wx) _ = _ =>
      apply (promiseState_async wx (length (promises w)) Pending) end;
      simpl; [rewrite length_app; simpl; lia|apply lookup_snoc|done].
  - split; [|done]. simpl. apply lookup_snoc.
Qed.

(** X16: a start from the inactive state whose client is built, but
    whose callback registration or connection throws [e].  The promise of
    the call is rejected with [e], the status is inactive with no account
    and no stop hook, the session is stopped and its client was
    disconnected by this start, and [connect] was not called when the
    registration threw.  The module variable [currentPromise] is left
    holding the rejected promise: it is assigned after the executor has
    cleared it. *)
Theorem start_setup_failure_releases_slot
    {DingtalkConfig : Type}
    (factory : DingtalkConfig → Thrown + ClientBehaviour)
    (opts : MonitorDingtalkOpts DingtalkConfig) (w : World)
    (dingtalkCfg : DingtalkConfig) (cl : ClientBehaviour) (e : Thrown) :
  isMonitorActive w = false →
  dingtalkCfgOf opts = Some dingtalkCfg →
  factory dingtalkCfg = inr cl →
  setupFailure cl = Some e →
  alreadyAborted (abortSignal opts) w = false →
  let account := default "default" (accountId opts) in
  let c := length (sessions w) in
  let p := length (promises w) in
  let new := mkSession cl account (abortSignal opts) p false in
  let w' := (monitorDingtalkProvider factory opts w).1 in
  let completion := (monitorDingtalkProvider factory opts w).2 in
  promiseState w' completion = Some (Rejected e)
  ∧ isMonitorActive w' = false
  ∧ getCurrentAccountId w' = None
  ∧ currentStop (slot w') = None
  ∧ currentPromise (slot w') = Some p
  ∧ promises w' !! p = Some (Rejected e)
  ∧ sessions w' !! c = Some (markStopped new)
  ∧ disconnectCalls c w' = S (disconnectCalls c w)
  ∧ trace w'
    = (trace w
       ++ [ECreateClient (Some c);
           ELog ("[dingtalk] starting Stream connection for account "
                 +:+ account +:+ "...")]
       ++ listenerTrace (abortSignal opts) c
       ++ [ERegisterCallback c]
       ++ match registerThrows cl with
          | Some _ => []
          | None => [EConnect c]
          end
       ++ [EError ("[dingtalk] failed to start Stream connection: " +:+ e)]
       ++ teardownTrace c new (Some e))%list.
Proof.
  intros Hidle%inactive_no_client Hcfg Hcl Hsetup Hab account c p new.
  pose proof (start_setup_failed factory opts w dingtalkCfg cl e Hidle Hcfg
                Hcl Hsetup Hab) as H.
  cbv zeta in H. fold account c p new in H.
  unfold monitorDingtalkProvider.
  destruct (monitorBody factory opts w) as [wb outcome].
  cbn [fst snd] in *.
  destruct H as (-> & Hslot & Hdedup & Hsess & Hprom & Haborted & Htrace).
  assert (promises wb !! p = Some (Rejected e)) as Hp.
  { rewrite Hprom. apply lookup_snoc. }
  split_and!.
  - apply (promiseState_async wb p (Rejected e)); [|done..].
    rewrite Hprom, length_app. simpl. unfold p. lia.
  - unfold isMonitorActive. simpl. by rewrite Hslot.
  - unfold getCurrentAccountId. simpl. by rewrite Hslot.
  - simpl. by rewrite Hslot.
  - simpl. by rewrite Hslot.
  - simpl. by apply lookup_app_l_Some.
  - simpl. rewrite Hsess. apply lookup_snoc.
  - unfold disconnectCalls. simpl. rewrite Htrace.
    unfold teardownTrace, listenerTrace. rewrite !countIf_app.
    destruct (abortSignal opts), (registerThrows cl),
      (disconnectThrows (sClient new)); simpl;
      rewrite ?bool_decide_eq_true_2 by done; simpl; lia.
  - simpl. exact Htrace.
Qed.

(** X17: a start from the inactive state whose client factory throws
    [e].  The promise of the call is rejected with [e] itself, the failure
    is reported once, and nothing else happens: no session is created, the
    module variables, the abort listeners and the cache are as before. *)
Theorem start_factory_failure_changes_nothing
    {DingtalkConfig : Type}
    (factory : DingtalkConfig → Thrown + ClientBehaviour)
    (opts : MonitorDingtalkOpts DingtalkConfig) (w : World)
    (dingtalkCfg : DingtalkConfig) (e : Thrown) :
  isMonitorActive w = false →
  dingtalkCfgOf opts = Some dingtalkCfg →
  factory dingtalkCfg = inl e →
  let w' := (monitorDingtalkProvider factory opts w).1 in
  let completion := (monitorDingtalkProvider factory opts w).2 in
  promiseState w' completion = Some (Rejected e)
  ∧ trace w'
    = (trace w ++ [ECreateClient None;
                   EError ("[dingtalk] failed to create client: " +:+ e)])%list
  ∧ slot w' = slot w ∧ sessions w' = sessions w ∧ dedup w' = dedup w
  ∧ abortListeners w' = abortListeners w
  ∧ abortedSignals w' = abortedSignals w
  ∧ (∀ p, (p < length (promises w))%nat → promises w' !! p = promises w !! p)
  ∧ isMonitorActive w' = false.
Proof.
  intros Hidle Hcfg Hcl.
  pose proof (inactive_no_client w Hidle) as Hnone.
  unfold monitorDingtalkProvider, monitorBody. rewrite Hnone, Hcfg, Hcl.
  cbn [fst snd]. split_and!; try done.
  - apply promiseState_rejected. simpl. apply lookup_snoc.
  - simpl. by rewrite <-app_assoc.
  - intros p Hp. simpl. by apply lookup_app_l.
Qed.

Section StopAndAbort.
Context {DingtalkConfig : Type}.
Context (factory : DingtalkConfig → Thrown + ClientBehaviour).
Implicit Types (w : World) (opts : MonitorDingtalkOpts DingtalkConfig).

Lemma filter_twice {A} (P : A → Prop) `{!∀ x, Decision (P x)} (l : list A) :
  filter P (filter P l) = filter P l.
Proof.
  induction l as [|x l IH]; [done|]. rewrite filter_cons.
  destruct (decide (P x)) as [HP|HP]; [|done].
  by rewrite filter_cons, decide_True, IH.
Qed.

(** The world a manual stop leaves when session [c] is live. *)
Lemma stop_live c s w :
  Inv w → liveSession c s w →
  stopDingtalkMonitor w
  = mkWorld idleSlot (dedup w) (<[c := markStopped s]> (sessions w))
      (settle (sPromise s) Fulfilled (promises w))
      (abortedSignals w)
      (match sAbortSignal s with
       | Some sg => filter (λ l, l ≠ (sg, c)) (abortListeners w)
       | None => abortListeners w
       end)
      (trace w
       ++ [ELog "[dingtalk] stop requested, stopping Stream client"]
       ++ teardownTrace c s None).
Proof.
  intros HI [Hs Hlive].
  pose proof (inv_live_current w (inv_base w HI) c s Hs Hlive) as Hc.
  destruct (inv_current w (inv_base w HI) c Hc) as (Hstop & _).
  unfold stopDingtalkMonitor. rewrite Hstop. unfold stopHook, finalizeResolve.
  rewrite (finalize_live c None _ s); [|done..].
  apply world_ext; simpl; rewrite <-?app_assoc; reflexivity.
Qed.

(** The world the abort of the signal of live session [c] leaves. *)
Lemma abort_live sg c s w :
  Inv w → liveSession c s w → sAbortSignal s = Some sg →
  fireAbort sg w
  = mkWorld idleSlot (dedup w) (<[c := markStopped s]> (sessions w))
      (settle (sPromise s) Fulfilled (promises w))
      (abortedSignals w ++ [sg])
      (filter (λ l, l ≠ (sg, c)) (abortListeners w))
      (trace w
       ++ [ELog "[dingtalk] abort signal received, stopping Stream client"]
       ++ teardownTrace c s None).
Proof.
  intros HI [Hs Hlive] Hsg.
  pose proof (inv_live_current w (inv_base w HI) c s Hs Hlive) as Hc.
  rewrite (fireAbort_live sg c s w HI (conj Hs Hlive) Hsg).
  unfold handleAbort, finalizeResolve.
  rewrite (finalize_live c None _ s); [|done..].
  rewrite Hsg. apply world_ext; simpl; rewrite <-?app_assoc, ?filter_twice;
    reflexivity.
Qed.

Lemma stop_keeps_aborted w :
  Inv w → abortedSignals (stopDingtalkMonitor w) = abortedSignals w.
Proof.
  intros HI. destruct (isMonitorActive w) eqn:Hact.
  - unfold isMonitorActive in Hact. apply bool_decide_eq_true in Hact.
    destruct (currentClient (slot w)) as [c|] eqn:Hc; [|done].
    destruct (inv_current w (inv_base w HI) c Hc) as (_ & s & Hs & Hlive & _).
    by rewrite (stop_live c s w HI (conj Hs Hlive)).
  - by rewrite stop_idle.
Qed.
End StopAndAbort.

(** X18: the abort signal of the live session fires.  The abort does to
    the monitor what a manual stop does: both leave the same module
    variables, sessions, promises, abort listeners and cache, and run the
    same teardown after their own log line.  They differ in that line, and
    in the signal being aborted. *)
Theorem abort_acts_as_stop
    {DingtalkConfig : Type}
    (factory : DingtalkConfig → Thrown + ClientBehaviour)
    (w : World) (c : ClientId) (s : Session) (sg : SignalId) :
  reachable factory w →
  liveSession c s w →
  sAbortSignal s = Some sg →
  let wa := fireAbort sg w in
  let ws := stopDingtalkMonitor w in
  slot wa = slot ws ∧ sessions wa = sessions ws ∧ promises wa = promises ws
  ∧ abortListeners wa = abortListeners ws ∧ dedup wa = dedup ws
  ∧ trace wa
    = (trace w
       ++ [ELog "[dingtalk] abort signal received, stopping Stream client"]
       ++ teardownTrace c s None)%list
  ∧ trace ws
    = (trace w
       ++ [ELog "[dingtalk] stop requested, stopping Stream client"]
       ++ teardownTrace c s None)%list
  ∧ abortedSignals wa = (abortedSignals w ++ [sg])%list
  ∧ abortedSignals ws = abortedSignals w
  ∧ isMonitorActive wa = false.
Proof.
  intros HI%reachable_Inv Hlive Hsg wa ws. subst wa ws.
  rewrite (abort_live sg c s w HI Hlive Hsg), (stop_live c s w HI Hlive), Hsg.
  by split_and!.
Qed.

(** X19: the monitor is stopped and then started again, for any
    account, with a configuration whose client is built and set up without
    a throw (the abort signal of the new start has not fired).  The stop
    releases the slot whatever was running: the new start is never refused
    as busy, the monitor is active for the new account and the promise of
    the call is pending. *)
Theorem restart_after_stop_succeeds
    {DingtalkConfig : Type}
    (factory : DingtalkConfig → Thrown + ClientBehaviour)
    (opts : MonitorDingtalkOpts DingtalkConfig) (w : World)
    (dingtalkCfg : DingtalkConfig) (cl : ClientBehaviour) :
  reachable factory w →
  dingtalkCfgOf opts = Some dingtalkCfg →
  factory dingtalkCfg = inr cl →
  setupFailure cl = None →
  alreadyAborted (abortSignal opts) w = false →
  let w' := run factory [EvStop; EvStart opts] w in
  let completion :=
    (monitorDingtalkProvider factory opts (stopDingtalkMonitor w)).2 in
  isMonitorActive w' = true
  ∧ getCurrentAccountId w' = Some (default "default" (accountId opts))
  ∧ promiseState w' completion = Some Pending
  ∧ ∃ c s, liveSession c s w' ∧ sClient s = cl
           ∧ (length (sessions w) ≤ c)%nat.
Proof.
  intros HI%reachable_Inv Hcfg Hcl Hsetup Hab. simpl.
  pose proof (stop_makes_idle w HI) as Hidle.
  assert (alreadyAborted (abortSignal opts) (stopDingtalkMonitor w) = false)
    as Hab'.
  { unfold alreadyAborted in *. by rewrite stop_keeps_aborted. }
  unfold monitorDingtalkProvider.
  rewrite (start_connected factory opts (stopDingtalkMonitor w) dingtalkCfg cl
             (inactive_no_client _ Hidle) Hcfg Hcl Hsetup Hab').
  cbn [fst snd]. split_and!; [done..| |].
  { match goal with |- promiseState (setPromises _ ?wx) _ = _ =>
      apply (promiseState_async wx
               (length (promises (stopDingtalkMonitor w))) Pending) end;
      simpl; [rewrite length_app; simpl; lia|apply lookup_snoc|done]. }
  eexists _, _. split; [split; [simpl; apply lookup_snoc|done]|].
  split; [done|].
  destruct (isMonitorActive w) eqn:Hw.
  - unfold isMonitorActive in Hw. apply bool_decide_eq_true in Hw.
    destruct (currentClient (slot w)) as [c|] eqn:Hc; [|done].
    destruct (inv_current w (inv_base w HI) c Hc) as (_ & s & Hs & Hl & _).
    rewrite (stop_live c s w HI (conj Hs Hl)). simpl.
    by rewrite length_insert.
  - by rewrite stop_idle.
Qed.

(** X20: in every state the monitor can reach, a client without stop
    hook does not exist, so the fallback of [stopDingtalkMonitor] (lines
    278-289) never runs: a stop is the stop hook of the current session, or
    nothing at all. *)
Theorem stop_fallback_never_runs
    {DingtalkConfig : Type}
    (factory : DingtalkConfig → Thrown + ClientBehaviour) (w : World) :
  reachable factory w →
  (currentStop (slot w) = None → currentClient (slot w) = None)
  ∧ stopDingtalkMonitor w
    = match currentStop (slot w) with
      | Some c => stopHook c w
      | None => w
      end.
Proof.
  intros HI%reachable_Inv.
  assert (currentStop (slot w) = None → currentClient (slot w) = None) as H.
  { intros Hstop. destruct (currentClient (slot w)) as [c|] eqn:Hc; [|done].
    destruct (inv_current w (inv_base w HI) c Hc) as (Hstop' & _).
    by rewrite Hstop in Hstop'. }
  split; [exact H|]. unfold stopDingtalkMonitor.
  destruct (currentStop (slot w)); [done|]. by rewrite H.
Qed.

Lemma start_connects_in_order_witness :
  let opts := optsFor (Some "A") (Some 7%nat) in
  let started := monitorDingtalkProvider simpleFactory opts initialWorld in
  (isMonitorActive initialWorld = false
   ∧ dingtalkCfgOf opts = Some tt
   ∧ simpleFactory tt = inr wellBehaved
   ∧ setupFailure wellBehaved = None
   ∧ alreadyAborted (abortSignal opts) initialWorld = false)
  ∧ promiseState started.1 started.2 = Some Pending
  ∧ isMonitorActive started.1 = true
  ∧ getCurrentAccountId started.1 = Some "A".
Proof.
  intros opts started. split; [by split_and!|].
  pose proof (start_connects_in_order simpleFactory opts initialWorld tt
                wellBehaved eq_refl eq_refl eq_refl eq_refl eq_refl)
    as (H1 & H2 & H3 & _).
  split_and!; [exact H1|exact H2|exact H3].
Defined.

Lemma start_setup_failure_releases_slot_witness :
  let opts := optsFor (Some "A") None in
  let started := monitorDingtalkProvider failingFactory opts initialWorld in
  (isMonitorActive initialWorld = false
   ∧ dingtalkCfgOf opts = Some tt
   ∧ failingFactory tt = inr failingConnect
   ∧ setupFailure failingConnect = Some "Error: connect failed"
   ∧ alreadyAborted (abortSignal opts) initialWorld = false)
  ∧ promiseState started.1 started.2
    = Some (Rejected "Error: connect failed")
  ∧ isMonitorActive started.1 = false
  ∧ getCurrentAccountId started.1 = None.
Proof.
  intros opts started. split; [by split_and!|].
  pose proof (start_setup_failure_releases_slot failingFactory opts
                initialWorld tt failingConnect "Error: connect failed"
                eq_refl eq_refl eq_refl eq_refl eq_refl)
    as (H1 & H2 & H3 & _).
  split_and!; [exact H1|exact H2|exact H3].
Defined.

Lemma start_factory_failure_changes_nothing_witness :
  let opts := optsFor (Some "A") None in
  let started := monitorDingtalkProvider throwingFactory opts initialWorld in
  (isMonitorActive initialWorld = false
   ∧ dingtalkCfgOf opts = Some tt
   ∧ throwingFactory tt = inl "Error: clientId missing")
  ∧ promiseState started.1 started.2
    = Some (Rejected "Error: clientId missing")
  ∧ sessions started.1 = sessions initialWorld
  ∧ isMonitorActive started.1 = false.
Proof.
  intros opts started. split; [by split_and!|].
  pose proof (start_factory_failure_changes_nothing throwingFactory opts
                initialWorld tt "Error: clientId missing"
                eq_refl eq_refl eq_refl)
    as (H1 & _ & _ & H2 & _ & _ & _ & _ & H3).
  split_and!; [exact H1|exact H2|exact H3].
Defined.

Lemma abort_acts_as_stop_witness :
  let w := startedFor "A" (Some 3%nat) in
  let s := mkSession wellBehaved "A" (Some 3%nat) 0%nat false in
  (reachable simpleFactory w ∧ liveSession 0%nat s w
   ∧ sAbortSignal s = Some 3%nat)
  ∧ slot (fireAbort 3%nat w) = slot (stopDingtalkMonitor w)
  ∧ sessions (fireAbort 3%nat w) = sessions (stopDingtalkMonitor w)
  ∧ promises (fireAbort 3%nat w) = promises (stopDingtalkMonitor w).
Proof.
  intros w s. assert (reachable simpleFactory w) as Hreach.
  { eexists. reflexivity. }
  assert (liveSession 0%nat s w) as Hlive by (split; reflexivity).
  split; [split_and!; [exact Hreach|exact Hlive|reflexivity]|].
  pose proof (abort_acts_as_stop simpleFactory w 0%nat s 3%nat Hreach Hlive
                eq_refl) as (H1 & H2 & H3 & _).
  split_and!; [exact H1|exact H2|exact H3].
Defined.

Lemma restart_after_stop_succeeds_witness :
  let w := startedFor "A" None in
  let opts := optsFor (Some "B") None in
  (reachable simpleFactory w
   ∧ dingtalkCfgOf opts = Some tt
   ∧ simpleFactory tt = inr wellBehaved
   ∧ setupFailure wellBehaved = None
   ∧ alreadyAborted (abortSignal opts) w = false)
  ∧ isMonitorActive (run simpleFactory [EvStop; EvStart opts] w) = true
  ∧ getCurrentAccountId (run simpleFactory [EvStop; EvStart opts] w)
    = Some "B".
Proof.
  intros w opts. assert (reachable simpleFactory w) as Hreach.
  { eexists. reflexivity. }
  split; [split_and!; [exact Hreach|reflexivity..]|].
  pose proof (restart_after_stop_succeeds simpleFactory opts w tt wellBehaved
                Hreach eq_refl eq_refl eq_refl eq_refl) as (H1 & H2 & _).
  split; [exact H1|exact H2].
Defined.

Lemma stop_fallback_never_runs_witness :
  let w := startedFor "A" None in
  reachable simpleFactory w
  ∧ stopDingtalkMonitor w = stopHook 0%nat w.
Proof.
  intros w. assert (reachable simpleFactory w) as Hreach.
  { eexists. reflexivity. }
  split; [exact Hreach|].
  exact (proj2 (stop_fallback_never_runs simpleFactory w Hreach)).
Defined.

